(** * Path search over a weighted grid: UCS, A* and replanning

    A shallow embedding of [gridEnv.py] (the grid environment) and of
    [search_algorithms.py] (uniform-cost search, A* with the Manhattan
    heuristic, and the replanning walk), with the properties of the
    specification stated and proved over it. *)

From stdpp Require Import gmap list.
From Stdlib Require Import ZArith Lia Permutation.

Local Open Scope Z_scope.

(** ** Python values *)

(** A grid cell, a move cost or an accumulated cost is a Python number:
    an [int], or [float('inf')].  Adding anything to [float('inf')] gives
    [float('inf')] again, and every [int] is below it. *)
Inductive num : Type :=
| Int (z : Z)
| Inf.

Global Instance num_eq_dec : EqDecision num.
Proof. solve_decision. Defined.

Definition num_add (a b : num) : num :=
  match a, b with
  | Int x, Int y => Int (x + y)
  | _, _ => Inf
  end.

Definition num_compare (a b : num) : comparison :=
  match a, b with
  | Int x, Int y => Z.compare x y
  | Int _, Inf => Lt
  | Inf, Int _ => Gt
  | Inf, Inf => Eq
  end.

(** [a < b] on Python numbers. *)
Definition num_ltb (a b : num) : bool :=
  match num_compare a b with Lt => true | _ => false end.

(** [a <= b] on Python numbers. *)
Definition num_leb (a b : num) : bool :=
  match num_compare a b with Gt => false | _ => true end.

(** A position is the tuple [(y, x)]. *)
Abbreviation pos := (Z * Z)%type.

(** A call either returns a value or raises [IndexError] (the only
    exception the modelled code can raise). *)
Inductive outcome (A : Type) : Type :=
| Return (a : A)
| IndexError.
Arguments Return {A} a.
Arguments IndexError {A}.

Global Instance outcome_bind : MBind outcome := λ A B f m,
  match m with
  | Return a => f a
  | IndexError => IndexError
  end.

(** Python list indexing: a negative index counts from the end, anything
    outside [-len, len) raises. *)
Definition py_index (len : nat) (i : Z) : outcome nat :=
  if decide (0 ≤ i < Z.of_nat len) then Return (Z.to_nat i)
  else if decide (- Z.of_nat len ≤ i < 0) then Return (Z.to_nat (Z.of_nat len + i))
  else IndexError.

(** [l[i]] *)
Definition getitem {A} (l : list A) (i : Z) : outcome A :=
  k ← py_index (length l) i;
  match l !! k with
  | Some x => Return x
  | None => IndexError
  end.

(** [l[i] = x] *)
Definition setitem {A} (l : list A) (i : Z) (x : A) : outcome (list A) :=
  k ← py_index (length l) i;
  Return (<[k:=x]> l).

(** ** gridEnv.py *)

(** The attributes of a [GridEnvironment] object that the search reads or
    writes.  [dynamic_obstacles] is a dict whose keys are positions. *)
Record GridEnvironment : Type := {
  grid : list (list num);
  height : Z;
  width : Z;
  dynamic_obstacles : gmap pos bool
}.

Definition set_grid (env : GridEnvironment) (g : list (list num)) : GridEnvironment :=
  {| grid := g; height := height env; width := width env;
     dynamic_obstacles := dynamic_obstacles env |}.

Definition is_valid (env : GridEnvironment) (p : pos) : bool :=
  let '(y, x) := p in
  bool_decide (0 ≤ y < height env) && bool_decide (0 ≤ x < width env).

Definition get_cost (env : GridEnvironment) (p : pos) : outcome num :=
  row ← getitem (grid env) p.1;
  getitem row p.2.

Definition is_passable (env : GridEnvironment) (p : pos) : outcome bool :=
  c ← get_cost env p;
  Return (negb (bool_decide (c = Inf))).

(** The four moves, as [(dy, dx)], in the order the code tries them. *)
Definition directions : list (Z * Z) := [(0, 1); (0, -1); (1, 0); (-1, 0)].

(** The [for dy, dx in ...] loop of [get_neighbors]; [is_passable] is only
    evaluated when [is_valid] holds ([and] short-circuits). *)
Fixpoint collect_neighbors (env : GridEnvironment) (y x : Z)
    (ds : list (Z * Z)) (neighbors : list pos) : outcome (list pos) :=
  match ds with
  | [] => Return neighbors
  | (dy, dx) :: ds' =>
      let neighbor_pos := (y + dy, x + dx) in
      if is_valid env neighbor_pos then
        b ← is_passable env neighbor_pos;
        collect_neighbors env y x ds'
          (if b : bool then neighbors ++ [neighbor_pos] else neighbors)
      else collect_neighbors env y x ds' neighbors
  end.

Definition get_neighbors (env : GridEnvironment) (p : pos) : outcome (list pos) :=
  let '(y, x) := p in
  collect_neighbors env y x directions [].

Definition is_dynamic_obstacle_at (env : GridEnvironment) (p : pos) (time_step : Z) : bool :=
  bool_decide (is_Some (dynamic_obstacles env !! p)) && bool_decide (5 ≤ time_step).

(** [update_grid_with_obstacle] mutates the grid in place; here it returns
    the environment after the call. *)
Definition update_grid_with_obstacle (env : GridEnvironment) (p : pos)
    : outcome GridEnvironment :=
  if bool_decide (is_Some (dynamic_obstacles env !! p)) then
    row ← getitem (grid env) p.1;
    row' ← setitem row p.2 Inf;
    g' ← setitem (grid env) p.1 row';
    Return (set_grid env g')
  else Return env.

(** What [__init__] establishes for a rectangular map: [height] is the
    number of rows and every row has [width] cells. *)
Definition rectangular (env : GridEnvironment) : Prop :=
  height env = Z.of_nat (length (grid env)) ∧
  Forall (λ row, Z.of_nat (length row) = width env) (grid env).

(** [load_grid] stores [int(char)] for a digit, [1], or [float('inf')]:
    no finite cost is negative. *)
Definition nonneg_costs (env : GridEnvironment) : Prop :=
  Forall (Forall (λ c, ∀ z, c = Int z → 0 ≤ z)) (grid env).

Definition wf_env (env : GridEnvironment) : Prop :=
  rectangular env ∧ nonneg_costs env.

(** ** heapq *)

(** Python compares tuples and lists lexicographically. *)
Definition pos_compare (p q : pos) : comparison :=
  match Z.compare p.1 q.1 with
  | Eq => Z.compare p.2 q.2
  | c => c
  end.

Fixpoint path_compare (a b : list pos) : comparison :=
  match a, b with
  | [], [] => Eq
  | [], _ :: _ => Lt
  | _ :: _, [] => Gt
  | p :: a', q :: b' =>
      match pos_compare p q with
      | Eq => path_compare a' b'
      | c => c
      end
  end.

(** [heapq] keeps a list in which [heappop] finds and removes a least
    element.  Only that contract is observable to the search, so the heap
    is the plain list of its entries: [heappush] adds one, [heappop]
    takes out a least one for the entries' order (entries that compare
    equal are equal, so which of them is taken makes no difference). *)
Section Heapq.
Context {A : Type} (leb : A → A → bool).

Definition heappush (h : list A) (x : A) : list A := x :: h.

Fixpoint heappop (h : list A) : option (A * list A) :=
  match h with
  | [] => None
  | x :: h' =>
      match heappop h' with
      | None => Some (x, [])
      | Some (m, rest) =>
          if leb x m then Some (x, h') else Some (m, x :: rest)
      end
  end.
End Heapq.

(** A three-way comparison that is a total order: equal exactly on equal
    arguments, antisymmetric, and transitive. *)
Record total_cmp {A : Type} (cmp : A → A → comparison) : Prop := {
  cmp_refl a : cmp a a = Eq;
  cmp_eq a b : cmp a b = Eq → a = b;
  cmp_opp a b : cmp b a = CompOpp (cmp a b);
  cmp_lt_trans a b c : cmp a b = Lt → cmp b c = Lt → cmp a c = Lt
}.

(** Comparing pairs on the first component, then on the second. *)
Definition lex_compare {A B : Type} (cA : A → A → comparison)
    (cB : B → B → comparison) (a b : A * B) : comparison :=
  match cA a.1 b.1 with
  | Eq => cB a.2 b.2
  | c => c
  end.

(** ** search_algorithms.py *)

(** What a search returns: [(path or None, cost, nodes_expanded)]. *)
Abbreviation search_result := (option (list pos) * num * nat)%type.

(** [next_pos not in visited or new_cost < visited[next_pos]] *)
Definition improves (visited : gmap pos num) (next_pos : pos) (new_cost : num) : bool :=
  match visited !! next_pos with
  | None => true
  | Some best => num_ltb new_cost best
  end.

(** *** Uniform-cost search *)

(** Frontier entries are the tuples [(cost, position, path_list)]. *)
Abbreviation ucs_entry := (num * pos * list pos)%type.

Definition ucs_compare (a b : ucs_entry) : comparison :=
  let '(c1, p1, l1) := a in
  let '(c2, p2, l2) := b in
  match num_compare c1 c2 with
  | Eq => match pos_compare p1 p2 with
          | Eq => path_compare l1 l2
          | c => c
          end
  | c => c
  end.

Definition ucs_leb (a b : ucs_entry) : bool :=
  match ucs_compare a b with Gt => false | _ => true end.

(** The [for next_pos in environment.get_neighbors(current_pos)] loop. *)
Fixpoint ucs_expand (env : GridEnvironment) (cost : num) (path : list pos)
    (neighbors : list pos) (frontier : list ucs_entry) (visited : gmap pos num)
    : outcome (list ucs_entry * gmap pos num) :=
  match neighbors with
  | [] => Return (frontier, visited)
  | next_pos :: rest =>
      move_cost ← get_cost env next_pos;
      let new_cost := num_add cost move_cost in
      if improves visited next_pos new_cost then
        let visited := <[next_pos := new_cost]> visited in
        let new_path := path ++ [next_pos] in
        ucs_expand env cost path rest
          (heappush frontier (new_cost, next_pos, new_path)) visited
      else ucs_expand env cost path rest frontier visited
  end.

(** The [while frontier] loop; [None] when [fuel] iterations were not
    enough to leave it. *)
Fixpoint ucs_loop (fuel : nat) (env : GridEnvironment) (goal_pos : pos)
    (frontier : list ucs_entry) (visited : gmap pos num) (nodes_expanded : nat)
    : option (outcome search_result) :=
  match fuel with
  | O => None
  | S fuel' =>
      match heappop ucs_leb frontier with
      | None => Some (Return (None, Int (-1), nodes_expanded))
      | Some ((cost, current_pos, path), frontier) =>
          let nodes_expanded := S nodes_expanded in
          if decide (current_pos = goal_pos) then
            Some (Return (Some path, cost, nodes_expanded))
          else
            match get_neighbors env current_pos with
            | IndexError => Some IndexError
            | Return neighbors =>
                match ucs_expand env cost path neighbors frontier visited with
                | IndexError => Some IndexError
                | Return (frontier, visited) =>
                    ucs_loop fuel' env goal_pos frontier visited nodes_expanded
                end
            end
      end
  end.

Definition uniform_cost_search (fuel : nat) (env : GridEnvironment)
    (start_pos goal_pos : pos) : option (outcome search_result) :=
  ucs_loop fuel env goal_pos
    [(Int 0, start_pos, [start_pos])] {[start_pos := Int 0]} O.

(** *** A* *)

Definition manhattan_distance (pos1 pos2 : pos) : Z :=
  Z.abs (pos1.1 - pos2.1) + Z.abs (pos1.2 - pos2.2).

(** Frontier entries are the tuples [(f_cost, g_cost, position, path_list)]. *)
Abbreviation astar_entry := (num * num * pos * list pos)%type.

Definition astar_compare (a b : astar_entry) : comparison :=
  let '(f1, g1, p1, l1) := a in
  let '(f2, g2, p2, l2) := b in
  match num_compare f1 f2 with
  | Eq => match num_compare g1 g2 with
          | Eq => match pos_compare p1 p2 with
                  | Eq => path_compare l1 l2
                  | c => c
                  end
          | c => c
          end
  | c => c
  end.

Definition astar_leb (a b : astar_entry) : bool :=
  match astar_compare a b with Gt => false | _ => true end.

Fixpoint a_star_expand (env : GridEnvironment) (goal_pos : pos) (g_cost : num)
    (path : list pos) (neighbors : list pos)
    (frontier : list astar_entry) (visited : gmap pos num)
    : outcome (list astar_entry * gmap pos num) :=
  match neighbors with
  | [] => Return (frontier, visited)
  | next_pos :: rest =>
      move_cost ← get_cost env next_pos;
      let new_g_cost := num_add g_cost move_cost in
      if improves visited next_pos new_g_cost then
        let visited := <[next_pos := new_g_cost]> visited in
        let new_f_cost :=
          num_add new_g_cost (Int (manhattan_distance next_pos goal_pos)) in
        let new_path := path ++ [next_pos] in
        a_star_expand env goal_pos g_cost path rest
          (heappush frontier (new_f_cost, new_g_cost, next_pos, new_path)) visited
      else a_star_expand env goal_pos g_cost path rest frontier visited
  end.

Fixpoint a_star_loop (fuel : nat) (env : GridEnvironment) (goal_pos : pos)
    (frontier : list astar_entry) (visited : gmap pos num) (nodes_expanded : nat)
    : option (outcome search_result) :=
  match fuel with
  | O => None
  | S fuel' =>
      match heappop astar_leb frontier with
      | None => Some (Return (None, Int (-1), nodes_expanded))
      | Some ((f_cost, g_cost, current_pos, path), frontier) =>
          let nodes_expanded := S nodes_expanded in
          if decide (current_pos = goal_pos) then
            Some (Return (Some path, g_cost, nodes_expanded))
          else
            match get_neighbors env current_pos with
            | IndexError => Some IndexError
            | Return neighbors =>
                match a_star_expand env goal_pos g_cost path neighbors
                        frontier visited with
                | IndexError => Some IndexError
                | Return (frontier, visited) =>
                    a_star_loop fuel' env goal_pos frontier visited nodes_expanded
                end
            end
      end
  end.

Definition a_star_search (fuel : nat) (env : GridEnvironment)
    (start_pos goal_pos : pos) : option (outcome search_result) :=
  a_star_loop fuel env goal_pos
    [(Int (0 + manhattan_distance start_pos goal_pos), Int 0, start_pos, [start_pos])]
    {[start_pos := Int 0]} O.

(** *** Replanning *)

(** Python truthiness of [path]: [None] and the empty list are false. *)
Definition truthy (path : option (list pos)) : bool :=
  match path with
  | Some (_ :: _) => true
  | _ => false
  end.

(** [range(n)] *)
Definition py_range (n : Z) : list Z := Z.of_nat <$> seq 0 (Z.to_nat n).

(** The variables the [for] loop of [local_search_replanning] reads and
    assigns, with the environment object it mutates. *)
Record walk_state : Type := {
  w_env : GridEnvironment;
  w_path : list pos;
  w_total_path_cost : num;
  w_total_nodes_expanded : nat;
  w_i : Z
}.

(** How one pass through the loop body ends: at the end of the body, or at
    the [return] of the stuck branch. *)
Inductive flow : Type :=
| Continue (st : walk_state)
| Stuck (r : search_result) (env : GridEnvironment).

(** One pass through the body, entered with [w_i] set to the current
    index.  After a successful replan the body assigns [i = -1]. *)
Definition walk_body (fuel : nat) (goal_pos : pos) (st : walk_state)
    : option (outcome flow) :=
  let i := w_i st in
  match getitem (w_path st) i with
  | IndexError => Some IndexError
  | Return current_pos =>
  match getitem (w_path st) (i + 1) with
  | IndexError => Some IndexError
  | Return next_pos =>
      if is_dynamic_obstacle_at (w_env st) next_pos (i + 1) then
        match update_grid_with_obstacle (w_env st) next_pos with
        | IndexError => Some IndexError
        | Return env =>
        match a_star_search fuel env current_pos goal_pos with
        | None => None
        | Some IndexError => Some IndexError
        | Some (Return (new_path, new_cost, new_expanded)) =>
            if truthy new_path then
              let path := take (Z.to_nat i) (w_path st) ++ default [] new_path in
              let total_path_cost := num_add (w_total_path_cost st) new_cost in
              let total_nodes_expanded :=
                (w_total_nodes_expanded st + new_expanded)%nat in
              let i := -1 in
              match get_cost env next_pos with
              | IndexError => Some IndexError
              | Return c =>
                  Some (Return (Continue
                    {| w_env := env; w_path := path;
                       w_total_path_cost := num_add total_path_cost c;
                       w_total_nodes_expanded := total_nodes_expanded;
                       w_i := i |}))
              end
            else
              Some (Return (Stuck (None, Int (-1), w_total_nodes_expanded st) env))
        end
        end
      else
        match get_cost (w_env st) next_pos with
        | IndexError => Some IndexError
        | Return c =>
            Some (Return (Continue
              {| w_env := w_env st; w_path := w_path st;
                 w_total_path_cost := num_add (w_total_path_cost st) c;
                 w_total_nodes_expanded := w_total_nodes_expanded st;
                 w_i := i |}))
        end
  end
  end.

(** [for i in range(len(path) - 1)]: the range is built once, before the
    first pass, and every pass starts by binding [i] to its next element,
    whatever the body left in [i]. *)
Fixpoint walk (fuel : nat) (goal_pos : pos) (indices : list Z) (st : walk_state)
    : option (outcome (search_result * GridEnvironment)) :=
  match indices with
  | [] =>
      Some (Return ((Some (w_path st), w_total_path_cost st,
                     w_total_nodes_expanded st), w_env st))
  | i :: rest =>
      match walk_body fuel goal_pos
              {| w_env := w_env st; w_path := w_path st;
                 w_total_path_cost := w_total_path_cost st;
                 w_total_nodes_expanded := w_total_nodes_expanded st;
                 w_i := i |} with
      | None => None
      | Some IndexError => Some IndexError
      | Some (Return (Stuck r env)) => Some (Return (r, env))
      | Some (Return (Continue st')) => walk fuel goal_pos rest st'
      end
  end.

(** [local_search_replanning]; the result comes with the environment as
    the call leaves it.  ([max_steps] is never read by the code; the
    [print] calls are left out.) *)
Definition local_search_replanning (fuel : nat) (env : GridEnvironment)
    (start_pos goal_pos : pos) : option (outcome (search_result * GridEnvironment)) :=
  match a_star_search fuel env start_pos goal_pos with
  | None => None
  | Some IndexError => Some IndexError
  | Some (Return (path, path_cost, nodes_expanded)) =>
      if negb (truthy path) then
        Some (Return ((None, Int (-1), nodes_expanded), env))
      else
        let path := default [] path in
        walk fuel goal_pos (py_range (Z.of_nat (length path) - 1))
          {| w_env := env; w_path := path; w_total_path_cost := Int 0;
             w_total_nodes_expanded := nodes_expanded; w_i := 0 |}
  end.

(** ** Best-first search, generically

    Both searches are the same loop: A* orders the frontier by
    [g + manhattan_distance], uniform-cost search by [g] alone.
    [bf_search h] is that loop for an arbitrary heuristic [h]; the two
    searches above are shown to be instances of it, and the invariants
    are proved once, on [bf_search]. *)
Section BestFirst.
Context (h : pos → Z).

Fixpoint bf_expand (env : GridEnvironment) (g_cost : num)
    (path : list pos) (neighbors : list pos)
    (frontier : list astar_entry) (visited : gmap pos num)
    : outcome (list astar_entry * gmap pos num) :=
  match neighbors with
  | [] => Return (frontier, visited)
  | next_pos :: rest =>
      move_cost ← get_cost env next_pos;
      let new_g_cost := num_add g_cost move_cost in
      if improves visited next_pos new_g_cost then
        bf_expand env g_cost path rest
          (heappush frontier
             (num_add new_g_cost (Int (h next_pos)), new_g_cost, next_pos,
              path ++ [next_pos]))
          (<[next_pos := new_g_cost]> visited)
      else bf_expand env g_cost path rest frontier visited
  end.

Fixpoint bf_loop (fuel : nat) (env : GridEnvironment) (goal_pos : pos)
    (frontier : list astar_entry) (visited : gmap pos num) (nodes_expanded : nat)
    : option (outcome search_result) :=
  match fuel with
  | O => None
  | S fuel' =>
      match heappop astar_leb frontier with
      | None => Some (Return (None, Int (-1), nodes_expanded))
      | Some ((f_cost, g_cost, current_pos, path), frontier) =>
          if decide (current_pos = goal_pos) then
            Some (Return (Some path, g_cost, S nodes_expanded))
          else
            match get_neighbors env current_pos with
            | IndexError => Some IndexError
            | Return neighbors =>
                match bf_expand env g_cost path neighbors frontier visited with
                | IndexError => Some IndexError
                | Return (frontier, visited) =>
                    bf_loop fuel' env goal_pos frontier visited (S nodes_expanded)
                end
            end
      end
  end.

Definition bf_search (fuel : nat) (env : GridEnvironment)
    (start_pos goal_pos : pos) : option (outcome search_result) :=
  bf_loop fuel env goal_pos
    [(Int (0 + h start_pos), Int 0, start_pos, [start_pos])]
    {[start_pos := Int 0]} O.
End BestFirst.

(** A uniform-cost entry [(cost, pos, path)] seen as an A* entry whose
    priority is its cost. *)
Definition ucs_as_astar (e : ucs_entry) : astar_entry :=
  let '(c, p, l) := e in (c, c, p, l).

(** ** Routes and their cost *)

(** A cell the agent may stand on: in bounds and not an obstacle. *)
Definition passable_cell (env : GridEnvironment) (p : pos) : Prop :=
  is_valid env p = true ∧ is_passable env p = Return true.

(** [q] is one 4-connected move away from [p]. *)
Definition adjacent (p q : pos) : Prop :=
  ∃ d, d ∈ directions ∧ q = (p.1 + d.1, p.2 + d.2).

(** [route env s g path]: [path] leads from [s] to [g] by 4-connected
    moves, each onto a passable cell (so every cell of a route that
    starts on a passable cell is passable). *)
Inductive route (env : GridEnvironment) : pos → pos → list pos → Prop :=
| route_end p :
    route env p p [p]
| route_move p q g path :
    adjacent p q → passable_cell env q → route env q g path →
    route env p g (p :: path).

(** The sum of [get_cost] over a list of positions. *)
Fixpoint sum_costs (env : GridEnvironment) (ps : list pos) : outcome num :=
  match ps with
  | [] => Return (Int 0)
  | p :: ps' =>
      c ← get_cost env p;
      s ← sum_costs env ps';
      Return (num_add c s)
  end.

(** The cost of a path: the sum of [get_cost] over its positions after the
    first. *)
Definition path_cost (env : GridEnvironment) (path : list pos) : outcome num :=
  sum_costs env (tail path).

(** Every finite cell cost is at least 1. *)
Definition costs_ge1 (env : GridEnvironment) : Prop :=
  Forall (Forall (λ c, ∀ z, c = Int z → 1 ≤ z)) (grid env).

(** ** Executions of the search loops *)

(** One pass of the [while] loop of [uniform_cost_search] that does not
    return: a least entry is popped, it is not the goal, and its
    neighbours are processed. *)
Inductive ucs_step (env : GridEnvironment) (goal_pos : pos) :
    list ucs_entry * gmap pos num → list ucs_entry * gmap pos num → Prop :=
| ucs_step_expand frontier visited cost current_pos path frontier1 neighbors st' :
    heappop ucs_leb frontier = Some ((cost, current_pos, path), frontier1) →
    current_pos ≠ goal_pos →
    get_neighbors env current_pos = Return neighbors →
    ucs_expand env cost path neighbors frontier1 visited = Return st' →
    ucs_step env goal_pos (frontier, visited) st'.

(** The same for [a_star_search]. *)
Inductive a_star_step (env : GridEnvironment) (goal_pos : pos) :
    list astar_entry * gmap pos num → list astar_entry * gmap pos num → Prop :=
| a_star_step_expand frontier visited f_cost g_cost current_pos path frontier1
    neighbors st' :
    heappop astar_leb frontier = Some ((f_cost, g_cost, current_pos, path), frontier1) →
    current_pos ≠ goal_pos →
    get_neighbors env current_pos = Return neighbors →
    a_star_expand env goal_pos g_cost path neighbors frontier1 visited = Return st' →
    a_star_step env goal_pos (frontier, visited) st'.

(** The same for [bf_search h]. *)
Inductive bf_step (h : pos → Z) (env : GridEnvironment) (goal_pos : pos) :
    list astar_entry * gmap pos num → list astar_entry * gmap pos num → Prop :=
| bf_step_expand frontier visited f_cost g_cost current_pos path frontier1
    neighbors st' :
    heappop astar_leb frontier = Some ((f_cost, g_cost, current_pos, path), frontier1) →
    current_pos ≠ goal_pos →
    get_neighbors env current_pos = Return neighbors →
    bf_expand h env g_cost path neighbors frontier1 visited = Return st' →
    bf_step h env goal_pos (frontier, visited) st'.

(** Every recorded best cost is still recorded afterwards, unchanged or
    strictly lower. *)
Definition visited_decreases (visited visited' : gmap pos num) : Prop :=
  ∀ p best, visited !! p = Some best →
    ∃ best', visited' !! p = Some best' ∧ (best' = best ∨ num_ltb best' best = true).

(** ** Invariants of the search *)

(** An entry [(f, g, p, path)] of a search from [s]: [path] is a route
    from [s] to [p], [g] is its cost, and [f] is [g] plus the heuristic. *)
Definition entry_sound (h : pos → Z) (env : GridEnvironment) (s : pos)
    (e : astar_entry) : Prop :=
  let '(f, g, p, path) := e in
  route env s p path ∧ path_cost env path = Return g ∧ f = num_add g (Int (h p)).

(** Every recorded best cost belongs to an in-bounds position and is a
    non-negative integer. *)
Definition visited_ok (env : GridEnvironment) (visited : gmap pos num) : Prop :=
  ∀ p v, visited !! p = Some v →
    is_valid env p = true ∧ ∃ z, v = Int z ∧ 0 ≤ z.

(** The in-bounds positions. *)
Definition cells (env : GridEnvironment) : list pos :=
  y ← seqZ 0 (height env); x ← seqZ 0 (width env); [(y, x)].

(** How many in-bounds positions have no recorded best cost. *)
Definition unvisited (env : GridEnvironment) (visited : gmap pos num) : nat :=
  sum_list_with (λ p, match visited !! p with None => 1 | Some _ => 0 end)%nat
    (cells env).

(** The recorded best costs of the in-bounds positions, added up. *)
Definition weight (env : GridEnvironment) (visited : gmap pos num) : nat :=
  sum_list_with (λ p, match visited !! p with
                      | Some (Int z) => Z.to_nat z
                      | _ => 0
                      end)%nat (cells env).

(** The state the loop keeps: sound entries and a well-formed map. *)
Definition loop_ok (h : pos → Z) (env : GridEnvironment) (s : pos)
    (st : list astar_entry * gmap pos num) : Prop :=
  Forall (entry_sound h env s) st.1 ∧ visited_ok env st.2.

(** [p], recorded at cost [v], has been expanded at that cost: each of
    its passable neighbours [q] is recorded at no more than [v] plus the
    cost of [q]. *)
Definition closed_at (env : GridEnvironment) (visited : gmap pos num)
    (p : pos) (v : Z) : Prop :=
  ∀ q, adjacent p q → passable_cell env q →
    ∃ c w, get_cost env q = Return (Int c) ∧ visited !! q = Some (Int w) ∧ w ≤ v + c.

(** The invariant behind optimality: the start is recorded at cost 0,
    and every recorded position either still has a frontier entry at its
    recorded cost, or is not the goal and has been expanded at that cost. *)
Definition search_inv (h : pos → Z) (env : GridEnvironment) (s goal : pos)
    (st : list astar_entry * gmap pos num) : Prop :=
  loop_ok h env s st ∧
  (∃ v0, st.2 !! s = Some (Int v0) ∧ v0 ≤ 0) ∧
  ∀ p v, st.2 !! p = Some (Int v) →
    (∃ f path, (f, Int v, p, path) ∈ st.1) ∨ (p ≠ goal ∧ closed_at env st.2 p v).

(** [h] never exceeds the cost of a route to the goal. *)
Definition admissible (h : pos → Z) (env : GridEnvironment) (goal : pos) : Prop :=
  ∀ p path c, route env p goal path → path_cost env path = Return (Int c) → h p ≤ c.

(** What one pass may do to the pair [(unvisited, 2 * weight + length
    frontier)]: it does not go up in the lexicographic order. *)
Definition measure_le (env : GridEnvironment)
    (st' st : list astar_entry * gmap pos num) : Prop :=
  (unvisited env st'.2 < unvisited env st.2)%nat ∨
  (unvisited env st'.2 = unvisited env st.2 ∧
   (2 * weight env st'.2 + length st'.1 ≤ 2 * weight env st.2 + length st.1)%nat).

(** ** Sample environments *)

(** An environment over the rows [g] with the positions [registered] in
    [dynamic_obstacles]; [height] and [width] as [__init__] computes
    them, [len(grid)] and [len(grid[0])]. *)
Definition make_env (g : list (list num)) (registered : list pos) : GridEnvironment :=
  {| grid := g;
     height := Z.of_nat (length g);
     width := Z.of_nat (length (default [] (head g)));
     dynamic_obstacles := list_to_map ((λ p, (p, true)) <$> registered) |}.

(** A single cell of cost 1, nothing registered. *)
Definition env_1x1 : GridEnvironment := make_env [[Int 1]] [].

(** Two cells of cost 1 side by side, the right one registered. *)
Definition env_1x2_reg : GridEnvironment := make_env [[Int 1; Int 1]] [(0, 1)].

(** A 3 by 3 grid of cost 1 (scenario A of the specification). *)
Definition env_3x3 : GridEnvironment :=
  make_env [[Int 1; Int 1; Int 1]; [Int 1; Int 1; Int 1]; [Int 1; Int 1; Int 1]] [].

(** Three cells in a row, the middle one an obstacle: no route leads from
    one end to the other. *)
Definition env_gap : GridEnvironment := make_env [[Int 1; Inf; Int 1]] [].

(** Two rows of seven cells of cost 1; [(0, 5)] is registered as a dynamic
    obstacle and the second row is a way round it. *)
Definition env_detour : GridEnvironment :=
  make_env [repeat (Int 1) 7; repeat (Int 1) 7] [(0, 5)].

(** A corridor of seven cells of cost 1 with [(0, 5)] registered: once it
    is blocked nothing leads to [(0, 6)] (scenario D). *)
Definition env_corridor : GridEnvironment :=
  make_env [repeat (Int 1) 7] [(0, 5)].

(** ** Further definitions *)

(** The four positions [get_neighbors] tries around [(y, x)], in the
    order it tries them: right, left, down, up. *)
Definition candidates (p : pos) : list pos :=
  [(p.1, p.2 + 1); (p.1, p.2 - 1); (p.1 + 1, p.2); (p.1 - 1, p.2)].

(** A row with a cell of cost 0 in the middle. *)
Definition env_zero : GridEnvironment := make_env [[Int 1; Int 0; Int 1]] [].

(** [path] visits no position twice, and each of its positions is
    recorded in [visited] at no more than the cost of reaching it along
    [path]. *)
Definition entry_simple (env : GridEnvironment) (visited : gmap pos num)
    (path : list pos) : Prop :=
  NoDup path ∧
  ∀ i q, path !! i = Some q →
    ∃ w c, visited !! q = Some (Int w) ∧
           path_cost env (take (S i) path) = Return (Int c) ∧ w ≤ c.

(** Every finite recorded cost is still recorded, and not higher. *)
Definition visited_lowers (visited visited' : gmap pos num) : Prop :=
  ∀ q w, visited !! q = Some (Int w) →
    ∃ w', visited' !! q = Some (Int w') ∧ w' ≤ w.

(** The invariant behind simple paths. *)
Definition simple_inv (h : pos → Z) (env : GridEnvironment) (s : pos)
    (st : list astar_entry * gmap pos num) : Prop :=
  loop_ok h env s st ∧
  Forall (λ e : astar_entry, entry_simple env st.2 e.2) st.1.

(** [env] is [env0] with some of its registered cells turned into
    obstacles: same bounds, same registry, and every in-bounds cell
    either costs what it cost in [env0] or is registered and costs
    [float('inf')]. *)
Definition env_restricts (env0 env : GridEnvironment) : Prop :=
  height env = height env0 ∧ width env = width env0 ∧
  dynamic_obstacles env = dynamic_obstacles env0 ∧
  ∀ q, is_valid env0 q = true →
    get_cost env q = get_cost env0 q ∨
    (is_Some (dynamic_obstacles env0 !! q) ∧ get_cost env q = Return Inf).

(** What the walk of [local_search_replanning] keeps, for a run started
    in [env0] from [s] to [g]: the environment is rectangular and is
    [env0] with some registered cells blocked, and the current path is a
    route of [env0] from [s] to [g]. *)
Definition walk_ok (env0 : GridEnvironment) (s g : pos) (st : walk_state) : Prop :=
  rectangular (w_env st) ∧ env_restricts env0 (w_env st) ∧
  route env0 s g (w_path st).

(** [env_detour] once the cell [(0, 5)] has been blocked. *)
Definition env_detour_blocked : GridEnvironment :=
  make_env [[Int 1; Int 1; Int 1; Int 1; Int 1; Inf; Int 1]; repeat (Int 1) 7] [(0, 5)].

(** ** Building the environment: [__init__] and [load_grid] *)

(** The exceptions the constructor can raise. *)
Inductive py_exn : Type :=
| AttributeError
| ValueError
| IndexError_.

(** A call of the constructor code returns a value or raises. *)
Inductive raises (A : Type) : Type :=
| Value (a : A)
| Raises (e : py_exn).
Arguments Value {A} a.
Arguments Raises {A} e.

(** A character is a Unicode code point; the four letters [load_grid]
    looks for. *)
Definition chr_S : N := 83.
Definition chr_G : N := 71.
Definition chr_hash : N := 35.
Definition chr_D : N := 68.

(** The attributes of a [GridEnvironment] instance while it is being
    built.  [None] is an attribute that has not been assigned yet
    (reading it raises [AttributeError]); [start_pos] and [goal_pos] hold
    Python's [None] or a position once assigned. *)
Record instance : Type := {
  a_grid : option (list (list num));
  a_height : option Z;
  a_width : option Z;
  a_start_pos : option (option pos);
  a_goal_pos : option (option pos);
  a_dynamic_obstacles : option (gmap pos bool)
}.

(** The instance as [__init__] receives it: no attribute yet. *)
Definition new_instance : instance :=
  {| a_grid := None; a_height := None; a_width := None;
     a_start_pos := None; a_goal_pos := None; a_dynamic_obstacles := None |}.

Definition set_start_pos (self : instance) (v : option pos) : instance :=
  {| a_grid := a_grid self; a_height := a_height self; a_width := a_width self;
     a_start_pos := Some v; a_goal_pos := a_goal_pos self;
     a_dynamic_obstacles := a_dynamic_obstacles self |}.

Definition set_goal_pos (self : instance) (v : option pos) : instance :=
  {| a_grid := a_grid self; a_height := a_height self; a_width := a_width self;
     a_start_pos := a_start_pos self; a_goal_pos := Some v;
     a_dynamic_obstacles := a_dynamic_obstacles self |}.

Definition set_dynamic_obstacles (self : instance) (d : gmap pos bool) : instance :=
  {| a_grid := a_grid self; a_height := a_height self; a_width := a_width self;
     a_start_pos := a_start_pos self; a_goal_pos := a_goal_pos self;
     a_dynamic_obstacles := Some d |}.

Definition set_grid_attrs (self : instance) (g : list (list num)) (h w : Z) : instance :=
  {| a_grid := Some g; a_height := Some h; a_width := Some w;
     a_start_pos := a_start_pos self; a_goal_pos := a_goal_pos self;
     a_dynamic_obstacles := a_dynamic_obstacles self |}.

(** [cell_value == 'S'] in [parse_special_cells]: the cells of the grid
    are numbers, and in Python a number never equals a string. *)
Definition num_eq_str (cell_value : num) (s : N) : bool := false.

Section Loader.
(** Python's text functions, which [load_grid] calls on what it reads:
  [char.isdigit()], [int(char)] (with [None] for [ValueError]) and
  [line.strip()]. *)
Context (isdigit : N → bool) (int_of_char : N → option Z)
      (strip : list N → list N).

(** The [for x, char in enumerate(line.strip())] loop of [load_grid], from
  column [x] on. *)
Fixpoint load_row (self : instance) (y x : Z) (chars : list N) (row : list num)
  : raises (list num * instance) :=
match chars with
| [] => Value (row, self)
| char :: rest =>
    if isdigit char then
      match int_of_char char with
      | None => Raises ValueError
      | Some n => load_row self y (x + 1) rest (row ++ [Int n])
      end
    else if (char =? chr_S)%N then
      load_row (set_start_pos self (Some (y, x))) y (x + 1) rest (row ++ [Int 1])
    else if (char =? chr_G)%N then
      load_row (set_goal_pos self (Some (y, x))) y (x + 1) rest (row ++ [Int 1])
    else if (char =? chr_hash)%N then
      load_row self y (x + 1) rest (row ++ [Inf])
    else if (char =? chr_D)%N then
      match a_dynamic_obstacles self with
      | None => Raises AttributeError
      | Some d =>
          load_row (set_dynamic_obstacles self (<[(y, x) := true]> d))
            y (x + 1) rest (row ++ [Int 1])
      end
    else load_row self y (x + 1) rest (row ++ [Int 1])
end.

(** The [for y, line in enumerate(f)] loop, from line [y] on. *)
Fixpoint load_lines (self : instance) (y : Z) (lines : list (list N))
  (grid : list (list num)) : raises (list (list num) * instance) :=
match lines with
| [] => Value (grid, self)
| line :: rest =>
    match load_row self y 0 (strip line) [] with
    | Raises e => Raises e
    | Value (row, self) => load_lines self (y + 1) rest (grid ++ [row])
    end
end.

(** [load_grid], on the lines the opened file yields. *)
Definition load_grid (self : instance) (lines : list (list N))
  : raises (list (list num) * instance) :=
load_lines self 0 lines [].

(** The two loops of [parse_special_cells]: over the cells of one row,
  and over the rows. *)
Fixpoint parse_row (self : instance) (r c : Z) (row : list num) : raises instance :=
match row with
| [] => Value self
| cell_value :: rest =>
    if num_eq_str cell_value chr_S then
      parse_row (set_start_pos self (Some (r, c))) r (c + 1) rest
    else if num_eq_str cell_value chr_G then
      parse_row (set_goal_pos self (Some (r, c))) r (c + 1) rest
    else if num_eq_str cell_value chr_D then
      match a_dynamic_obstacles self with
      | None => Raises AttributeError
      | Some d =>
          parse_row (set_dynamic_obstacles self (<[(r, c) := true]> d))
            r (c + 1) rest
      end
    else parse_row self r (c + 1) rest
end.

Fixpoint parse_rows (self : instance) (r : Z) (rows : list (list num))
  : raises instance :=
match rows with
| [] => Value self
| row :: rest =>
    match parse_row self r 0 row with
    | Raises e => Raises e
    | Value self => parse_rows self (r + 1) rest
    end
end.

Definition parse_special_cells (self : instance) : raises instance :=
match a_grid self with
| None => Raises AttributeError
| Some g => parse_rows self 0 g
end.

(** [GridEnvironment(map_file)], on the lines of the map file. *)
Definition init (lines : list (list N)) : raises instance :=
match load_grid new_instance lines with
| Raises e => Raises e
| Value (g, self) =>
    match g with
    | [] => Raises IndexError_
    | row0 :: _ =>
        let self :=
          set_grid_attrs self g (Z.of_nat (length g)) (Z.of_nat (length row0)) in
        let self := set_start_pos self None in
        let self := set_goal_pos self None in
        let self := set_dynamic_obstacles self ∅ in
        parse_special_cells self
    end
end.
End Loader.

Definition get_start_position (self : instance) : raises (option pos) :=
  match a_start_pos self with
  | None => Raises AttributeError
  | Some v => Value v
  end.

Definition get_goal_position (self : instance) : raises (option pos) :=
  match a_goal_pos self with
  | None => Raises AttributeError
  | Some v => Value v
  end.

(** The environment the searches see, once every attribute they read is
    assigned. *)
Definition env_of (self : instance) : option GridEnvironment :=
  match a_grid self, a_height self, a_width self, a_dynamic_obstacles self with
  | Some g, Some h, Some w, Some d =>
      Some {| grid := g; height := h; width := w; dynamic_obstacles := d |}
  | _, _, _, _ => None
  end.

(** The cell [load_grid] stores for a character that is not ['D']. *)
Definition cell_of (isdigit : N → bool) (int_of_char : N → option Z) (char : N)
    : option num :=
  if isdigit char then Int <$> int_of_char char
  else if (char =? chr_hash)%N then Some Inf
  else Some (Int 1).

(** The text functions on ASCII text: the digits are ['0'] to ['9'], and
    [strip] removes the ASCII whitespace at both ends. *)
Definition ascii_isdigit (c : N) : bool := ((48 <=? c) && (c <=? 57))%N.

Definition ascii_int (c : N) : option Z :=
  if ascii_isdigit c then Some (Z.of_N c - 48) else None.

Definition ascii_isspace (c : N) : bool :=
  (((9 <=? c) && (c <=? 13)) || ((28 <=? c) && (c <=? 32)))%N.

Fixpoint lstrip (l : list N) : list N :=
  match l with
  | c :: rest => if ascii_isspace c then lstrip rest else l
  | [] => []
  end.

Definition ascii_strip (l : list N) : list N :=
  reverse (lstrip (reverse (lstrip l))).

(** The two lines of the map
<<
S1#
11G
>>
    as the file yields them, with their line ends. *)
Definition sample_map : list (list N) :=
  [[83; 49; 35; 10]; [49; 49; 71; 10]]%N.

(** A character [load_grid] can store a cell for: a digit character that
    [int] accepts, or any other character except ['D']. *)
Definition loadable_char (isdigit : N → bool) (int_of_char : N → option Z)
    (char : N) : Prop :=
  if isdigit char then is_Some (int_of_char char) else char ≠ chr_D.

(** The instance [__init__] builds from [sample_map]. *)
Definition sample_instance : instance :=
  {| a_grid := Some [[Int 1; Int 1; Inf]; [Int 1; Int 1; Int 1]];
     a_height := Some 2; a_width := Some 3;
     a_start_pos := Some None; a_goal_pos := Some None;
     a_dynamic_obstacles := Some ∅ |}.

Definition sample_env : GridEnvironment :=
  {| grid := [[Int 1; Int 1; Inf]; [Int 1; Int 1; Int 1]];
     height := 2; width := 3; dynamic_obstacles := ∅ |}.

(** [cell] is the cell [load_grid] stores for [char]. *)
Definition cell_rel (isdigit : N → bool) (int_of_char : N → option Z)
    (char : N) (cell : num) : Prop :=
  cell_of isdigit int_of_char char = Some cell.

(** A map on which the cheap way to the goal [(2, 4)] passes the
    registered cell [(0, 5)], and the only other way, straight down
    through the cell of cost 9, is shorter. *)
Definition env_shortcut : GridEnvironment :=
  make_env [[Int 1; Int 1; Int 1; Int 1; Int 1; Int 1];
            [Inf; Inf; Inf; Inf; Int 9; Int 1];
            [Inf; Inf; Inf; Inf; Int 1; Int 1]] [(0, 5)].

(** * Proofs *)

(** ** Python numbers *)

Lemma num_add_0_r a : num_add a (Int 0) = a.
Proof. destruct a; simpl; [f_equal; lia | done]. Qed.

Lemma num_ltb_Int x y : num_ltb (Int x) (Int y) = true ↔ x < y.
Proof.
  unfold num_ltb; simpl. destruct (Z.compare_spec x y); split; (lia || done).
Qed.

Lemma num_leb_Int x y : num_leb (Int x) (Int y) = true ↔ x ≤ y.
Proof.
  unfold num_leb; simpl. destruct (Z.compare_spec x y); split; (lia || done).
Qed.

Lemma num_ltb_irrefl a : num_ltb a a = false.
Proof. destruct a; unfold num_ltb; simpl; [by rewrite Z.compare_refl | done]. Qed.

#[global] Arguments getitem : simpl never.
#[global] Arguments setitem : simpl never.
#[global] Arguments get_cost : simpl never.
#[global] Arguments is_passable : simpl never.
#[global] Arguments is_valid : simpl never.
#[global] Arguments get_neighbors : simpl never.

(** ** Indexing *)

Lemma getitem_nonneg {A} (l : list A) (i : Z) x :
  0 ≤ i → getitem l i = Return x ↔ l !! Z.to_nat i = Some x.
Proof.
  intros Hi. unfold getitem, py_index.
  destruct (decide (0 ≤ i < Z.of_nat (length l))) as [Hin|Hout]; simpl.
  - destruct (l !! Z.to_nat i) eqn:E; split; intros; simplify_eq; done.
  - destruct (decide (- Z.of_nat (length l) ≤ i < 0)); [lia|].
    split; [done|]. intros Hl. apply lookup_lt_Some in Hl. lia.
Qed.

Lemma getitem_in_range {A} (l : list A) (i : Z) :
  0 ≤ i < Z.of_nat (length l) → ∃ x, getitem l i = Return x ∧ l !! Z.to_nat i = Some x.
Proof.
  intros Hi. destruct (lookup_lt_is_Some_2 l (Z.to_nat i)) as [x Hx]; [lia|].
  exists x. split; [|done]. by apply getitem_nonneg; [lia|].
Qed.

Lemma setitem_in_range {A} (l : list A) (i : Z) x :
  0 ≤ i < Z.of_nat (length l) → setitem l i x = Return (<[Z.to_nat i := x]> l).
Proof.
  intros Hi. unfold setitem, py_index. by rewrite decide_True.
Qed.

(** ** The grid *)

Lemma is_valid_spec env y x :
  is_valid env (y, x) = true ↔ (0 ≤ y < height env ∧ 0 ≤ x < width env).
Proof.
  unfold is_valid. rewrite andb_true_iff, !bool_decide_eq_true. done.
Qed.

(** In a rectangular grid every in-bounds position names a cell. *)
Lemma valid_cell env y x :
  rectangular env → is_valid env (y, x) = true →
  ∃ row c, grid env !! Z.to_nat y = Some row ∧ row !! Z.to_nat x = Some c ∧
           length row = Z.to_nat (width env) ∧
           get_cost env (y, x) = Return c.
Proof.
  intros [Hh Hw] [Hy Hx]%is_valid_spec.
  destruct (getitem_in_range (grid env) y) as (row & Hg & Hrow); [lia|].
  pose proof (Forall_lookup_1 _ _ _ _ Hw Hrow) as Hlen. simpl in Hlen.
  destruct (getitem_in_range row x) as (c & Hc & Hcell); [lia|].
  exists row, c. repeat split; [done|done|lia|].
  unfold get_cost. simpl. rewrite Hg. done.
Qed.

Lemma get_cost_lookup env y x c :
  0 ≤ y → 0 ≤ x →
  get_cost env (y, x) = Return c ↔
  ∃ row, grid env !! Z.to_nat y = Some row ∧ row !! Z.to_nat x = Some c.
Proof.
  intros Hy Hx. unfold get_cost. simpl. split.
  - destruct (getitem (grid env) y) as [row|] eqn:Hg; simpl; [|done].
    intros Hc. exists row. split; by apply getitem_nonneg.
  - intros (row & Hrow & Hc). apply getitem_nonneg in Hrow; [|done].
    rewrite Hrow. by apply getitem_nonneg.
Qed.

Lemma is_passable_true env p :
  is_passable env p = Return true ↔ ∃ z, get_cost env p = Return (Int z).
Proof.
  unfold is_passable. destruct (get_cost env p) as [[z|]|]; simpl; split;
    try done; try (intros [z' ?]; done); eauto.
Qed.

Lemma passable_cell_cost env p :
  passable_cell env p → ∃ z, get_cost env p = Return (Int z).
Proof. intros [_ H]. by apply is_passable_true. Qed.

Lemma nonneg_cost env y x z :
  nonneg_costs env → 0 ≤ y → 0 ≤ x → get_cost env (y, x) = Return (Int z) → 0 ≤ z.
Proof.
  intros Hnn Hy Hx (row & Hrow & Hc)%get_cost_lookup; [|done..].
  pose proof (Forall_lookup_1 _ _ _ _ Hnn Hrow) as Hr.
  by apply (Forall_lookup_1 _ _ _ _ Hr Hc).
Qed.

Lemma ge1_cost env y x z :
  costs_ge1 env → 0 ≤ y → 0 ≤ x → get_cost env (y, x) = Return (Int z) → 1 ≤ z.
Proof.
  intros Hnn Hy Hx (row & Hrow & Hc)%get_cost_lookup; [|done..].
  pose proof (Forall_lookup_1 _ _ _ _ Hnn Hrow) as Hr.
  by apply (Forall_lookup_1 _ _ _ _ Hr Hc).
Qed.

Lemma costs_ge1_nonneg env : costs_ge1 env → nonneg_costs env.
Proof.
  unfold costs_ge1, nonneg_costs. intros H.
  eapply Forall_impl; [exact H|]. intros row Hrow. simpl in *.
  eapply Forall_impl; [exact Hrow|]. intros c Hc z Hz. simpl in *.
  specialize (Hc z Hz). lia.
Qed.

(** ** Neighbours *)

Lemma collect_neighbors_spec env y x ds acc ns :
  collect_neighbors env y x ds acc = Return ns →
  ∀ q, q ∈ ns ↔ q ∈ acc ∨
       (∃ d, d ∈ ds ∧ q = (y + d.1, x + d.2) ∧ passable_cell env q).
Proof.
  revert acc. induction ds as [|[dy dx] ds IH]; intros acc Hc q; simpl in Hc.
  - simplify_eq. split; [auto|]. intros [?|(d & Hd & _)]; [done|].
    by apply elem_of_nil in Hd.
  - destruct (is_valid env (y + dy, x + dx)) eqn:Hv.
    + destruct (is_passable env (y + dy, x + dx)) as [b|] eqn:Hp; simpl in Hc; [|done].
      rewrite (IH _ Hc q). destruct b.
      * rewrite elem_of_app, list_elem_of_singleton. split.
        -- intros [[?| ->]|(d & Hd & ?)]; [auto| |].
           ++ right. exists (dy, dx). split; [apply elem_of_cons; auto|].
              split; [done|]. by split.
           ++ right. exists d. split; [apply elem_of_cons; auto|]. done.
        -- intros [?|(d & [-> |Hd]%elem_of_cons & -> & Hq)]; [auto|auto|].
           right. exists d. done.
      * split.
        -- intros [?|(d & Hd & ?)]; [auto|].
           right. exists d. split; [apply elem_of_cons; auto|]. done.
        -- intros [?|(d & [-> |Hd]%elem_of_cons & -> & Hq)]; [auto| |].
           ++ destruct Hq as [_ Hq]. simpl in Hq. congruence.
           ++ right. exists d. done.
    + rewrite (IH _ Hc q). split.
      * intros [?|(d & Hd & ?)]; [auto|].
        right. exists d. split; [apply elem_of_cons; auto|]. done.
      * intros [?|(d & [-> |Hd]%elem_of_cons & -> & Hq)]; [auto| |].
        -- destruct Hq as [Hq _]. simpl in Hq. congruence.
        -- right. exists d. done.
Qed.

(** [get_neighbors] returns exactly the passable cells one move away. *)
Lemma get_neighbors_spec env p ns :
  get_neighbors env p = Return ns →
  ∀ q, q ∈ ns ↔ adjacent p q ∧ passable_cell env q.
Proof.
  destruct p as [y x]. unfold get_neighbors. intros Hc q.
  rewrite (collect_neighbors_spec _ _ _ _ _ _ Hc q). unfold adjacent. simpl.
  split.
  - intros [H|(d & Hd & -> & Hq)]; [by apply elem_of_nil in H|].
    split; [exists d; done|done].
  - intros [(d & Hd & ->) Hq]. right. exists d. done.
Qed.

Lemma collect_neighbors_total env y x ds acc :
  rectangular env → ∃ ns, collect_neighbors env y x ds acc = Return ns.
Proof.
  intros Hr. revert acc. induction ds as [|[dy dx] ds IH]; intros acc; simpl.
  - eauto.
  - destruct (is_valid env (y + dy, x + dx)) eqn:Hv; [|apply IH].
    destruct (valid_cell _ _ _ Hr Hv) as (row & c & _ & _ & _ & Hc).
    unfold is_passable. rewrite Hc. simpl. apply IH.
Qed.

(** In a rectangular grid [get_neighbors] never raises. *)
Lemma get_neighbors_total env p :
  rectangular env → ∃ ns, get_neighbors env p = Return ns.
Proof. destruct p. apply collect_neighbors_total. Qed.

Lemma adjacent_cases p q :
  adjacent p q ↔
  q = (p.1, p.2 + 1) ∨ q = (p.1, p.2 - 1) ∨ q = (p.1 + 1, p.2) ∨ q = (p.1 - 1, p.2).
Proof.
  unfold adjacent, directions. split.
  - intros (d & Hd & ->).
    repeat (apply elem_of_cons in Hd as [-> |Hd]); simpl;
      [left|right; left|right; right; left|right; right; right| by apply elem_of_nil in Hd];
      f_equal; lia.
  - intros [-> |[-> |[-> | ->]]];
      [exists (0, 1)|exists (0, -1)|exists (1, 0)|exists (-1, 0)];
      (split; [repeat constructor|simpl; f_equal; lia]).
Qed.

(** ** Marking a cell impassable *)

Lemma update_unregistered env p :
  dynamic_obstacles env !! p = None → update_grid_with_obstacle env p = Return env.
Proof.
  intros H. unfold update_grid_with_obstacle. rewrite H.
  rewrite bool_decide_eq_false_2; [done|]. by intros [? ?].
Qed.

Lemma update_registered env y x :
  rectangular env → is_valid env (y, x) = true →
  is_Some (dynamic_obstacles env !! (y, x)) →
  ∃ row, grid env !! Z.to_nat y = Some row ∧
    update_grid_with_obstacle env (y, x) =
      Return (set_grid env (<[Z.to_nat y := <[Z.to_nat x := Inf]> row]> (grid env))).
Proof.
  intros Hr Hv Hd.
  destruct (valid_cell _ _ _ Hr Hv) as (row & c & Hrow & Hc & Hlen & _).
  apply is_valid_spec in Hv as [Hy Hx]. destruct Hr as [Hh Hw].
  exists row. split; [done|].
  unfold update_grid_with_obstacle. rewrite bool_decide_eq_true_2 by done. simpl.
  assert (getitem (grid env) y = Return row) as -> by (apply getitem_nonneg; [lia|done]).
  simpl. rewrite setitem_in_range by lia. simpl.
  rewrite setitem_in_range by lia. done.
Qed.

Lemma set_grid_rectangular env g :
  rectangular env → length g = length (grid env) →
  Forall (λ row, Z.of_nat (length row) = width env) g →
  rectangular (set_grid env g).
Proof. intros [Hh Hw] Hl Hg. split; simpl; [lia|done]. Qed.

Lemma update_rectangular env p env' :
  rectangular env → is_valid env p = true →
  update_grid_with_obstacle env p = Return env' → rectangular env'.
Proof.
  intros Hr Hv Hu. destruct p as [y x].
  destruct (dynamic_obstacles env !! (y, x)) as [b|] eqn:Hd.
  - destruct (update_registered env y x Hr Hv) as (row & Hrow & Hu'); [by eexists|].
    rewrite Hu' in Hu. simplify_eq. apply set_grid_rectangular; [done|..].
    + by rewrite length_insert.
    + destruct Hr as [_ Hw]. apply Forall_insert; [done|].
      rewrite length_insert. by apply (Forall_lookup_1 _ _ _ _ Hw Hrow).
  - rewrite update_unregistered in Hu by done. by simplify_eq.
Qed.

(** ** The two searches are best-first searches *)

Lemma a_star_expand_bf env goal g path ns fr vis :
  a_star_expand env goal g path ns fr vis =
  bf_expand (λ p, manhattan_distance p goal) env g path ns fr vis.
Proof.
  revert fr vis. induction ns as [|q ns IH]; intros fr vis; simpl; [done|].
  destruct (get_cost env q); simpl; [|done].
  destruct (improves _ _ _); apply IH.
Qed.

Lemma a_star_loop_bf fuel env goal fr vis n :
  a_star_loop fuel env goal fr vis n =
  bf_loop (λ p, manhattan_distance p goal) fuel env goal fr vis n.
Proof.
  revert fr vis n. induction fuel as [|fuel IH]; intros fr vis n; simpl; [done|].
  destruct (heappop astar_leb fr) as [[[[[f g] p] path] fr']|]; [|done].
  destruct (decide (p = goal)); [done|].
  destruct (get_neighbors env p) as [ns|]; [|done].
  rewrite a_star_expand_bf.
  destruct (bf_expand _ _ _ _ _ _ _) as [[fr2 vis2]|]; [|done].
  apply IH.
Qed.

Lemma a_star_search_bf fuel env s goal :
  a_star_search fuel env s goal =
  bf_search (λ p, manhattan_distance p goal) fuel env s goal.
Proof. apply a_star_loop_bf. Qed.

Lemma ucs_leb_as_astar a b :
  astar_leb (ucs_as_astar a) (ucs_as_astar b) = ucs_leb a b.
Proof.
  destruct a as [[c1 p1] l1], b as [[c2 p2] l2].
  unfold astar_leb, ucs_leb. simpl.
  destruct (num_compare c1 c2); done.
Qed.

Lemma heappop_fmap {A B} (f : A → B) (leA : A → A → bool) (leB : B → B → bool)
    (h : list A) :
  (∀ a b, leB (f a) (f b) = leA a b) →
  heappop leB (f <$> h) =
  match heappop leA h with
  | Some (m, rest) => Some (f m, f <$> rest)
  | None => None
  end.
Proof.
  intros Hle. induction h as [|x h IH]; [done|].
  rewrite fmap_cons. cbn [heappop]. rewrite IH.
  destruct (heappop leA h) as [[m rest]|]; simpl; [|done].
  rewrite Hle. destruct (leA x m); done.
Qed.

Lemma ucs_expand_as_astar env c path ns fr vis :
  bf_expand (λ _, 0) env c path ns (ucs_as_astar <$> fr) vis =
  match ucs_expand env c path ns fr vis with
  | Return (fr', vis') => Return (ucs_as_astar <$> fr', vis')
  | IndexError => IndexError
  end.
Proof.
  revert fr vis. induction ns as [|q ns IH]; intros fr vis; simpl; [done|].
  destruct (get_cost env q) as [mc|]; simpl; [|done].
  destruct (improves _ _ _); [|apply IH].
  rewrite num_add_0_r. unfold heappush.
  apply (IH ((num_add c mc, q, path ++ [q]) :: fr)).
Qed.

Lemma ucs_loop_bf fuel env goal fr vis n :
  ucs_loop fuel env goal fr vis n =
  bf_loop (λ _, 0) fuel env goal (ucs_as_astar <$> fr) vis n.
Proof.
  revert fr vis n. induction fuel as [|fuel IH]; intros fr vis n; simpl; [done|].
  rewrite (heappop_fmap ucs_as_astar ucs_leb) by apply ucs_leb_as_astar.
  destruct (heappop ucs_leb fr) as [[[[c p] path] fr']|]; simpl; [|done].
  destruct (decide (p = goal)); [done|].
  destruct (get_neighbors env p) as [ns|]; [|done].
  rewrite ucs_expand_as_astar.
  destruct (ucs_expand _ _ _ _ _ _) as [[fr2 vis2]|]; [|done].
  apply IH.
Qed.

Lemma uniform_cost_search_bf fuel env s goal :
  uniform_cost_search fuel env s goal = bf_search (λ _, 0) fuel env s goal.
Proof. apply ucs_loop_bf. Qed.

(** ** heappop *)

Section HeappopFacts.
Context {A : Type} (leb : A → A → bool).

Lemma heappop_None (h : list A) : heappop leb h = None ↔ h = [].
Proof.
  destruct h as [|x h]; simpl; [done|].
  destruct (heappop leb h) as [[m rest]|]; [destruct (leb x m)|]; done.
Qed.

Lemma heappop_perm (h : list A) m rest :
  heappop leb h = Some (m, rest) → h ≡ₚ m :: rest.
Proof.
  revert m rest. induction h as [|x h IH]; intros m rest; simpl; [done|].
  destruct (heappop leb h) as [[m' rest']|] eqn:E.
  - specialize (IH _ _ eq_refl).
    destruct (leb x m'); intros; simplify_eq; [done|].
    rewrite IH. apply perm_swap.
  - apply heappop_None in E as ->. intros; simplify_eq. done.
Qed.

Lemma heappop_elem_of (h : list A) m rest e :
  heappop leb h = Some (m, rest) → e ∈ h ↔ e = m ∨ e ∈ rest.
Proof.
  intros Hp%heappop_perm. rewrite Hp. apply elem_of_cons.
Qed.

(** The popped entry is least for any key that [leb] refines. *)
Lemma heappop_least (key : A → num) (h : list A) m rest :
  (∀ a b, leb a b = true → num_leb (key a) (key b) = true) →
  (∀ a b, leb a b = false → num_leb (key b) (key a) = true) →
  heappop leb h = Some (m, rest) →
  ∀ e, e ∈ h → num_leb (key m) (key e) = true.
Proof.
  intros Hle Hgt. revert m rest.
  assert (∀ a, num_leb a a = true) as Hrefl.
  { intros [z|]; unfold num_leb; simpl; [by rewrite Z.compare_refl|done]. }
  assert (∀ a b c, num_leb a b = true → num_leb b c = true → num_leb a c = true)
    as Htrans.
  { intros [a|] [b|] [c|]; rewrite ?num_leb_Int; try done; lia. }
  induction h as [|x h IH]; intros m rest; simpl; [done|].
  destruct (heappop leb h) as [[m' rest']|] eqn:E.
  - specialize (IH _ _ eq_refl).
    destruct (leb x m') eqn:Hx; intros ? e [->|He]%elem_of_cons; simplify_eq.
    + apply Hrefl.
    + eapply Htrans; [by apply Hle|]. by apply IH.
    + by apply Hgt.
    + by apply IH.
  - apply heappop_None in E as ->.
    intros ? e [->|He]%elem_of_cons; simplify_eq; [apply Hrefl|].
    by apply elem_of_nil in He.
Qed.
End HeappopFacts.

Lemma astar_leb_key a b :
  astar_leb a b = true → num_leb a.1.1.1 b.1.1.1 = true.
Proof.
  destruct a as [[[f1 g1] p1] l1], b as [[[f2 g2] p2] l2].
  unfold astar_leb, num_leb. simpl. destruct (num_compare f1 f2); done.
Qed.

Lemma num_compare_antisym a b : num_compare b a = CompOpp (num_compare a b).
Proof. destruct a, b; simpl; try done. apply Z.compare_antisym. Qed.

Lemma astar_leb_key_false a b :
  astar_leb a b = false → num_leb b.1.1.1 a.1.1.1 = true.
Proof.
  destruct a as [[[f1 g1] p1] l1], b as [[[f2 g2] p2] l2].
  unfold astar_leb, num_leb. simpl. rewrite (num_compare_antisym f1 f2).
  destruct (num_compare f1 f2); simpl; done.
Qed.

(** The entry [heappop] takes from an A* frontier has the least
    [f_cost] in it. *)
Lemma heappop_astar_least fr m rest e :
  heappop astar_leb fr = Some (m, rest) → e ∈ fr →
  num_leb m.1.1.1 e.1.1.1 = true.
Proof.
  intros Hp He.
  by apply (heappop_least astar_leb (λ e, e.1.1.1) fr m rest
              astar_leb_key astar_leb_key_false).
Qed.

(** ** The loop, one pass at a time *)

Section BfLoop.
Context (h : pos → Z) (env : GridEnvironment) (goal : pos).

(** An invariant of the passes holds where the loop returns. *)
Lemma bf_loop_inv (Inv : list astar_entry * gmap pos num → Prop) :
  (∀ st st', Inv st → bf_step h env goal st st' → Inv st') →
  ∀ fuel fr vis n r,
    Inv (fr, vis) →
    bf_loop h fuel env goal fr vis n = Some (Return r) →
    ∃ fr0 vis0 n0,
      Inv (fr0, vis0) ∧ (n ≤ n0)%nat ∧
      ((fr0 = [] ∧ r = (None, Int (-1), n0)) ∨
       (∃ f g path fr1,
           heappop astar_leb fr0 = Some ((f, g, goal, path), fr1) ∧
           r = (Some path, g, S n0))).
Proof.
  intros Hstep. induction fuel as [|fuel IH]; intros fr vis n r HI; simpl; [done|].
  destruct (heappop astar_leb fr) as [[[[[f g] p] path] fr1]|] eqn:Hpop.
  - destruct (decide (p = goal)) as [->|Hne].
    + intros; simplify_eq. exists fr, vis, n. split; [done|]. split; [lia|].
      right. by exists f, g, path, fr1.
    + destruct (get_neighbors env p) as [ns|] eqn:Hns; [|done].
      destruct (bf_expand h env g path ns fr1 vis) as [[fr2 vis2]|] eqn:Hex; [|done].
      intros Hl. apply IH in Hl as (fr0 & vis0 & n0 & ? & ? & ?).
      * exists fr0, vis0, n0. split; [done|]. split; [lia|done].
      * apply (Hstep (fr, vis)); [done|]. by econstructor.
  - intros; simplify_eq. apply heappop_None in Hpop as ->.
    exists [], vis, n. split; [done|]. split; [lia|]. by left.
Qed.

(** More fuel does not change a result. *)
Lemma bf_loop_fuel_mono fuel fuel' fr vis n r :
  (fuel ≤ fuel')%nat →
  bf_loop h fuel env goal fr vis n = Some r →
  bf_loop h fuel' env goal fr vis n = Some r.
Proof.
  revert fuel' fr vis n. induction fuel as [|fuel IH]; intros fuel' fr vis n Hle;
    simpl; [done|].
  destruct fuel' as [|fuel']; [lia|]. simpl.
  destruct (heappop astar_leb fr) as [[[[[f g] p] path] fr1]|]; [|done].
  destruct (decide (p = goal)); [done|].
  destruct (get_neighbors env p) as [ns|]; [|done].
  destruct (bf_expand h env g path ns fr1 vis) as [[fr2 vis2]|]; [|done].
  apply IH. lia.
Qed.

Lemma bf_loop_step fuel fr vis fr' vis' n :
  bf_step h env goal (fr, vis) (fr', vis') →
  bf_loop h (S fuel) env goal fr vis n = bf_loop h fuel env goal fr' vis' (S n).
Proof.
  inversion 1 as [? ? f g p path fr1 ns st' Hpop Hne Hns Hex]; subst. simpl.
  rewrite Hpop. rewrite decide_False by done. rewrite Hns, Hex. done.
Qed.
End BfLoop.

(** ** The order of the frontier

    [heappop] as modelled takes out the entry Python's [heapq.heappop]
    returns: the entries are totally ordered by tuple comparison, and the
    entry taken out is the least one. *)

Lemma Z_total_cmp : total_cmp Z.compare.
Proof.
  split.
  - apply Z.compare_refl.
  - intros a b. apply Z.compare_eq.
  - intros a b. apply Z.compare_antisym.
  - intros a b c. rewrite !Z.compare_lt_iff. lia.
Qed.

Lemma num_total_cmp : total_cmp num_compare.
Proof.
  split.
  - intros [a|]; simpl; [apply Z.compare_refl|done].
  - intros [a|] [b|]; simpl; try done. by intros ->%Z.compare_eq.
  - apply num_compare_antisym.
  - intros [a|] [b|] [c|]; simpl; try done. rewrite !Z.compare_lt_iff. lia.
Qed.

Lemma lex_total_cmp {A B} (cA : A → A → comparison) (cB : B → B → comparison) :
  total_cmp cA → total_cmp cB → total_cmp (lex_compare cA cB).
Proof.
  intros HA HB. split; unfold lex_compare.
  - intros [a b]. simpl. rewrite (cmp_refl _ HA). apply (cmp_refl _ HB).
  - intros [a b] [a' b']. simpl. destruct (cA a a') eqn:Ea; try done.
    intros Eb. apply (cmp_eq _ HA) in Ea. apply (cmp_eq _ HB) in Eb. by subst.
  - intros [a b] [a' b']. simpl. rewrite (cmp_opp _ HA a a').
    destruct (cA a a'); simpl; [apply (cmp_opp _ HB)|done|done].
  - intros [a1 b1] [a2 b2] [a3 b3]. simpl.
    destruct (cA a1 a2) eqn:E12; try done.
    + apply (cmp_eq _ HA) in E12 as ->.
      destruct (cA a2 a3) eqn:E23; try done. apply (cmp_lt_trans _ HB).
    + intros _. destruct (cA a2 a3) eqn:E23; try done.
      * apply (cmp_eq _ HA) in E23 as <-. by rewrite E12.
      * by rewrite (cmp_lt_trans _ HA _ _ _ E12 E23).
Qed.

Lemma pos_total_cmp : total_cmp pos_compare.
Proof. apply (lex_total_cmp Z.compare Z.compare); apply Z_total_cmp. Qed.

Lemma path_total_cmp : total_cmp path_compare.
Proof.
  pose proof pos_total_cmp as HP. split.
  - intros a. induction a as [|p a IH]; simpl; [done|].
    by rewrite (cmp_refl _ HP).
  - intros a. induction a as [|p a IH]; intros [|q b]; simpl; try done.
    destruct (pos_compare p q) eqn:E; try done.
    intros Hab. apply (cmp_eq _ HP) in E as ->. by rewrite (IH b Hab).
  - intros a. induction a as [|p a IH]; intros [|q b]; simpl; try done.
    rewrite (cmp_opp _ HP p q). destruct (pos_compare p q); simpl; [apply IH|done|done].
  - intros a. induction a as [|p a IH]; intros [|q b] [|r c]; simpl; try done.
    destruct (pos_compare p q) eqn:E12; try done.
    + apply (cmp_eq _ HP) in E12 as ->.
      destruct (pos_compare q r) eqn:E23; try done. apply IH.
    + intros _. destruct (pos_compare q r) eqn:E23; try done.
      * apply (cmp_eq _ HP) in E23 as <-. by rewrite E12.
      * by rewrite (cmp_lt_trans _ HP _ _ _ E12 E23).
Qed.

Lemma ucs_compare_lex a b :
  ucs_compare a b =
  lex_compare (lex_compare num_compare pos_compare) path_compare a b.
Proof.
  destruct a as [[c1 p1] l1], b as [[c2 p2] l2]. unfold lex_compare. simpl.
  destruct (num_compare c1 c2); [|done..]. destruct (pos_compare p1 p2); done.
Qed.

Lemma astar_compare_lex a b :
  astar_compare a b =
  lex_compare (lex_compare (lex_compare num_compare num_compare) pos_compare)
    path_compare a b.
Proof.
  destruct a as [[[f1 g1] p1] l1], b as [[[f2 g2] p2] l2]. unfold lex_compare. simpl.
  destruct (num_compare f1 f2); [|done..].
  destruct (num_compare g1 g2); [|done..]. destruct (pos_compare p1 p2); done.
Qed.

Lemma total_cmp_ext {A} (cmp cmp' : A → A → comparison) :
  (∀ a b, cmp a b = cmp' a b) → total_cmp cmp' → total_cmp cmp.
Proof.
  intros Hext H. split; intros *; rewrite !Hext.
  - apply (cmp_refl _ H).
  - apply (cmp_eq _ H).
  - apply (cmp_opp _ H).
  - apply (cmp_lt_trans _ H).
Qed.

(** Tuple comparison orders the entries of either frontier totally. *)
Lemma ucs_total_cmp : total_cmp ucs_compare.
Proof.
  apply (total_cmp_ext _ _ ucs_compare_lex).
  apply lex_total_cmp; [apply lex_total_cmp|].
  - apply num_total_cmp.
  - apply pos_total_cmp.
  - apply path_total_cmp.
Qed.

Lemma astar_total_cmp : total_cmp astar_compare.
Proof.
  apply (total_cmp_ext _ _ astar_compare_lex).
  apply lex_total_cmp; [apply lex_total_cmp; [apply lex_total_cmp|]|].
  - apply num_total_cmp.
  - apply num_total_cmp.
  - apply pos_total_cmp.
  - apply path_total_cmp.
Qed.

Section HeappopMin.
Context {A : Type} (cmp : A → A → comparison) (Hcmp : total_cmp cmp).

Let leb (a b : A) : bool := match cmp a b with Gt => false | _ => true end.

Lemma cmp_leb_trans a b c : leb a b = true → leb b c = true → leb a c = true.
Proof.
  unfold leb. destruct (cmp a b) eqn:E12; try done; intros _.
  - by apply (cmp_eq _ Hcmp) in E12 as ->.
  - destruct (cmp b c) eqn:E23; try done; intros _.
    + apply (cmp_eq _ Hcmp) in E23 as <-. by rewrite E12.
    + by rewrite (cmp_lt_trans _ Hcmp _ _ _ E12 E23).
Qed.

Lemma cmp_leb_total a b : leb a b = false → leb b a = true.
Proof.
  unfold leb. rewrite (cmp_opp _ Hcmp a b). destruct (cmp a b); done.
Qed.

Lemma cmp_leb_antisym a b : leb a b = true → leb b a = true → a = b.
Proof.
  unfold leb. rewrite (cmp_opp _ Hcmp a b).
  destruct (cmp a b) eqn:E; try done. intros _ _. by apply (cmp_eq _ Hcmp).
Qed.

(** The entry taken out is below every entry of the heap, and it is the
    only entry with that property. *)
Lemma heappop_min (h : list A) m rest :
  heappop leb h = Some (m, rest) →
  (∀ e, e ∈ h → leb m e = true) ∧
  (∀ m', m' ∈ h → (∀ e, e ∈ h → leb m' e = true) → m' = m).
Proof.
  intros Hpop.
  assert (∀ e, e ∈ h → leb m e = true) as Hmin.
  { revert m rest Hpop. induction h as [|x h IH]; intros m rest; simpl; [done|].
    destruct (heappop leb h) as [[m0 rest0]|] eqn:E.
    - specialize (IH _ _ eq_refl).
      destruct (leb x m0) eqn:Hx; intros ? e [->|He]%elem_of_cons; simplify_eq.
      + unfold leb. by rewrite (cmp_refl _ Hcmp).
      + eapply cmp_leb_trans; [exact Hx|]. by apply IH.
      + by apply cmp_leb_total.
      + by apply IH.
    - apply heappop_None in E as ->.
      intros ? e [->|He]%elem_of_cons; simplify_eq.
      + unfold leb. by rewrite (cmp_refl _ Hcmp).
      + by apply elem_of_nil in He. }
  split; [done|]. intros m' Hm' Hmin'.
  apply cmp_leb_antisym; [apply Hmin'|by apply Hmin].
  apply (heappop_elem_of _ _ _ _ _ Hpop). by left.
Qed.
End HeappopMin.

(** What [heappop] takes from the frontier of either search is its least
    entry for Python's tuple order, the one [heapq.heappop] returns. *)
Lemma heappop_ucs_min fr m rest :
  heappop ucs_leb fr = Some (m, rest) →
  fr ≡ₚ m :: rest ∧
  (∀ e, e ∈ fr → ucs_leb m e = true) ∧
  (∀ m', m' ∈ fr → (∀ e, e ∈ fr → ucs_leb m' e = true) → m' = m).
Proof.
  intros Hpop. split; [by eapply heappop_perm|].
  by apply (heappop_min ucs_compare ucs_total_cmp fr m rest).
Qed.

Lemma heappop_astar_min fr m rest :
  heappop astar_leb fr = Some (m, rest) →
  fr ≡ₚ m :: rest ∧
  (∀ e, e ∈ fr → astar_leb m e = true) ∧
  (∀ m', m' ∈ fr → (∀ e, e ∈ fr → astar_leb m' e = true) → m' = m).
Proof.
  intros Hpop. split; [by eapply heappop_perm|].
  by apply (heappop_min astar_compare astar_total_cmp fr m rest).
Qed.

(** ** Routes *)

Lemma num_add_assoc a b c : num_add a (num_add b c) = num_add (num_add a b) c.
Proof. destruct a, b, c; simpl; try done. f_equal. lia. Qed.

Lemma num_add_comm a b : num_add a b = num_add b a.
Proof. destruct a, b; simpl; try done. f_equal. lia. Qed.

Lemma route_nonempty env s g path : route env s g path → ∃ rest, path = s :: rest.
Proof. destruct 1; eauto. Qed.

Lemma route_last env s g path : route env s g path → last path = Some g.
Proof.
  induction 1 as [|p q g path Ha Hq Hr IH]; [done|].
  destruct (route_nonempty _ _ _ _ Hr) as [rest ->]. done.
Qed.

Lemma route_snoc env s p q path :
  route env s p path → adjacent p q → passable_cell env q →
  route env s q (path ++ [q]).
Proof.
  intros Hr Ha Hq. induction Hr as [p|p p' g path Ha' Hp' Hr IH]; simpl.
  - apply route_move with q; [done..|]. constructor.
  - apply route_move with p'; [done..|]. by apply IH.
Qed.

Lemma route_tail_passable env s g path :
  route env s g path → Forall (passable_cell env) (tail path).
Proof.
  induction 1 as [|p q g path Ha Hq Hr IH]; simpl; [constructor|].
  destruct (route_nonempty _ _ _ _ Hr) as [rest ->]. simpl in *.
  by constructor.
Qed.

Lemma route_passable env s g path :
  passable_cell env s → route env s g path → Forall (passable_cell env) path.
Proof.
  intros Hs Hr. destruct (route_nonempty _ _ _ _ Hr) as [rest ->].
  constructor; [done|]. by apply (route_tail_passable _ _ _ _ Hr).
Qed.

Lemma sum_costs_snoc env ps q a c :
  sum_costs env ps = Return a → get_cost env q = Return c →
  sum_costs env (ps ++ [q]) = Return (num_add a c).
Proof.
  revert a. induction ps as [|p ps IH]; intros a; simpl.
  - intros ? Hc; simplify_eq. rewrite Hc. simpl.
    f_equal. destruct c; simpl; [f_equal; lia|done].
  - destruct (get_cost env p) as [cp|]; simpl; [|done].
    destruct (sum_costs env ps) as [b|]; simpl; [|done].
    intros ? Hc; simplify_eq. rewrite (IH b eq_refl Hc). simpl.
    by rewrite num_add_assoc.
Qed.

Lemma path_cost_snoc env s g path q a c :
  route env s g path → path_cost env path = Return a → get_cost env q = Return c →
  path_cost env (path ++ [q]) = Return (num_add a c).
Proof.
  intros [rest ->]%route_nonempty. unfold path_cost. simpl.
  apply sum_costs_snoc.
Qed.

(** The cost of a route is a finite number. *)
Lemma sum_costs_passable env ps :
  Forall (passable_cell env) ps → ∃ z, sum_costs env ps = Return (Int z).
Proof.
  induction 1 as [|p ps Hp _ [z IH]]; simpl; [eauto|].
  destruct (passable_cell_cost _ _ Hp) as [c ->]. simpl. rewrite IH. simpl. eauto.
Qed.

Lemma sum_costs_nonneg env ps z :
  nonneg_costs env → Forall (passable_cell env) ps →
  sum_costs env ps = Return (Int z) → 0 ≤ z.
Proof.
  intros Hnn H. revert z. induction H as [|[y x] ps Hp _ IH]; simpl; intros z.
  - intros; simplify_eq. lia.
  - destruct (passable_cell_cost _ _ Hp) as [c Hc]. rewrite Hc. simpl.
    destruct (sum_costs env ps) as [[b|]|]; simpl; intros; simplify_eq.
    destruct Hp as [[? ?]%is_valid_spec _].
    assert (0 ≤ c) by (apply (nonneg_cost env y x); [done|lia|lia|done]).
    specialize (IH b eq_refl). lia.
Qed.

Lemma route_cost env s g path :
  route env s g path → ∃ z, path_cost env path = Return (Int z).
Proof. intros Hr. apply sum_costs_passable. by eapply route_tail_passable. Qed.

Lemma route_cost_nonneg env s g path z :
  nonneg_costs env → route env s g path → path_cost env path = Return (Int z) → 0 ≤ z.
Proof.
  intros Hnn Hr. apply sum_costs_nonneg; [done|]. by eapply route_tail_passable.
Qed.

(** ** What every frontier entry carries *)

Section EntrySound.
Context (h : pos → Z) (env : GridEnvironment) (s goal : pos).

Lemma bf_expand_frontier (P : astar_entry → Prop) g path ns fr vis fr' vis' :
  (∀ q mc, q ∈ ns → get_cost env q = Return mc →
     P (num_add (num_add g mc) (Int (h q)), num_add g mc, q, path ++ [q])) →
  Forall P fr →
  bf_expand h env g path ns fr vis = Return (fr', vis') →
  Forall P fr'.
Proof.
  revert fr vis. induction ns as [|q ns IH]; intros fr vis Hnew Hfr; simpl.
  - intros; simplify_eq. done.
  - destruct (get_cost env q) as [mc|] eqn:Hc; simpl; [|done].
    assert (∀ q' mc', q' ∈ ns → get_cost env q' = Return mc' →
      P (num_add (num_add g mc') (Int (h q')), num_add g mc', q', path ++ [q']))
      as Hnew'.
    { intros q' mc' Hq'. apply Hnew. by apply elem_of_cons; right. }
    destruct (improves vis q (num_add g mc)).
    + apply IH; [done|]. constructor; [|done].
      apply Hnew; [apply elem_of_cons; by left|done].
    + by apply IH.
Qed.

Lemma entry_sound_step st st' :
  Forall (entry_sound h env s) st.1 → bf_step h env goal st st' →
  Forall (entry_sound h env s) st'.1.
Proof.
  intros Hfr Hstep.
  destruct Hstep as [fr vis f g p path fr1 ns [fr' vis'] Hpop Hne Hns Hex].
  simpl in *.
  assert (entry_sound h env s (f, g, p, path)) as (Hr & Hg & _).
  { eapply (Forall_forall (entry_sound h env s) fr); [done|].
    apply (heappop_elem_of _ _ _ _ _ Hpop). by left. }
  eapply bf_expand_frontier; [| |exact Hex].
  - intros q mc [Ha Hq]%(get_neighbors_spec _ _ _ Hns) Hc. repeat split.
    + by apply route_snoc with p.
    + by eapply path_cost_snoc.
  - apply Forall_forall. intros e He.
    eapply (Forall_forall (entry_sound h env s) fr); [done|].
    apply (heappop_elem_of _ _ _ _ _ Hpop). by right.
Qed.

(** A returned path is a route from start to goal, and the returned
    cost is the cost of that route. *)
Lemma bf_search_sound fuel path c n :
  bf_search h fuel env s goal = Some (Return (Some path, c, n)) →
  route env s goal path ∧ path_cost env path = Return c ∧ (1 ≤ n)%nat.
Proof.
  intros Hs.
  apply (bf_loop_inv h env goal (λ st, Forall (entry_sound h env s) st.1))
    in Hs as (fr0 & vis0 & n0 & Hinv & Hn & Hres).
  - destruct Hres as [[_ ?]|(f & g & path' & fr1 & Hpop & ?)]; simplify_eq.
    assert (entry_sound h env s (f, g, goal, path')) as (Hr & Hg & _).
    { eapply (Forall_forall (entry_sound h env s) fr0); [done|].
      apply (heappop_elem_of _ _ _ _ _ Hpop). by left. }
    split; [done|]. split; [done|lia].
  - intros st st'. apply entry_sound_step.
  - simpl. constructor; [|constructor].
    split; [constructor|]. split; [done|]. simpl. f_equal.
Qed.

(** Without a path the result is [(None, -1, n)]. *)
Lemma bf_search_none fuel c n :
  bf_search h fuel env s goal = Some (Return (None, c, n)) → c = Int (-1).
Proof.
  intros Hs.
  apply (bf_loop_inv h env goal (λ _, True))
    in Hs as (fr0 & vis0 & n0 & _ & _ & Hres); [|done..].
  destruct Hres as [[_ ?]|(f & g & path' & fr1 & Hpop & ?)]; by simplify_eq.
Qed.
End EntrySound.

(** ** The best-cost map only improves *)

Lemma num_ltb_trans a b c :
  num_ltb a b = true → num_ltb b c = true → num_ltb a c = true.
Proof.
  destruct a as [a|], b as [b|], c as [c|]; rewrite ?num_ltb_Int; try done. lia.
Qed.

Lemma visited_decreases_refl vis : visited_decreases vis vis.
Proof. intros p b Hb. exists b. auto. Qed.

Lemma visited_decreases_trans v1 v2 v3 :
  visited_decreases v1 v2 → visited_decreases v2 v3 → visited_decreases v1 v3.
Proof.
  intros H12 H23 p b Hb.
  destruct (H12 p b Hb) as (b2 & Hb2 & Hle2).
  destruct (H23 p b2 Hb2) as (b3 & Hb3 & Hle3).
  exists b3. split; [done|].
  destruct Hle2 as [->|Hlt2]; [done|]. right.
  destruct Hle3 as [->|Hlt3]; [done|]. by eapply num_ltb_trans.
Qed.

Lemma improves_spec vis q new :
  improves vis q new = true ↔
  vis !! q = None ∨ ∃ best, vis !! q = Some best ∧ num_ltb new best = true.
Proof.
  unfold improves. destruct (vis !! q) as [best|]; split.
  - intros H. right. by exists best.
  - intros [?|(b & ? & ?)]; by simplify_eq.
  - by left.
  - done.
Qed.

Lemma visited_decreases_insert vis q new :
  improves vis q new = true → visited_decreases vis (<[q := new]> vis).
Proof.
  intros Hi p b Hb. destruct (decide (p = q)) as [->|Hne].
  - exists new. rewrite lookup_insert_eq. split; [done|]. right.
    apply improves_spec in Hi as [?|(b' & ? & ?)]; by simplify_eq.
  - exists b. rewrite lookup_insert_ne by done. auto.
Qed.

Lemma bf_expand_decreases h env g path ns fr vis fr' vis' :
  bf_expand h env g path ns fr vis = Return (fr', vis') →
  visited_decreases vis vis'.
Proof.
  revert fr vis. induction ns as [|q ns IH]; intros fr vis; simpl.
  - intros; simplify_eq. apply visited_decreases_refl.
  - destruct (get_cost env q) as [mc|]; simpl; [|done].
    destruct (improves vis q (num_add g mc)) eqn:Hi; [|apply IH].
    intros Hex. eapply visited_decreases_trans; [|by eapply IH].
    by apply visited_decreases_insert.
Qed.

Lemma a_star_step_decreases env goal st st' :
  a_star_step env goal st st' → visited_decreases st.2 st'.2.
Proof.
  destruct 1 as [fr vis f g p path fr1 ns [fr' vis'] _ _ _ Hex]. simpl.
  rewrite a_star_expand_bf in Hex. by eapply bf_expand_decreases.
Qed.

Lemma ucs_step_decreases env goal st st' :
  ucs_step env goal st st' → visited_decreases st.2 st'.2.
Proof.
  destruct 1 as [fr vis c p path fr1 ns [fr' vis'] _ _ _ Hex]. simpl.
  pose proof (ucs_expand_as_astar env c path ns fr1 vis) as Hbf.
  rewrite Hex in Hbf. by eapply bf_expand_decreases.
Qed.

(** C8: along any execution of either search a recorded best cost is
    only ever replaced by a strictly lower one; each pass of the loop is
    such a step; and while the neighbours are processed, a neighbour is
    pushed (and its best cost recorded) exactly when [improves] holds,
    that is, when it has no recorded best cost or the new cost is
    strictly lower than the recorded one. *)
Theorem visited_only_improves env goal :
  (∀ st st', rtc (ucs_step env goal) st st' → visited_decreases st.2 st'.2) ∧
  (∀ st st', rtc (a_star_step env goal) st st' → visited_decreases st.2 st'.2) ∧
  (∀ fuel fr vis st' n, ucs_step env goal (fr, vis) st' →
     ucs_loop (S fuel) env goal fr vis n = ucs_loop fuel env goal st'.1 st'.2 (S n)) ∧
  (∀ fuel fr vis st' n, a_star_step env goal (fr, vis) st' →
     a_star_loop (S fuel) env goal fr vis n =
     a_star_loop fuel env goal st'.1 st'.2 (S n)) ∧
  (∀ cost path q rest fr vis move_cost,
     get_cost env q = Return move_cost →
     ucs_expand env cost path (q :: rest) fr vis =
     if improves vis q (num_add cost move_cost) then
       ucs_expand env cost path rest
         ((num_add cost move_cost, q, path ++ [q]) :: fr)
         (<[q := num_add cost move_cost]> vis)
     else ucs_expand env cost path rest fr vis) ∧
  (∀ g_cost path q rest fr vis move_cost,
     get_cost env q = Return move_cost →
     a_star_expand env goal g_cost path (q :: rest) fr vis =
     if improves vis q (num_add g_cost move_cost) then
       a_star_expand env goal g_cost path rest
         ((num_add (num_add g_cost move_cost) (Int (manhattan_distance q goal)),
           num_add g_cost move_cost, q, path ++ [q]) :: fr)
         (<[q := num_add g_cost move_cost]> vis)
     else a_star_expand env goal g_cost path rest fr vis) ∧
  (∀ vis q new,
     improves vis q new = true ↔
     vis !! q = None ∨ ∃ best, vis !! q = Some best ∧ num_ltb new best = true).
Proof.
  repeat apply conj.
  - induction 1 as [|st1 st2 st3 Hstep _ IH]; [apply visited_decreases_refl|].
    eapply visited_decreases_trans; [|exact IH]. by eapply ucs_step_decreases.
  - induction 1 as [|st1 st2 st3 Hstep _ IH]; [apply visited_decreases_refl|].
    eapply visited_decreases_trans; [|exact IH]. by eapply a_star_step_decreases.
  - intros fuel fr vis st' n Hstep.
    inversion Hstep as [? ? c p path fr1 ns [fr' vis'] Hpop Hne Hns Hex]; subst.
    simpl. rewrite Hpop, decide_False by done. by rewrite Hns, Hex.
  - intros fuel fr vis st' n Hstep.
    inversion Hstep as [? ? f g p path fr1 ns [fr' vis'] Hpop Hne Hns Hex]; subst.
    simpl. rewrite Hpop, decide_False by done. by rewrite Hns, Hex.
  - intros cost path q rest fr vis mc Hc. simpl. rewrite Hc. done.
  - intros g path q rest fr vis mc Hc. simpl. rewrite Hc. done.
  - apply improves_spec.
Qed.

(** ** Termination *)

Lemma elem_of_cells env p : p ∈ cells env ↔ is_valid env p = true.
Proof.
  destruct p as [y x]. rewrite is_valid_spec. unfold cells.
  rewrite list_elem_of_bind. split.
  - intros (y' & Hx & Hy). apply list_elem_of_bind in Hx as (x' & Hp & Hx).
    apply list_elem_of_singleton in Hp. simplify_eq.
    apply elem_of_seqZ in Hx, Hy. lia.
  - intros [Hy Hx]. exists y. split; [|apply elem_of_seqZ; lia].
    apply list_elem_of_bind. exists x. split; [by apply list_elem_of_singleton|].
    apply elem_of_seqZ. lia.
Qed.

Lemma sum_list_with_le {A} (f f' : A → nat) (l : list A) :
  (∀ x, x ∈ l → (f' x ≤ f x)%nat) →
  (sum_list_with f' l ≤ sum_list_with f l)%nat.
Proof.
  induction l as [|a l IH]; intros H; simpl; [lia|].
  pose proof (H a ltac:(by left)).
  assert (sum_list_with f' l ≤ sum_list_with f l)%nat; [|lia].
  apply IH. intros x Hx. apply H. by right.
Qed.

Lemma sum_list_with_lt {A} (f f' : A → nat) (l : list A) a :
  (∀ x, x ∈ l → (f' x ≤ f x)%nat) → a ∈ l → (f' a < f a)%nat →
  (sum_list_with f' l < sum_list_with f l)%nat.
Proof.
  induction l as [|b l IH]; intros H Ha Hlt; [by apply elem_of_nil in Ha|].
  simpl. pose proof (H b ltac:(by left)).
  assert (∀ x, x ∈ l → (f' x ≤ f x)%nat) as H' by (intros x Hx; apply H; by right).
  apply elem_of_cons in Ha as [->|Ha].
  - pose proof (sum_list_with_le f f' l H'). lia.
  - pose proof (IH H' Ha Hlt). lia.
Qed.

Lemma sum_list_with_eq {A} (f f' : A → nat) (l : list A) :
  (∀ x, f' x = f x) → sum_list_with f' l = sum_list_with f l.
Proof. intros H. induction l as [|a l IH]; simpl; [done|]. by rewrite H, IH. Qed.

Section Termination.
Context (h : pos → Z) (env : GridEnvironment) (s goal : pos).
Hypothesis Hrect : rectangular env.
Hypothesis Hnn : nonneg_costs env.

Lemma measure_le_trans st1 st2 st3 :
  measure_le env st1 st2 → measure_le env st2 st3 → measure_le env st1 st3.
Proof. unfold measure_le. lia. Qed.

Lemma relax_new_measure fr vis q e z :
  is_valid env q = true → vis !! q = None →
  measure_le env (e :: fr, <[q := Int z]> vis) (fr, vis).
Proof.
  intros Hq Hnone. left. simpl. unfold unvisited.
  apply sum_list_with_lt with q.
  - intros p _. destruct (decide (p = q)) as [->|Hne].
    + rewrite lookup_insert_eq, Hnone. lia.
    + rewrite lookup_insert_ne by done. done.
  - by apply elem_of_cells.
  - rewrite lookup_insert_eq, Hnone. lia.
Qed.

Lemma relax_lower_measure fr vis q e z b :
  is_valid env q = true → vis !! q = Some (Int b) → 0 ≤ z < b →
  measure_le env (e :: fr, <[q := Int z]> vis) (fr, vis).
Proof.
  intros Hq Hb Hz. right. simpl. split.
  - unfold unvisited. apply sum_list_with_eq. intros p.
    destruct (decide (p = q)) as [->|Hne].
    + by rewrite lookup_insert_eq, Hb.
    + by rewrite lookup_insert_ne.
  - assert (weight env (<[q := Int z]> vis) < weight env vis)%nat; [|lia].
    unfold weight. apply sum_list_with_lt with q.
    + intros p _. destruct (decide (p = q)) as [->|Hne].
      * rewrite lookup_insert_eq, Hb. lia.
      * rewrite lookup_insert_ne by done. done.
    + by apply elem_of_cells.
    + rewrite lookup_insert_eq, Hb. lia.
Qed.

(** Processing the neighbours never raises, keeps the best-cost map
    well formed, and does not increase the measure. *)
Lemma bf_expand_total z path ns fr vis :
  0 ≤ z → Forall (passable_cell env) ns → visited_ok env vis →
  ∃ fr' vis',
    bf_expand h env (Int z) path ns fr vis = Return (fr', vis') ∧
    visited_ok env vis' ∧ measure_le env (fr', vis') (fr, vis).
Proof.
  intros Hz Hns. revert fr vis.
  induction Hns as [|[qy qx] ns Hq _ IH]; intros fr vis Hvis; simpl.
  - exists fr, vis. split; [done|]. split; [done|]. right. done.
  - destruct (passable_cell_cost _ _ Hq) as [mc Hc]. rewrite Hc. simpl.
    pose proof Hq as [Hqv _]. pose proof Hqv as [? ?]%is_valid_spec.
    assert (0 ≤ mc) by (apply (nonneg_cost env qy qx); [done|lia|lia|done]).
    destruct (improves vis (qy, qx) (Int (z + mc))) eqn:Himp.
    + set (e := (num_add (Int (z + mc)) (Int (h (qy, qx))), Int (z + mc),
                 (qy, qx), path ++ [(qy, qx)])).
      assert (visited_ok env (<[(qy, qx) := Int (z + mc)]> vis)) as Hvis'.
      { intros p v. destruct (decide (p = (qy, qx))) as [->|Hne].
        - rewrite lookup_insert_eq. intros; simplify_eq.
          split; [done|]. exists (z + mc). split; [done|lia].
        - rewrite lookup_insert_ne by done. apply Hvis. }
      destruct (IH (heappush fr e) _ Hvis') as (fr' & vis' & Hex & Hok & Hm).
      exists fr', vis'. split; [done|]. split; [done|].
      eapply measure_le_trans; [exact Hm|]. unfold heappush.
      unfold improves in Himp.
      destruct (vis !! (qy, qx)) as [best|] eqn:Hbest.
      * destruct (Hvis _ _ Hbest) as (_ & b & -> & Hb).
        apply num_ltb_Int in Himp.
        apply relax_lower_measure with b; [done|done|lia].
      * by apply relax_new_measure.
    + apply IH. done.
Qed.

Lemma entry_cost_nonneg f g p path :
  entry_sound h env s (f, g, p, path) → ∃ z, g = Int z ∧ 0 ≤ z.
Proof.
  intros (Hr & Hg & _). destruct (route_cost _ _ _ _ Hr) as [z Hz].
  exists z. split; [congruence|]. by eapply route_cost_nonneg.
Qed.

(** A pass that does not return exists whenever a non-goal entry is
    popped, and it lowers the measure strictly. *)
Lemma bf_step_total fr vis f g p path fr1 :
  loop_ok h env s (fr, vis) →
  heappop astar_leb fr = Some ((f, g, p, path), fr1) → p ≠ goal →
  ∃ st', bf_step h env goal (fr, vis) st' ∧ loop_ok h env s st' ∧
    ((unvisited env st'.2 < unvisited env vis)%nat ∨
     (unvisited env st'.2 = unvisited env vis ∧
      (2 * weight env st'.2 + length st'.1 < 2 * weight env vis + length fr)%nat)).
Proof.
  intros [Hfr Hvis] Hpop Hne. simpl in *.
  assert (entry_sound h env s (f, g, p, path)) as He.
  { eapply (Forall_forall (entry_sound h env s) fr); [done|].
    apply (heappop_elem_of _ _ _ _ _ Hpop). by left. }
  destruct (entry_cost_nonneg _ _ _ _ He) as (z & -> & Hz).
  destruct (get_neighbors_total env p Hrect) as [ns Hns].
  assert (Forall (passable_cell env) ns) as Hpass.
  { apply Forall_forall. intros q Hq.
    by apply (get_neighbors_spec _ _ _ Hns) in Hq as [_ ?]. }
  destruct (bf_expand_total z path ns fr1 vis Hz Hpass Hvis)
    as (fr' & vis' & Hex & Hok & Hm).
  exists (fr', vis'). split; [by econstructor|]. split.
  - split; [|done].
    apply (entry_sound_step h env s goal (fr, vis)); [done|by econstructor].
  - pose proof (heappop_perm _ _ _ _ Hpop) as Hperm.
    apply Permutation_length in Hperm. simpl in Hperm.
    unfold measure_le in Hm. simpl in *. lia.
Qed.

Lemma bf_loop_terminates_aux u :
  ∀ m fr vis n,
    loop_ok h env s (fr, vis) → unvisited env vis = u →
    (2 * weight env vis + length fr)%nat = m →
    ∃ fuel r, bf_loop h fuel env goal fr vis n = Some (Return r).
Proof.
  induction u as [u IHu] using lt_wf_ind.
  induction m as [m IHm] using lt_wf_ind.
  intros fr vis n Hok Hu Hm.
  destruct (heappop astar_leb fr) as [[[[[f g] p] path] fr1]|] eqn:Hpop.
  - destruct (decide (p = goal)) as [->|Hne].
    + exists 1%nat, (Some path, g, S n). simpl. rewrite Hpop.
      by rewrite decide_True.
    + destruct (bf_step_total fr vis f g p path fr1 Hok Hpop Hne)
        as ([fr' vis'] & Hstep & Hok' & Hdec). simpl in Hdec.
      assert (∃ fuel r, bf_loop h fuel env goal fr' vis' (S n) = Some (Return r))
        as (fuel & r & Hl).
      { destruct Hdec as [Hlt|[Heq Hlt]].
        - eapply (IHu (unvisited env vis')); [lia|done..].
        - eapply (IHm (2 * weight env vis' + length fr')%nat); [lia|done|lia|done]. }
      exists (S fuel), r. by rewrite (bf_loop_step h env goal fuel fr vis fr' vis').
  - exists 1%nat, (None, Int (-1), n). simpl. by rewrite Hpop.
Qed.

Lemma initial_loop_ok :
  is_valid env s = true →
  loop_ok h env s ([(Int (0 + h s), Int 0, s, [s])], {[s := Int 0]}).
Proof.
  intros Hs. split; simpl.
  - constructor; [|constructor]. split; [constructor|]. split; [done|].
    simpl. done.
  - intros p v [-> <-]%lookup_singleton_Some. split; [done|]. by exists 0.
Qed.

(** From an in-bounds start the search returns, given enough fuel. *)
Lemma bf_search_terminates :
  is_valid env s = true →
  ∃ fuel r, bf_search h fuel env s goal = Some (Return r).
Proof.
  intros Hs. eapply bf_loop_terminates_aux; [|done..].
  by apply initial_loop_ok.
Qed.
End Termination.

(** ** Optimality *)

Lemma path_cost_move env p q g path c :
  route env q g path → passable_cell env q →
  path_cost env (p :: path) = Return (Int c) →
  ∃ cq c', get_cost env q = Return (Int cq) ∧
           path_cost env path = Return (Int c') ∧ c = cq + c'.
Proof.
  intros Hr Hq. destruct (route_nonempty _ _ _ _ Hr) as [rest ->].
  unfold path_cost. simpl.
  destruct (passable_cell_cost _ _ Hq) as [cq ->]. simpl.
  destruct (sum_costs env rest) as [[c'|]|]; simpl; intros; simplify_eq.
  by exists cq, c'.
Qed.

Lemma manhattan_adjacent p q goal :
  adjacent p q → manhattan_distance p goal ≤ manhattan_distance q goal + 1.
Proof.
  intros Ha%adjacent_cases. unfold manhattan_distance.
  destruct p as [py px], goal as [gy gx]. simpl in *.
  destruct Ha as [-> | [-> | [-> | ->]]]; simpl; lia.
Qed.

(** With every cost at least 1 the Manhattan distance is admissible. *)
Lemma manhattan_admissible env goal :
  costs_ge1 env → admissible (λ p, manhattan_distance p goal) env goal.
Proof.
  intros Hge p path c Hr. revert c.
  induction Hr as [p|p q g path Ha Hq Hr IH]; intros c Hc.
  - unfold path_cost in Hc. simpl in Hc. simplify_eq.
    unfold manhattan_distance. lia.
  - destruct (path_cost_move _ _ _ _ _ _ Hr Hq Hc) as (cq & c' & Hcq & Hc' & ->).
    specialize (IH c' Hc'). pose proof (manhattan_adjacent p q g Ha).
    destruct q as [qy qx]. destruct Hq as [[? ?]%is_valid_spec _].
    assert (1 ≤ cq) by (apply (ge1_cost env qy qx); [done|lia|lia|done]).
    lia.
Qed.

(** With no negative cost the zero heuristic is admissible. *)
Lemma zero_admissible env goal : nonneg_costs env → admissible (λ _, 0) env goal.
Proof. intros Hnn p path c Hr Hc. by eapply route_cost_nonneg. Qed.

Section Optimality.
Context (h : pos → Z) (env : GridEnvironment) (s goal : pos).
Hypothesis Hrect : rectangular env.
Hypothesis Hnn : nonneg_costs env.
Hypothesis Hadm : admissible h env goal.
Hypothesis Hgoal : 0 ≤ h goal.

(** What processing the neighbours [ns] at cost [z] leaves behind. *)
Lemma bf_expand_relaxes z path ns fr vis fr' vis' :
  0 ≤ z → Forall (passable_cell env) ns → visited_ok env vis →
  bf_expand h env (Int z) path ns fr vis = Return (fr', vis') →
  visited_ok env vis' ∧
  (∀ e, e ∈ fr → e ∈ fr') ∧
  (∀ q, q ∈ ns → ∃ c w, get_cost env q = Return (Int c) ∧
                        vis' !! q = Some (Int w) ∧ w ≤ z + c) ∧
  (∀ p v, vis' !! p = Some (Int v) →
          vis !! p = Some (Int v) ∨ ∃ f path', (f, Int v, p, path') ∈ fr').
Proof.
  intros Hz Hns. revert fr vis.
  induction Hns as [|[qy qx] ns Hq _ IH]; intros fr vis Hvis; simpl.
  - intros; simplify_eq. split; [done|]. split; [done|]. split; [|auto].
    intros q Hq. by apply elem_of_nil in Hq.
  - destruct (passable_cell_cost _ _ Hq) as [mc Hc]. rewrite Hc. simpl.
    pose proof Hq as [Hqv _]. pose proof Hqv as [? ?]%is_valid_spec.
    assert (0 ≤ mc) by (apply (nonneg_cost env qy qx); [done|lia|lia|done]).
    destruct (improves vis (qy, qx) (Int (z + mc))) eqn:Himp.
    + intros Hex.
      assert (visited_ok env (<[(qy, qx) := Int (z + mc)]> vis)) as Hvis'.
      { intros p v. destruct (decide (p = (qy, qx))) as [->|Hne].
        - rewrite lookup_insert_eq. intros; simplify_eq.
          split; [done|]. exists (z + mc). split; [done|lia].
        - rewrite lookup_insert_ne by done. apply Hvis. }
      pose proof (bf_expand_decreases _ _ _ _ _ _ _ _ _ Hex) as Hdec.
      destruct (IH _ _ Hvis' Hex) as (Hok & Hsub & Hrel & Hnew).
      split; [done|]. split; [|split].
      * intros e He. apply Hsub. by right.
      * intros q [->|Hin]%elem_of_cons; [|by apply Hrel].
        destruct (Hdec (qy, qx) (Int (z + mc))) as (b' & Hb' & Hle);
          [by rewrite lookup_insert_eq|].
        destruct (Hok _ _ Hb') as (_ & w & -> & _).
        exists mc, w. split; [done|]. split; [done|].
        destruct Hle as [?|Hlt%num_ltb_Int]; [simplify_eq|]; lia.
      * intros p v Hp. destruct (Hnew p v Hp) as [Hold|?]; [|by right].
        destruct (decide (p = (qy, qx))) as [->|Hne].
        -- rewrite lookup_insert_eq in Hold. simplify_eq. right.
           eexists _, _. apply Hsub. by left.
        -- rewrite lookup_insert_ne in Hold by done. by left.
    + intros Hex.
      pose proof (bf_expand_decreases _ _ _ _ _ _ _ _ _ Hex) as Hdec.
      destruct (IH _ _ Hvis Hex) as (Hok & Hsub & Hrel & Hnew).
      split; [done|]. split; [done|]. split; [|done].
      intros q [->|Hin]%elem_of_cons; [|by apply Hrel].
      unfold improves in Himp.
      destruct (vis !! (qy, qx)) as [best|] eqn:Hbest; [|done].
      destruct (Hvis _ _ Hbest) as (_ & b & -> & Hb).
      destruct (Hdec _ _ Hbest) as (b' & Hb' & Hle).
      destruct (Hok _ _ Hb') as (_ & w & -> & _).
      exists mc, w. split; [done|]. split; [done|].
      assert (¬ z + mc < b) by (rewrite <- num_ltb_Int; by rewrite Himp).
      destruct Hle as [?|Hlt%num_ltb_Int]; [simplify_eq|]; lia.
Qed.

Lemma search_inv_step st st' :
  search_inv h env s goal st → bf_step h env goal st st' →
  search_inv h env s goal st'.
Proof.
  intros (Hok & (v0 & Hs & Hv0) & Hinv) Hstep.
  pose proof Hstep as Hstep'.
  destruct Hstep as [fr vis f g p path fr1 ns [fr' vis'] Hpop Hne Hns Hex].
  simpl in *. destruct Hok as [Hfr Hvis]. simpl in *.
  assert (entry_sound h env s (f, g, p, path)) as He.
  { eapply (Forall_forall (entry_sound h env s) fr); [done|].
    apply (heappop_elem_of _ _ _ _ _ Hpop). by left. }
  destruct (entry_cost_nonneg h env s Hnn _ _ _ _ He) as (z & -> & Hz).
  assert (Forall (passable_cell env) ns) as Hpass.
  { apply Forall_forall. intros q Hq.
    by apply (get_neighbors_spec _ _ _ Hns) in Hq as [_ ?]. }
  destruct (bf_expand_relaxes z path ns fr1 vis fr' vis' Hz Hpass Hvis Hex)
    as (Hok' & Hsub & Hrel & Hnew).
  pose proof (bf_expand_decreases _ _ _ _ _ _ _ _ _ Hex) as Hdec.
  assert (∀ q w, vis !! q = Some (Int w) →
            ∃ w', vis' !! q = Some (Int w') ∧ w' ≤ w) as Hlower.
  { intros q w Hq. destruct (Hdec _ _ Hq) as (b' & Hb' & Hle).
    destruct (Hok' _ _ Hb') as (_ & w' & -> & _). exists w'. split; [done|].
    destruct Hle as [?|Hlt%num_ltb_Int]; [simplify_eq|]; lia. }
  split; [|split].
  - split; simpl; [|done].
    by apply (entry_sound_step h env s goal (fr, vis) (fr', vis')).
  - simpl. destruct (Hlower _ _ Hs) as (w' & ? & ?). exists w'. split; [done|lia].
  - simpl. intros p' v' Hp'.
    destruct (Hnew p' v' Hp') as [Hold|?]; [|by left].
    destruct (Hinv p' v' Hold) as [(f0 & path0 & Hin)|[Hng Hcl]].
    + apply (heappop_elem_of _ _ _ _ _ Hpop) in Hin as [Heq|Hin].
      * simplify_eq. right. split; [done|].
        intros q Ha Hq. apply Hrel. apply (get_neighbors_spec _ _ _ Hns). done.
      * left. exists f0, path0. by apply Hsub.
    + right. split; [done|]. intros q Ha Hq.
      destruct (Hcl q Ha Hq) as (c & w & Hc & Hw & Hle).
      destruct (Hlower _ _ Hw) as (w' & ? & ?).
      exists c, w'. split; [done|]. split; [done|lia].
Qed.

(** Along any route to the goal from a recorded position, some frontier
    entry has a priority no larger than the recorded cost plus the cost
    of the route. *)
Lemma frontier_below_route st p path :
  search_inv h env s goal st → route env p goal path →
  ∀ v c, st.2 !! p = Some (Int v) → path_cost env path = Return (Int c) →
  ∃ e, e ∈ st.1 ∧ num_leb e.1.1.1 (Int (v + c)) = true.
Proof.
  intros (Hok & _ & Hinv) Hr. destruct Hok as [Hfr _].
  assert (∀ f v' p' path', (f, Int v', p', path') ∈ st.1 →
            f = Int (v' + h p')) as Hf.
  { intros f v' p' path' Hin.
    apply (proj1 (Forall_forall (entry_sound h env s) st.1) Hfr) in Hin
      as (Hr' & Hg' & ->).
    done. }
  induction Hr as [p|p q g path Ha Hq Hr IH]; intros v c Hv Hc.
  - destruct (Hinv _ _ Hv) as [(f & path' & Hin)|[? _]]; [|done].
    exists (f, Int v, p, path'). split; [done|]. simpl.
    rewrite (Hf _ _ _ _ Hin). apply num_leb_Int.
    pose proof (Hadm p [p] c (route_end env p) Hc). lia.
  - destruct (Hinv _ _ Hv) as [(f & path' & Hin)|[_ Hcl]].
    + exists (f, Int v, p, path'). split; [done|]. simpl.
      rewrite (Hf _ _ _ _ Hin). apply num_leb_Int.
      pose proof (Hadm p (p :: path) c (route_move env p q g path Ha Hq Hr) Hc).
      lia.
    + destruct (path_cost_move _ _ _ _ _ _ Hr Hq Hc) as (cq & c' & Hcq & Hc' & ->).
      destruct (Hcl q Ha Hq) as (cq' & w & Hcq' & Hw & Hle).
      assert (cq' = cq) as -> by congruence.
      destruct (IH Hadm Hgoal Hinv w c' Hw Hc') as (e & He & Hle').
      exists e. split; [done|].
      destruct (e.1.1.1) as [fe|]; [|done].
      apply num_leb_Int in Hle'. apply num_leb_Int. lia.
Qed.

Lemma initial_search_inv :
  is_valid env s = true →
  search_inv h env s goal ([(Int (0 + h s), Int 0, s, [s])], {[s := Int 0]}).
Proof.
  intros Hs. split; [by apply initial_loop_ok|]. split; simpl.
  - exists 0. by rewrite lookup_singleton_eq.
  - intros p v [-> ?]%lookup_singleton_Some. simplify_eq. left.
    eexists _, _. by left.
Qed.

(** When a route to the goal exists, the search does not fail, and the
    cost it returns is no larger than the cost of any route. *)
Lemma bf_search_optimal fuel r path c :
  is_valid env s = true →
  route env s goal path → path_cost env path = Return (Int c) →
  bf_search h fuel env s goal = Some (Return r) →
  ∃ path' g n, r = (Some path', Int g, n) ∧ g ≤ c.
Proof.
  intros Hs Hr Hc Hsearch.
  apply (bf_loop_inv h env goal (search_inv h env s goal))
    in Hsearch as (fr0 & vis0 & n0 & Hinv & _ & Hres);
    [|apply search_inv_step|by apply initial_search_inv].
  pose proof Hinv as (Hok & (v0 & Hv0 & Hle0) & _).
  destruct (frontier_below_route (fr0, vis0) s path Hinv Hr v0 c Hv0 Hc)
    as (e & He & Hle). simpl in He.
  destruct Hres as [[-> _] | (f & g & path' & fr1 & Hpop & ->)].
  - by apply elem_of_nil in He.
  - pose proof (heappop_astar_least _ _ _ _ Hpop He) as Hmin. simpl in Hmin.
    assert (entry_sound h env s (f, g, goal, path')) as Hes.
    { eapply (Forall_forall (entry_sound h env s) fr0); [apply Hok|].
      apply (heappop_elem_of _ _ _ _ _ Hpop). by left. }
    destruct (entry_cost_nonneg h env s Hnn _ _ _ _ Hes) as (z & -> & Hz).
    destruct Hes as (_ & _ & ->).
    exists path', z, (S n0). split; [done|].
    destruct (e.1.1.1) as [fe|]; [|done]. simpl in Hmin.
    apply num_leb_Int in Hmin, Hle. lia.
Qed.
End Optimality.

(** ** The searches return *)

Lemma bf_loop_nodes h env goal fuel fr vis n x c n' :
  bf_loop h fuel env goal fr vis n = Some (Return (x, c, n')) → (n ≤ n')%nat.
Proof.
  intros Hl.
  apply (bf_loop_inv h env goal (λ _, True)) in Hl
    as (fr0 & vis0 & n0 & _ & Hn & Hres); [|done..].
  destruct Hres as [[_ ?]|(f & g & path' & fr1 & _ & ?)]; simplify_eq; lia.
Qed.

(** A search that returns has expanded at least the start. *)
Lemma bf_search_nodes h env s goal fuel x c n :
  bf_search h fuel env s goal = Some (Return (x, c, n)) → (1 ≤ n)%nat.
Proof.
  unfold bf_search. destruct fuel as [|fuel]; simpl; [done|].
  destruct (decide (s = goal)); [intros; simplify_eq; lia|].
  destruct (get_neighbors env s) as [ns|]; [|done].
  destruct (bf_expand _ _ _ _ _ _ _) as [[fr vis]|]; [|done].
  apply bf_loop_nodes.
Qed.

Section Results.
Context (h : pos → Z) (env : GridEnvironment) (s goal : pos).
Hypothesis Hrect : rectangular env.
Hypothesis Hnn : nonneg_costs env.
Hypothesis Hs : is_valid env s = true.

(** Without a route the search returns [(None, -1, n)], [n >= 1]. *)
Lemma bf_search_no_route :
  (∀ path, ¬ route env s goal path) →
  ∃ n fuel0, (1 ≤ n)%nat ∧
    ∀ fuel, (fuel0 ≤ fuel)%nat →
      bf_search h fuel env s goal = Some (Return (None, Int (-1), n)).
Proof.
  intros Hno.
  destruct (bf_search_terminates h env s goal Hrect Hnn Hs)
    as (fuel0 & [[[path|] c] n] & Hsearch).
  - apply bf_search_sound in Hsearch as (Hr & _). by apply Hno in Hr.
  - pose proof (bf_search_none _ _ _ _ _ _ _ Hsearch) as ->.
    exists n, fuel0. split; [by eapply bf_search_nodes|].
    intros fuel Hle. by apply (bf_loop_fuel_mono h env goal fuel0 fuel).
Qed.

(** With a route, and an admissible heuristic, the search returns a
    route of least cost. *)
Lemma bf_search_least :
  admissible h env goal → 0 ≤ h goal →
  (∃ path, route env s goal path) →
  ∃ best path n fuel0,
    route env s goal path ∧ path_cost env path = Return (Int best) ∧
    (∀ path' c, route env s goal path' → path_cost env path' = Return (Int c) →
                best ≤ c) ∧
    ∀ fuel, (fuel0 ≤ fuel)%nat →
      bf_search h fuel env s goal = Some (Return (Some path, Int best, n)).
Proof.
  intros Hadm Hgoal [path0 Hr0].
  destruct (bf_search_terminates h env s goal Hrect Hnn Hs) as (fuel0 & r & Hsearch).
  destruct (route_cost _ _ _ _ Hr0) as [c0 Hc0].
  destruct (bf_search_optimal h env s goal Hnn Hadm Hgoal fuel0 r path0 c0
              Hs Hr0 Hc0 Hsearch) as (path & best & n & -> & _).
  pose proof (bf_search_sound _ _ _ _ _ _ _ _ Hsearch) as (Hr & Hc & _).
  exists best, path, n, fuel0. split; [done|]. split; [done|]. split.
  - intros path' c Hr' Hc'.
    destruct (bf_search_optimal h env s goal Hnn Hadm Hgoal fuel0 _ path' c
                Hs Hr' Hc' Hsearch) as (? & ? & ? & ? & ?).
    by simplify_eq.
  - intros fuel Hle. by apply (bf_loop_fuel_mono h env goal fuel0 fuel).
Qed.
End Results.

(** C5: in a well-formed environment (a rectangular grid without
    negative costs), with start and goal in bounds and passable, if no
    route leads from start to goal then [uniform_cost_search] and
    [a_star_search] each return the value [(None, -1, nodes_expanded)]
    with [nodes_expanded >= 1], for every sufficient number of
    iterations; nothing is raised. *)
Theorem search_without_route env s g :
  wf_env env →
  is_valid env s = true → is_passable env s = Return true →
  is_valid env g = true → is_passable env g = Return true →
  (∀ path, ¬ route env s g path) →
  (∃ n fuel0, (1 ≤ n)%nat ∧
     ∀ fuel, (fuel0 ≤ fuel)%nat →
       uniform_cost_search fuel env s g = Some (Return (None, Int (-1), n))) ∧
  (∃ n fuel0, (1 ≤ n)%nat ∧
     ∀ fuel, (fuel0 ≤ fuel)%nat →
       a_star_search fuel env s g = Some (Return (None, Int (-1), n))).
Proof.
  intros [Hrect Hnn] Hs _ _ _ Hno. split.
  - destruct (bf_search_no_route (λ _, 0) env s g Hrect Hnn Hs Hno)
      as (n & fuel0 & Hn & Hres).
    exists n, fuel0. split; [done|]. intros fuel Hle.
    rewrite uniform_cost_search_bf. by apply Hres.
  - destruct (bf_search_no_route (λ p, manhattan_distance p g) env s g
                Hrect Hnn Hs Hno) as (n & fuel0 & Hn & Hres).
    exists n, fuel0. split; [done|]. intros fuel Hle.
    rewrite a_star_search_bf. by apply Hres.
Qed.

(** C1: in a rectangular grid whose finite costs are all at least 1,
    with start and goal in bounds and passable, if some route leads from
    start to goal then there is a cost [best] that no route undercuts,
    [a_star_search] returns a route of cost [best], and
    [uniform_cost_search] returns a route of that same cost [best]. *)
Theorem search_returns_least_cost env s g :
  rectangular env → costs_ge1 env →
  is_valid env s = true → is_passable env s = Return true →
  is_valid env g = true → is_passable env g = Return true →
  (∃ path, route env s g path) →
  ∃ best : Z,
    (∀ path c, route env s g path → path_cost env path = Return c →
               num_leb (Int best) c = true) ∧
    (∃ path n fuel0,
       route env s g path ∧ path_cost env path = Return (Int best) ∧
       ∀ fuel, (fuel0 ≤ fuel)%nat →
         a_star_search fuel env s g = Some (Return (Some path, Int best, n))) ∧
    (∃ path n fuel0,
       route env s g path ∧ path_cost env path = Return (Int best) ∧
       ∀ fuel, (fuel0 ≤ fuel)%nat →
         uniform_cost_search fuel env s g = Some (Return (Some path, Int best, n))).
Proof.
  intros Hrect Hge Hs _ _ _ Hex.
  pose proof (costs_ge1_nonneg env Hge) as Hnn.
  destruct (bf_search_least (λ p, manhattan_distance p g) env s g Hrect Hnn Hs)
    as (best & pa & na & fa & Hra & Hca & Hmin & Hres);
    [by apply manhattan_admissible|unfold manhattan_distance; lia|done|].
  destruct (bf_search_least (λ _, 0) env s g Hrect Hnn Hs)
    as (bu & pu & nu & fu & Hru & Hcu & Hminu & Hresu);
    [by apply zero_admissible|lia|done|].
  assert (bu = best) as ->.
  { pose proof (Hmin _ _ Hru Hcu). pose proof (Hminu _ _ Hra Hca). lia. }
  exists best. split; [|split].
  - intros path c Hr Hc. destruct (route_cost _ _ _ _ Hr) as [z Hz].
    rewrite Hz in Hc. simplify_eq. apply num_leb_Int. by eapply Hmin.
  - exists pa, na, fa. split; [done|]. split; [done|].
    intros fuel Hle. rewrite a_star_search_bf. by apply Hres.
  - exists pu, nu, fu. split; [done|]. split; [done|].
    intros fuel Hle. rewrite uniform_cost_search_bf. by apply Hresu.
Qed.

(** C9, as stated, fails: on a cell that is in bounds but not in
    [dynamic_obstacles] the call changes nothing, and the cell stays
    passable. *)
Lemma update_grid_with_obstacle_unregistered_stays_passable :
  ¬ (∀ env p env',
       rectangular env → is_valid env p = true →
       update_grid_with_obstacle env p = Return env' →
       is_passable env' p = Return false).
Proof.
  intros H.
  specialize (H env_1x1 (0, 0) env_1x1).
  assert (rectangular env_1x1) as Hr by (split; [done|repeat constructor]).
  specialize (H Hr eq_refl eq_refl). vm_compute in H. discriminate H.
Qed.

(** C9 (amended): for an in-bounds position [p] of a rectangular grid,
    [update_grid_with_obstacle p] returns normally; if [p] is registered in
    [dynamic_obstacles] the cost of [p] becomes the impassable sentinel and
    [is_passable p] is false, and if [p] is not registered the environment
    is unchanged; in both cases a second call changes nothing more, and the
    cost of every other in-bounds cell, the bounds and the registry are
    left as they were. *)
Theorem update_grid_with_obstacle_marks_registered env p :
  rectangular env → is_valid env p = true →
  ∃ env',
    update_grid_with_obstacle env p = Return env' ∧
    (is_Some (dynamic_obstacles env !! p) →
       get_cost env' p = Return Inf ∧ is_passable env' p = Return false) ∧
    (dynamic_obstacles env !! p = None → env' = env) ∧
    update_grid_with_obstacle env' p = Return env' ∧
    (∀ q, is_valid env q = true → q ≠ p → get_cost env' q = get_cost env q) ∧
    height env' = height env ∧ width env' = width env ∧
    dynamic_obstacles env' = dynamic_obstacles env.
Proof.
  intros Hr Hv. destruct p as [y x].
  destruct (dynamic_obstacles env !! (y, x)) as [b|] eqn:Hd.
  - destruct (update_registered env y x Hr Hv) as (row & Hrow & Hu); [by eexists|].
    destruct (valid_cell _ _ _ Hr Hv) as (row' & c & Hrow' & Hc & Hlen & _).
    assert (row' = row) as -> by congruence.
    pose proof Hv as [Hy Hx]%is_valid_spec.
    pose proof (lookup_lt_Some _ _ _ Hrow) as Hylt.
    pose proof (lookup_lt_Some _ _ _ Hc) as Hxlt.
    set (row2 := <[Z.to_nat x := Inf]> row) in *.
    set (env' := set_grid env (<[Z.to_nat y := row2]> (grid env))) in *.
    assert (get_cost env' (y, x) = Return Inf) as Hcost.
    { apply get_cost_lookup; [lia..|]. exists row2. simpl.
      split; [by apply list_lookup_insert_eq|].
      by apply list_lookup_insert_eq. }
    exists env'. split; [done|]. split; [|split; [done|split; [|split]]].
    + intros _. split; [done|]. unfold is_passable. rewrite Hcost. done.
    + assert (rectangular env') as Hr'.
      { apply (update_rectangular env (y, x)); done. }
      destruct (update_registered env' y x Hr') as (r3 & Hr3 & Hu3); [done|by eexists|].
      rewrite Hu3. simpl in Hr3.
      rewrite list_lookup_insert_eq in Hr3 by done. simplify_eq.
      unfold set_grid. simpl. by rewrite !list_insert_insert_eq.
    + intros [y' x'] [Hy' Hx']%is_valid_spec Hne.
      destruct (get_cost env (y', x')) as [c'|] eqn:Hq.
      * apply get_cost_lookup in Hq as (rq & Hrq & Hcq); [|lia..].
        apply get_cost_lookup; [lia..|]. simpl.
        destruct (decide (y' = y)) as [->|Hny].
        -- exists row2. split; [by apply list_lookup_insert_eq|].
           assert (rq = row) as -> by congruence.
           unfold row2. rewrite list_lookup_insert_ne; [done|].
           intros Heq. apply Hne. f_equal. lia.
        -- exists rq. split; [|done].
           rewrite list_lookup_insert_ne; [done|]. lia.
      * destruct (get_cost env' (y', x')) as [c'|] eqn:Hq'; [|done].
        apply get_cost_lookup in Hq' as (rq & Hrq & Hcq); [|lia..].
        simpl in Hrq. exfalso.
        assert (∃ c0, get_cost env (y', x') = Return c0) as [c0 Hc0]; [|congruence].
        destruct (valid_cell env y' x' Hr) as (? & c0 & _ & _ & _ & ?); [|by eexists].
        by apply is_valid_spec.
    + done.
  - exists env. rewrite update_unregistered by done.
    split; [done|]. split; [by intros [? ?]|]. done.
Qed.

(** C9 (amended) at the registered cell of a two-cell grid. *)
Lemma update_grid_with_obstacle_marks_registered_witness :
  ∃ env',
    update_grid_with_obstacle env_1x2_reg (0, 1) = Return env' ∧
    (is_Some (dynamic_obstacles env_1x2_reg !! (0, 1)) →
       get_cost env' (0, 1) = Return Inf ∧ is_passable env' (0, 1) = Return false) ∧
    (dynamic_obstacles env_1x2_reg !! (0, 1) = None → env' = env_1x2_reg) ∧
    update_grid_with_obstacle env' (0, 1) = Return env' ∧
    (∀ q, is_valid env_1x2_reg q = true → q ≠ (0, 1) →
          get_cost env' q = get_cost env_1x2_reg q) ∧
    height env' = height env_1x2_reg ∧ width env' = width env_1x2_reg ∧
    dynamic_obstacles env' = dynamic_obstacles env_1x2_reg.
Proof.
  apply (update_grid_with_obstacle_marks_registered env_1x2_reg (0, 1)).
  - split; [reflexivity|repeat constructor].
  - reflexivity.
Defined.

(** C10: when start and goal coincide, both searches return the path
    [[p]], cost 0 and one expansion, as soon as the loop may run once. *)
Theorem search_start_is_goal fuel env p :
  uniform_cost_search (S fuel) env p p = Some (Return (Some [p], Int 0, 1%nat)) ∧
  a_star_search (S fuel) env p p = Some (Return (Some [p], Int 0, 1%nat)).
Proof.
  unfold uniform_cost_search, a_star_search. simpl.
  rewrite !decide_True by done. done.
Qed.

(** C2 (code bug): on [env_detour] the obstacle at [(0, 5)] triggers at
    index 4.  The body splices the new path in and leaves [i = -1], but
    the loop goes on with index 5 of the old range: the move from
    [(0, 4)] to [(1, 4)], the first of the spliced segment, is never
    walked, and the cost of the blocked cell [(0, 5)] has been added,
    so the total is infinite. *)
Lemma replan_walk_continues_from_old_index :
  ∃ env' st,
    update_grid_with_obstacle env_detour (0, 5) = Return env' ∧
    walk_body 40 (0, 6)
      {| w_env := env_detour;
         w_path := [(0, 0); (0, 1); (0, 2); (0, 3); (0, 4); (0, 5); (0, 6)];
         w_total_path_cost := Int 4; w_total_nodes_expanded := 7; w_i := 4 |}
      = Some (Return (Continue st)) ∧
    w_path st =
      [(0, 0); (0, 1); (0, 2); (0, 3); (0, 4); (1, 4); (1, 5); (1, 6); (0, 6)] ∧
    w_i st = -1 ∧
    w_total_path_cost st = Inf ∧
    local_search_replanning 40 env_detour (0, 0) (0, 6) = walk 40 (0, 6) [5] st ∧
    local_search_replanning 40 env_detour (0, 0) (0, 6) =
      Some (Return ((Some (w_path st), Inf, 13%nat), env')).
Proof.
  eexists _, _. split; [vm_compute; reflexivity|].
  split; [vm_compute; reflexivity|].
  repeat split; vm_compute; reflexivity.
Qed.

(** C3 (code bug): on [env_detour] the replanning run returns a path
    whose cells after the start cost 8 in all, with the cost
    [float('inf')]. *)
Lemma replan_cost_is_not_path_cost :
  ∃ path n env',
    local_search_replanning 40 env_detour (0, 0) (0, 6) =
      Some (Return ((Some path, Inf, n), env')) ∧
    path_cost env' path = Return (Int 8).
Proof.
  eexists _, _, _. split; vm_compute; reflexivity.
Qed.

(** C6 (code bug): on [env_corridor] the first search expands 7 nodes,
    the search after the obstacle at [(0, 5)] expands 5 and finds
    nothing, and the run reports 7 expansions, not 12. *)
Lemma replan_failure_leaves_out_failed_search :
  ∃ path c env',
    a_star_search 40 env_corridor (0, 0) (0, 6) = Some (Return (Some path, c, 7%nat)) ∧
    update_grid_with_obstacle env_corridor (0, 5) = Return env' ∧
    a_star_search 40 env' (0, 4) (0, 6) = Some (Return (None, Int (-1), 5%nat)) ∧
    local_search_replanning 40 env_corridor (0, 0) (0, 6) =
      Some (Return ((None, Int (-1), 7%nat), env')).
Proof.
  eexists _, _, _. repeat split; vm_compute; reflexivity.
Qed.

(** ** Returned paths *)

Lemma a_star_search_sound fuel env s g path c n :
  a_star_search fuel env s g = Some (Return (Some path, c, n)) →
  route env s g path ∧ path_cost env path = Return c ∧ (1 ≤ n)%nat.
Proof. rewrite a_star_search_bf. apply bf_search_sound. Qed.

Lemma uniform_cost_search_sound fuel env s g path c n :
  uniform_cost_search fuel env s g = Some (Return (Some path, c, n)) →
  route env s g path ∧ path_cost env path = Return c ∧ (1 ≤ n)%nat.
Proof. rewrite uniform_cost_search_bf. apply bf_search_sound. Qed.

(** C7: with an in-bounds, passable start, every position of a path
    returned by [uniform_cost_search] or [a_star_search] is in bounds and
    passable. *)
Theorem returned_path_is_passable fuel env s g path c n :
  is_valid env s = true → is_passable env s = Return true →
  uniform_cost_search fuel env s g = Some (Return (Some path, c, n)) ∨
  a_star_search fuel env s g = Some (Return (Some path, c, n)) →
  Forall (λ p, is_valid env p = true ∧ is_passable env p = Return true) path.
Proof.
  intros Hv Hp [H|H].
  - apply uniform_cost_search_sound in H as (Hr & _ & _).
    by apply (route_passable env s g).
  - apply a_star_search_sound in H as (Hr & _ & _).
    by apply (route_passable env s g).
Qed.

(** C7 on the 3 by 3 grid. *)
Lemma returned_path_is_passable_witness :
  Forall (λ p, is_valid env_3x3 p = true ∧ is_passable env_3x3 p = Return true)
    [(0, 0); (0, 1); (0, 2); (1, 2); (2, 2)].
Proof.
  apply (returned_path_is_passable 20 env_3x3 (0, 0) (2, 2) _ (Int 4) 9%nat).
  - reflexivity.
  - reflexivity.
  - left. vm_compute. reflexivity.
Defined.

(** ** Replanning with nothing registered *)

Lemma no_obstacle_never_triggers env p t :
  dynamic_obstacles env = ∅ → is_dynamic_obstacle_at env p t = false.
Proof.
  intros He. unfold is_dynamic_obstacle_at. rewrite He, lookup_empty.
  rewrite bool_decide_eq_false_2; [done|]. by intros [? ?].
Qed.

Lemma walk_no_obstacles fuel env goal path n m k acc i0 rest :
  dynamic_obstacles env = ∅ →
  (k + m + 1 = length path)%nat →
  sum_costs env (drop (S k) path) = Return rest →
  walk fuel goal (Z.of_nat <$> seq k m)
    {| w_env := env; w_path := path; w_total_path_cost := acc;
       w_total_nodes_expanded := n; w_i := i0 |} =
  Some (Return ((Some path, num_add acc rest, n), env)).
Proof.
  intros He. revert k acc i0 rest.
  induction m as [|m IH]; intros k acc i0 rest Hlen Hsum; simpl.
  - rewrite drop_ge in Hsum by lia. simpl in Hsum. simplify_eq.
    by rewrite num_add_0_r.
  - unfold walk_body. simpl.
    destruct (getitem_in_range path (Z.of_nat k)) as (cur & -> & Hcur); [lia|].
    destruct (getitem_in_range path (Z.of_nat k + 1)) as (q & -> & Hq); [lia|].
    rewrite no_obstacle_never_triggers by done.
    replace (Z.to_nat (Z.of_nat k + 1)) with (S k) in Hq by lia.
    rewrite (drop_S _ _ _ Hq) in Hsum. simpl in Hsum.
    destruct (get_cost env q) as [cq|]; simpl in Hsum; [|done].
    destruct (sum_costs env (drop (S (S k)) path)) as [rest'|] eqn:Hrest;
      simpl in Hsum; [|done].
    simplify_eq. rewrite (IH (S k) _ _ rest') by (done || lia).
    by rewrite num_add_assoc.
Qed.

(** C4: when [dynamic_obstacles] is empty, [local_search_replanning]
    returns what [a_star_search] returns on the same inputs (the same
    path, cost and expansion count, or the same failure), and leaves the
    environment as it was. *)
Theorem replanning_without_obstacles fuel env s g :
  dynamic_obstacles env = ∅ →
  local_search_replanning fuel env s g =
  match a_star_search fuel env s g with
  | Some (Return r) => Some (Return (r, env))
  | Some IndexError => Some IndexError
  | None => None
  end.
Proof.
  intros He. unfold local_search_replanning.
  destruct (a_star_search fuel env s g) as [[[[[path|] c] n]|]|] eqn:Hs; [|..|done|done].
  - apply a_star_search_sound in Hs as (Hr & Hc & _).
    destruct (route_nonempty _ _ _ _ Hr) as [rest ->]. simpl.
    unfold py_range.
    replace (Z.to_nat (Z.of_nat (S (length rest)) - 1)) with (length rest) by lia.
    rewrite (walk_no_obstacles fuel env g (s :: rest) n (length rest) 0 (Int 0) 0 c);
      [|done|simpl; lia|done].
    destruct c; done.
  - simpl. rewrite a_star_search_bf in Hs. apply bf_search_none in Hs as ->. done.
Qed.

(** C4 on the 3 by 3 grid. *)
Lemma replanning_without_obstacles_witness :
  local_search_replanning 20 env_3x3 (0, 0) (2, 2) =
  match a_star_search 20 env_3x3 (0, 0) (2, 2) with
  | Some (Return r) => Some (Return (r, env_3x3))
  | Some IndexError => Some IndexError
  | None => None
  end.
Proof.
  apply (replanning_without_obstacles 20 env_3x3 (0, 0) (2, 2)). reflexivity.
Defined.

(** ** The sample environments *)

Lemma env_3x3_rectangular : rectangular env_3x3.
Proof. split; [reflexivity|repeat constructor]. Qed.

Lemma env_3x3_costs_ge1 : costs_ge1 env_3x3.
Proof. repeat constructor; intros z Hz; injection Hz as <-; lia. Qed.

Lemma env_3x3_route :
  route env_3x3 (0, 0) (2, 2) [(0, 0); (0, 1); (0, 2); (1, 2); (2, 2)].
Proof.
  apply route_move with (0, 1);
    [exists (0, 1); split; [repeat constructor|reflexivity]|by split|].
  apply route_move with (0, 2);
    [exists (0, 1); split; [repeat constructor|reflexivity]|by split|].
  apply route_move with (1, 2);
    [exists (1, 0); split; [repeat constructor|reflexivity]|by split|].
  apply route_move with (2, 2);
    [exists (1, 0); split; [repeat constructor|reflexivity]|by split|].
  apply route_end.
Qed.

Lemma env_gap_wf : wf_env env_gap.
Proof.
  split; [split; [reflexivity|repeat constructor]|].
  repeat constructor; intros z Hz; try discriminate Hz; injection Hz as <-; lia.
Qed.

Lemma env_gap_no_route path : ¬ route env_gap (0, 0) (0, 2) path.
Proof.
  intros Hr. inversion Hr as [|p q g rest Ha [Hv Hp] Hr']; subst.
  apply adjacent_cases in Ha as [-> | [-> | [-> | ->]]]; simpl in *;
    vm_compute in Hv; vm_compute in Hp; congruence.
Qed.

(** C1 on the 3 by 3 grid, from corner to corner. *)
Lemma search_returns_least_cost_witness :
  ∃ best : Z,
    (∀ path c, route env_3x3 (0, 0) (2, 2) path →
               path_cost env_3x3 path = Return c → num_leb (Int best) c = true) ∧
    (∃ path n fuel0,
       route env_3x3 (0, 0) (2, 2) path ∧
       path_cost env_3x3 path = Return (Int best) ∧
       ∀ fuel, (fuel0 ≤ fuel)%nat →
         a_star_search fuel env_3x3 (0, 0) (2, 2) =
         Some (Return (Some path, Int best, n))) ∧
    (∃ path n fuel0,
       route env_3x3 (0, 0) (2, 2) path ∧
       path_cost env_3x3 path = Return (Int best) ∧
       ∀ fuel, (fuel0 ≤ fuel)%nat →
         uniform_cost_search fuel env_3x3 (0, 0) (2, 2) =
         Some (Return (Some path, Int best, n))).
Proof.
  apply (search_returns_least_cost env_3x3 (0, 0) (2, 2)).
  - exact env_3x3_rectangular.
  - exact env_3x3_costs_ge1.
  - reflexivity.
  - reflexivity.
  - reflexivity.
  - reflexivity.
  - exists [(0, 0); (0, 1); (0, 2); (1, 2); (2, 2)]. exact env_3x3_route.
Defined.

(** C5 on the row whose middle cell is an obstacle. *)
Lemma search_without_route_witness :
  (∃ n fuel0, (1 ≤ n)%nat ∧
     ∀ fuel, (fuel0 ≤ fuel)%nat →
       uniform_cost_search fuel env_gap (0, 0) (0, 2) =
       Some (Return (None, Int (-1), n))) ∧
  (∃ n fuel0, (1 ≤ n)%nat ∧
     ∀ fuel, (fuel0 ≤ fuel)%nat →
       a_star_search fuel env_gap (0, 0) (0, 2) =
       Some (Return (None, Int (-1), n))).
Proof.
  apply (search_without_route env_gap (0, 0) (0, 2)).
  - exact env_gap_wf.
  - reflexivity.
  - reflexivity.
  - reflexivity.
  - reflexivity.
  - exact env_gap_no_route.
Defined.

(** C8 on the first pass of each search over the 3 by 3 grid, and on
    the first neighbour processed there. *)
Lemma visited_only_improves_witness :
  visited_decreases {[(0, 0) := Int 0]}
    (<[(1, 0) := Int 1]> (<[(0, 1) := Int 1]> {[(0, 0) := Int 0]})) ∧
  visited_decreases {[(0, 0) := Int 0]}
    (<[(1, 0) := Int 1]> (<[(0, 1) := Int 1]> {[(0, 0) := Int 0]})) ∧
  ucs_expand env_3x3 (Int 0) [(0, 0)] [(0, 1); (1, 0)] [] {[(0, 0) := Int 0]} =
  if improves {[(0, 0) := Int 0]} (0, 1) (num_add (Int 0) (Int 1)) then
    ucs_expand env_3x3 (Int 0) [(0, 0)] [(1, 0)]
      [(num_add (Int 0) (Int 1), (0, 1), [(0, 0)] ++ [(0, 1)])]
      (<[(0, 1) := num_add (Int 0) (Int 1)]> {[(0, 0) := Int 0]})
  else ucs_expand env_3x3 (Int 0) [(0, 0)] [(1, 0)] [] {[(0, 0) := Int 0]}.
Proof.
  destruct (visited_only_improves env_3x3 (2, 2))
    as (Hucs & Hastar & _ & _ & Hexp & _ & _).
  split; [|split].
  - refine (Hucs ([(Int 0, (0, 0), [(0, 0)])], {[(0, 0) := Int 0]})
             ([(Int 1, (1, 0), [(0, 0); (1, 0)]); (Int 1, (0, 1), [(0, 0); (0, 1)])],
              <[(1, 0) := Int 1]> (<[(0, 1) := Int 1]> {[(0, 0) := Int 0]})) _).
    apply rtc_once.
    apply (ucs_step_expand env_3x3 (2, 2) _ _ (Int 0) (0, 0) [(0, 0)] []
             [(0, 1); (1, 0)]); [reflexivity|discriminate|reflexivity|reflexivity].
  - refine (Hastar ([(Int 4, Int 0, (0, 0), [(0, 0)])], {[(0, 0) := Int 0]})
             ([(Int 4, Int 1, (1, 0), [(0, 0); (1, 0)]);
               (Int 4, Int 1, (0, 1), [(0, 0); (0, 1)])],
              <[(1, 0) := Int 1]> (<[(0, 1) := Int 1]> {[(0, 0) := Int 0]})) _).
    apply rtc_once.
    apply (a_star_step_expand env_3x3 (2, 2) _ _ (Int 4) (Int 0) (0, 0) [(0, 0)] []
             [(0, 1); (1, 0)]); [reflexivity|discriminate|reflexivity|reflexivity].
  - apply (Hexp (Int 0) [(0, 0)] (0, 1) [(1, 0)] [] {[(0, 0) := Int 0]} (Int 1)).
    reflexivity.
Defined.

(** * Further properties of the code *)

(** ** The grid accessors *)

Lemma collect_neighbors_sublist env y x ds acc ns :
  collect_neighbors env y x ds acc = Return ns →
  ∃ picked, ns = acc ++ picked ∧
            picked `sublist_of` ((λ d : Z * Z, (y + d.1, x + d.2)) <$> ds).
Proof.
  revert acc. induction ds as [|[dy dx] ds IH]; intros acc; simpl.
  - intros; simplify_eq. exists []. by rewrite app_nil_r.
  - destruct (is_valid env (y + dy, x + dx)).
    + destruct (is_passable env (y + dy, x + dx)) as [[|]|]; simpl; [| |done].
      * intros (picked & -> & Hsub)%IH. exists ((y + dy, x + dx) :: picked).
        rewrite <- app_assoc. split; [done|]. by apply sublist_skip.
      * intros (picked & -> & Hsub)%IH. exists picked.
        split; [done|]. by apply sublist_cons.
    + intros (picked & -> & Hsub)%IH. exists picked.
      split; [done|]. by apply sublist_cons.
Qed.

Lemma candidates_NoDup p : NoDup (candidates p).
Proof.
  destruct p as [y x]. unfold candidates. simpl.
  repeat (apply NoDup_cons; split;
    [rewrite ?elem_of_cons, elem_of_nil; intros H;
     repeat (destruct H as [H|H]; [injection H; lia|]); done|]).
  apply NoDup_nil_2.
Qed.

(** X1: what [get_neighbors] returns is a sub-sequence of the four
    positions right, left, down, up of [p], in that order: at most four
    positions, none twice, never [p] itself; and a position is in it
    exactly when it is one move away, in bounds and passable. *)
Theorem get_neighbors_exact env p ns :
  get_neighbors env p = Return ns →
  ns `sublist_of` candidates p ∧
  NoDup ns ∧ (length ns ≤ 4)%nat ∧ (p ∉ ns) ∧
  ∀ q, q ∈ ns ↔
       adjacent p q ∧ is_valid env q = true ∧ is_passable env q = Return true.
Proof.
  intros Hns.
  assert (ns `sublist_of` candidates p) as Hsub.
  { destruct p as [y x]. unfold get_neighbors in Hns.
    apply collect_neighbors_sublist in Hns as (picked & -> & Hsub).
    simpl in *. unfold candidates. simpl.
    replace (x + -1) with (x - 1) in Hsub by lia.
    replace (y + -1) with (y - 1) in Hsub by lia.
    by rewrite !Z.add_0_r in Hsub. }
  split; [done|]. split; [|split; [|split]].
  - eapply sublist_NoDup; [apply candidates_NoDup|exact Hsub].
  - apply sublist_length in Hsub. simpl in Hsub. lia.
  - intros Hp. apply (λ H, elem_of_sublist _ _ _ H Hsub) in Hp.
    destruct p as [y x]. unfold candidates in Hp. simpl in Hp.
    rewrite !elem_of_cons, elem_of_nil in Hp.
    repeat (destruct Hp as [Hp|Hp]; [injection Hp; lia|]). done.
  - apply (get_neighbors_spec _ _ _ Hns).
Qed.

(** X1 on the corner of the 3 by 3 grid. *)
Lemma get_neighbors_exact_witness :
  [(0, 1); (1, 0)] `sublist_of` candidates (0, 0) ∧
  NoDup [(0, 1); (1, 0)] ∧ (length [(0, 1); (1, 0)] ≤ 4)%nat ∧
  ((0, 0) ∉ [(0, 1); (1, 0)]) ∧
  ∀ q, q ∈ [(0, 1); (1, 0)] ↔
       adjacent (0, 0) q ∧ is_valid env_3x3 q = true ∧
       is_passable env_3x3 q = Return true.
Proof.
  apply (get_neighbors_exact env_3x3 (0, 0) [(0, 1); (1, 0)]). reflexivity.
Defined.

(** X2: in a rectangular grid [get_cost] and [is_passable] return on
    every in-bounds position ([is_passable] is false exactly on the
    cells holding [float('inf')]), and [get_neighbors] returns on every
    position, in bounds or not: nothing raises. *)
Theorem accessors_total env :
  rectangular env →
  (∀ p, is_valid env p = true →
        ∃ c, get_cost env p = Return c ∧
             is_passable env p = Return (negb (bool_decide (c = Inf)))) ∧
  (∀ p, ∃ ns, get_neighbors env p = Return ns).
Proof.
  intros Hr. split.
  - intros [y x] Hv. destruct (valid_cell _ _ _ Hr Hv) as (row & c & _ & _ & _ & Hc).
    exists c. split; [done|]. unfold is_passable. by rewrite Hc.
  - intros p. by apply get_neighbors_total.
Qed.

(** X2 on the 3 by 3 grid. *)
Lemma accessors_total_witness :
  (∀ p, is_valid env_3x3 p = true →
        ∃ c, get_cost env_3x3 p = Return c ∧
             is_passable env_3x3 p = Return (negb (bool_decide (c = Inf)))) ∧
  (∀ p, ∃ ns, get_neighbors env_3x3 p = Return ns).
Proof.
  apply (accessors_total env_3x3). split; [reflexivity|repeat constructor].
Defined.

Lemma getitem_wrap {A} (l : list A) (i : Z) :
  0 ≤ i < Z.of_nat (length l) → getitem l (i - Z.of_nat (length l)) = getitem l i.
Proof.
  intros Hi. unfold getitem, py_index.
  destruct (decide (0 ≤ i - Z.of_nat (length l) < Z.of_nat (length l))); [lia|].
  destruct (decide (- Z.of_nat (length l) ≤ i - Z.of_nat (length l) < 0)); [|lia].
  destruct (decide (0 ≤ i < Z.of_nat (length l))); [|lia].
  simpl. replace (Z.to_nat (Z.of_nat (length l) + (i - Z.of_nat (length l))))
    with (Z.to_nat i) by lia. done.
Qed.

Lemma getitem_out_of_range {A} (l : list A) (i : Z) :
  Z.of_nat (length l) ≤ i ∨ i < - Z.of_nat (length l) → getitem l i = IndexError.
Proof.
  intros Hi. unfold getitem, py_index.
  destruct (decide (0 ≤ i < Z.of_nat (length l))); [lia|].
  destruct (decide (- Z.of_nat (length l) ≤ i < 0)); [lia|done].
Qed.

(** X3: [get_cost] and [is_passable] do not check bounds; they index the
    rows as Python does.  In a rectangular grid a coordinate lowered by
    the height (or width) names the same cell as the in-bounds one,
    although [is_valid] rejects it, and a row index at or beyond the
    height, or below minus the height, raises [IndexError]. *)
Theorem get_cost_wraps_negative env y x :
  rectangular env → is_valid env (y, x) = true →
  get_cost env (y - height env, x) = get_cost env (y, x) ∧
  get_cost env (y, x - width env) = get_cost env (y, x) ∧
  is_passable env (y - height env, x - width env) = is_passable env (y, x) ∧
  is_valid env (y - height env, x) = false ∧
  is_valid env (y, x - width env) = false ∧
  (∀ y' x', height env ≤ y' ∨ y' < - height env →
            get_cost env (y', x') = IndexError ∧
            is_passable env (y', x') = IndexError).
Proof.
  intros Hr Hv. destruct (valid_cell _ _ _ Hr Hv) as (row & c & Hrow & Hc & Hlen & Hcost).
  pose proof Hv as [Hy Hx]%is_valid_spec. destruct Hr as [Hh Hw].
  assert (getitem (grid env) y = Return row) as Hgy
    by (apply getitem_nonneg; [lia|done]).
  assert (getitem (grid env) (y - height env) = Return row) as Hgy'.
  { rewrite Hh. rewrite getitem_wrap by lia. done. }
  assert (getitem row (x - width env) = getitem row x) as Hgx'.
  { replace (width env) with (Z.of_nat (length row)) by lia.
    apply getitem_wrap. lia. }
  assert (get_cost env (y - height env, x) = get_cost env (y, x)) as H1.
  { unfold get_cost. simpl. by rewrite Hgy, Hgy'. }
  assert (get_cost env (y, x - width env) = get_cost env (y, x)) as H2.
  { unfold get_cost. simpl. rewrite Hgy. simpl. done. }
  split; [done|]. split; [done|]. split; [|split; [|split]].
  - unfold is_passable, get_cost. simpl. rewrite Hgy, Hgy'. simpl. by rewrite Hgx'.
  - apply not_true_is_false. intros [? ?]%is_valid_spec. lia.
  - apply not_true_is_false. intros [? ?]%is_valid_spec. lia.
  - intros y' x' Hy'.
    assert (get_cost env (y', x') = IndexError) as HE.
    { unfold get_cost. simpl. rewrite getitem_out_of_range by lia. done. }
    split; [done|]. unfold is_passable. by rewrite HE.
Qed.

(** X3 on the centre of the 3 by 3 grid. *)
Lemma get_cost_wraps_negative_witness :
  get_cost env_3x3 (1 - height env_3x3, 1) = get_cost env_3x3 (1, 1) ∧
  get_cost env_3x3 (1, 1 - width env_3x3) = get_cost env_3x3 (1, 1) ∧
  is_passable env_3x3 (1 - height env_3x3, 1 - width env_3x3) =
    is_passable env_3x3 (1, 1) ∧
  is_valid env_3x3 (1 - height env_3x3, 1) = false ∧
  is_valid env_3x3 (1, 1 - width env_3x3) = false ∧
  (∀ y' x', height env_3x3 ≤ y' ∨ y' < - height env_3x3 →
            get_cost env_3x3 (y', x') = IndexError ∧
            is_passable env_3x3 (y', x') = IndexError).
Proof.
  apply (get_cost_wraps_negative env_3x3 1 1).
  - split; [reflexivity|repeat constructor].
  - reflexivity.
Defined.

(** ** The Manhattan distance *)

(** X4: [manhattan_distance] is a metric on positions: never negative,
    zero exactly between equal positions, symmetric, and it satisfies the
    triangle inequality. *)
Theorem manhattan_distance_metric p q r :
  0 ≤ manhattan_distance p q ∧
  (manhattan_distance p q = 0 ↔ p = q) ∧
  manhattan_distance p q = manhattan_distance q p ∧
  manhattan_distance p r ≤ manhattan_distance p q + manhattan_distance q r.
Proof.
  destruct p as [py px], q as [qy qx], r as [ry rx].
  unfold manhattan_distance. simpl. repeat split; try lia.
  - intros H. f_equal; lia.
  - intros H. injection H. lia.
Qed.

Lemma route_moves env p g path :
  route env p g path → manhattan_distance p g ≤ Z.of_nat (length path) - 1.
Proof.
  induction 1 as [p|p q g path Ha Hq Hr IH]; simpl.
  - unfold manhattan_distance. lia.
  - pose proof (manhattan_adjacent p q g Ha). lia.
Qed.

(** X5: one move changes the Manhattan distance to any goal by exactly
    one; so a route from [p] to [g] makes at least
    [manhattan_distance p g] moves, and when every finite cost is at
    least 1 its cost is at least [manhattan_distance p g]: the heuristic
    of [a_star_search] never overestimates. *)
Theorem manhattan_distance_admissible env p q g path c :
  costs_ge1 env → adjacent p q →
  route env p g path → path_cost env path = Return c →
  (manhattan_distance p g = manhattan_distance q g + 1 ∨
   manhattan_distance p g = manhattan_distance q g - 1) ∧
  manhattan_distance p g ≤ Z.of_nat (length path) - 1 ∧
  num_leb (Int (manhattan_distance p g)) c = true.
Proof.
  intros Hge Ha Hr Hc. split; [|split].
  - apply adjacent_cases in Ha. unfold manhattan_distance.
    destruct p as [py px], g as [gy gx]. simpl in *.
    destruct Ha as [-> | [-> | [-> | ->]]]; simpl; lia.
  - by eapply route_moves.
  - destruct (route_cost _ _ _ _ Hr) as [z Hz]. rewrite Hz in Hc. simplify_eq.
    apply num_leb_Int. by apply (manhattan_admissible env g Hge p path z).
Qed.

(** X5 on the corner-to-corner route of the 3 by 3 grid. *)
Lemma manhattan_distance_admissible_witness :
  (manhattan_distance (0, 0) (2, 2) = manhattan_distance (0, 1) (2, 2) + 1 ∨
   manhattan_distance (0, 0) (2, 2) = manhattan_distance (0, 1) (2, 2) - 1) ∧
  manhattan_distance (0, 0) (2, 2) ≤
    Z.of_nat (length [(0, 0); (0, 1); (0, 2); (1, 2); (2, 2)]) - 1 ∧
  num_leb (Int (manhattan_distance (0, 0) (2, 2))) (Int 4) = true.
Proof.
  apply (manhattan_distance_admissible env_3x3 (0, 0) (0, 1) (2, 2)
           [(0, 0); (0, 1); (0, 2); (1, 2); (2, 2)] (Int 4)).
  - exact env_3x3_costs_ge1.
  - exists (0, 1). split; [repeat constructor|reflexivity].
  - exact env_3x3_route.
  - reflexivity.
Defined.

(** ** What the searches return *)

Lemma route_head env s g path : route env s g path → head path = Some s.
Proof. by intros [rest ->]%route_nonempty. Qed.

Lemma route_lookup env s g path i p q :
  route env s g path → path !! i = Some p → path !! S i = Some q →
  adjacent p q ∧ passable_cell env q.
Proof.
  intros Hr. revert i. induction Hr as [s|s s' g path Ha Hq Hr IH]; intros i Hp Hn.
  - destruct i; done.
  - destruct (route_nonempty _ _ _ _ Hr) as [rest ->].
    destruct i as [|i]; simpl in *.
    + by simplify_eq.
    + by apply (IH i).
Qed.

(** X6: a path returned by [uniform_cost_search] or [a_star_search]
    starts at the start, ends at the goal, moves by one 4-connected step
    at a time, each onto an in-bounds passable cell, and the returned
    cost is a finite number, the sum of [get_cost] over the positions
    after the first. *)
Theorem returned_path_shape fuel env s g path c n :
  uniform_cost_search fuel env s g = Some (Return (Some path, c, n)) ∨
  a_star_search fuel env s g = Some (Return (Some path, c, n)) →
  head path = Some s ∧ last path = Some g ∧
  (∀ i p q, path !! i = Some p → path !! S i = Some q →
            adjacent p q ∧ is_valid env q = true ∧
            is_passable env q = Return true) ∧
  path_cost env path = Return c ∧ ∃ z, c = Int z.
Proof.
  intros H.
  assert (route env s g path ∧ path_cost env path = Return c) as [Hr Hc].
  { destruct H as [H|H].
    - by apply uniform_cost_search_sound in H as (? & ? & _).
    - by apply a_star_search_sound in H as (? & ? & _). }
  split; [by eapply route_head|]. split; [by eapply route_last|].
  split; [|split; [done|]].
  - intros i p q Hp Hq. by apply (route_lookup env s g path i).
  - destruct (route_cost _ _ _ _ Hr) as [z Hz]. exists z. congruence.
Qed.

(** X6 on the 3 by 3 grid. *)
Lemma returned_path_shape_witness :
  let path := [(0, 0); (0, 1); (0, 2); (1, 2); (2, 2)] in
  head path = Some (0, 0) ∧ last path = Some (2, 2) ∧
  (∀ i p q, path !! i = Some p → path !! S i = Some q →
            adjacent p q ∧ is_valid env_3x3 q = true ∧
            is_passable env_3x3 q = Return true) ∧
  path_cost env_3x3 path = Return (Int 4) ∧ ∃ z, Int 4 = Int z.
Proof.
  apply (returned_path_shape 20 env_3x3 (0, 0) (2, 2) _ (Int 4) 9%nat).
  right. vm_compute. reflexivity.
Defined.

Lemma bf_loop_path_length h env goal fuel fr vis n path c n' :
  Forall (λ e : astar_entry, (length e.2 ≤ n + 1)%nat) fr →
  bf_loop h fuel env goal fr vis n = Some (Return (Some path, c, n')) →
  (length path ≤ n')%nat.
Proof.
  revert fr vis n. induction fuel as [|fuel IH]; intros fr vis n Hfr; simpl; [done|].
  destruct (heappop astar_leb fr) as [[[[[f g] p] pth] fr1]|] eqn:Hpop; [|done].
  assert ((length pth ≤ n + 1)%nat ∧
          Forall (λ e : astar_entry, (length e.2 ≤ n + 1)%nat) fr1) as [Hlen Hfr1].
  { rewrite Forall_forall in Hfr. split.
    - apply (Hfr (f, g, p, pth)). apply (heappop_elem_of _ _ _ _ _ Hpop). by left.
    - apply Forall_forall. intros e He. apply Hfr.
      apply (heappop_elem_of _ _ _ _ _ Hpop). by right. }
  destruct (decide (p = goal)).
  - intros; simplify_eq. lia.
  - destruct (get_neighbors env p) as [ns|]; [|done].
    destruct (bf_expand h env g pth ns fr1 vis) as [[fr2 vis2]|] eqn:Hex; [|done].
    apply IH.
    eapply (bf_expand_frontier h env
              (λ e : astar_entry, (length e.2 ≤ S n + 1)%nat)); [| |exact Hex].
    + intros q mc _ _. simpl. rewrite length_app. simpl. lia.
    + eapply Forall_impl; [exact Hfr1|]. simpl. intros; lia.
Qed.

(** X7: the expansion count returned with a path is at least the number
    of positions of that path: every position on it was popped. *)
Theorem nodes_expanded_covers_path fuel env s g path c n :
  uniform_cost_search fuel env s g = Some (Return (Some path, c, n)) ∨
  a_star_search fuel env s g = Some (Return (Some path, c, n)) →
  (1 ≤ length path ≤ n)%nat.
Proof.
  intros H.
  assert (∃ h, bf_search h fuel env s g = Some (Return (Some path, c, n)))
    as [h Hbf].
  { destruct H as [H|H].
    - exists (λ _, 0). by rewrite <- uniform_cost_search_bf.
    - exists (λ p, manhattan_distance p g). by rewrite <- a_star_search_bf. }
  split.
  - apply bf_search_sound in Hbf as ([rest ->]%route_nonempty & _). simpl. lia.
  - eapply bf_loop_path_length; [|exact Hbf].
    constructor; [simpl; lia|constructor].
Qed.

(** X7 on the 3 by 3 grid. *)
Lemma nodes_expanded_covers_path_witness :
  (1 ≤ length ([(0, 0); (0, 1); (0, 2); (1, 2); (2, 2)]%Z : list pos) ≤ 9)%nat.
Proof.
  apply (nodes_expanded_covers_path 20 env_3x3 (0, 0) (2, 2) _ (Int 4) 9%nat).
  left. vm_compute. reflexivity.
Defined.

(** X8: on a rectangular grid without negative costs, from an in-bounds
    start, both searches return: there is a number of loop passes after
    which [uniform_cost_search], and likewise [a_star_search], gives one
    and the same result, and that result is a value, not [IndexError].
    The goal may be any position, in bounds or not. *)
Theorem searches_return env s g :
  wf_env env → is_valid env s = true →
  (∃ r fuel0, ∀ fuel, (fuel0 ≤ fuel)%nat →
     uniform_cost_search fuel env s g = Some (Return r)) ∧
  (∃ r fuel0, ∀ fuel, (fuel0 ≤ fuel)%nat →
     a_star_search fuel env s g = Some (Return r)).
Proof.
  intros [Hrect Hnn] Hs. split.
  - destruct (bf_search_terminates (λ _, 0) env s g Hrect Hnn Hs) as (fuel0 & r & Hr).
    exists r, fuel0. intros fuel Hle. rewrite uniform_cost_search_bf.
    by apply (bf_loop_fuel_mono _ env g fuel0 fuel).
  - destruct (bf_search_terminates (λ p, manhattan_distance p g) env s g Hrect Hnn Hs)
      as (fuel0 & r & Hr).
    exists r, fuel0. intros fuel Hle. rewrite a_star_search_bf.
    by apply (bf_loop_fuel_mono _ env g fuel0 fuel).
Qed.

(** X8 on the row with an obstacle in the middle, towards a goal outside
    the grid. *)
Lemma searches_return_witness :
  (∃ r fuel0, ∀ fuel, (fuel0 ≤ fuel)%nat →
     uniform_cost_search fuel env_gap (0, 0) (5, 5) = Some (Return r)) ∧
  (∃ r fuel0, ∀ fuel, (fuel0 ≤ fuel)%nat →
     a_star_search fuel env_gap (0, 0) (5, 5) = Some (Return r)).
Proof.
  apply (searches_return env_gap (0, 0) (5, 5)).
  - exact env_gap_wf.
  - reflexivity.
Defined.

(** While a route leads from a recorded position to the goal, the
    frontier is not empty. *)
Lemma frontier_nonempty h env s goal st p path :
  search_inv h env s goal st → route env p goal path →
  ∀ v, st.2 !! p = Some (Int v) → ∃ e, e ∈ st.1.
Proof.
  intros (_ & _ & Hinv) Hr.
  induction Hr as [p|p q g path Ha Hq Hr IH]; intros v Hv.
  - destruct (Hinv _ _ Hv) as [(f & path' & Hin)|[? _]]; [eauto|done].
  - destruct (Hinv _ _ Hv) as [(f & path' & Hin)|[_ Hcl]]; [eauto|].
    destruct (Hcl q Ha Hq) as (cq & w & _ & Hw & _). by apply (IH Hinv w).
Qed.

Lemma bf_search_complete h env s goal fuel x c n :
  nonneg_costs env → is_valid env s = true →
  bf_search h fuel env s goal = Some (Return (x, c, n)) →
  is_Some x ↔ ∃ path, route env s goal path.
Proof.
  intros Hnn Hs Hsearch. split.
  - intros [path ->]. exists path. by apply bf_search_sound in Hsearch as (? & _).
  - intros [path Hr].
    apply (bf_loop_inv h env goal (search_inv h env s goal))
      in Hsearch as (fr0 & vis0 & n0 & Hinv & _ & Hres);
      [|by apply search_inv_step|by apply initial_search_inv].
    destruct Hres as [[-> _]|(f & g & path' & fr1 & _ & ?)]; [|by simplify_eq].
    pose proof Hinv as (_ & (v0 & Hv0 & _) & _).
    destruct (frontier_nonempty h env s goal ([], vis0) s path Hinv Hr v0 Hv0)
      as [e He].
    by apply elem_of_nil in He.
Qed.

(** X9: without negative costs and from an in-bounds start, each search
    returns a path exactly when some route leads from start to goal: it
    never reports failure while a route exists, and never invents a
    path.  (This needs no lower bound on the costs: cells of cost 0 are
    allowed, where the Manhattan distance may overestimate.) *)
Theorem search_finds_path_iff_route fuel env s g x c n :
  nonneg_costs env → is_valid env s = true →
  uniform_cost_search fuel env s g = Some (Return (x, c, n)) ∨
  a_star_search fuel env s g = Some (Return (x, c, n)) →
  is_Some x ↔ ∃ path, route env s g path.
Proof.
  intros Hnn Hs [H|H].
  - rewrite uniform_cost_search_bf in H. by eapply bf_search_complete.
  - rewrite a_star_search_bf in H. by eapply bf_search_complete.
Qed.

(** X9 on the row with an obstacle in the middle. *)
Lemma search_finds_path_iff_route_witness :
  is_Some (None : option (list pos)) ↔ ∃ path, route env_gap (0, 0) (0, 2) path.
Proof.
  apply (search_finds_path_iff_route 20 env_gap (0, 0) (0, 2) None (Int (-1)) 1%nat).
  - exact (proj2 env_gap_wf).
  - reflexivity.
  - right. vm_compute. reflexivity.
Defined.

(** X10: [uniform_cost_search] needs no lower bound on the costs to be
    optimal: on a rectangular grid without negative costs (cells of
    cost 0 allowed), from an in-bounds start, if a route to the goal
    exists it returns a route whose cost no route undercuts. *)
Theorem uniform_cost_search_least_cost env s g :
  wf_env env → is_valid env s = true →
  (∃ path, route env s g path) →
  ∃ best path n fuel0,
    route env s g path ∧ path_cost env path = Return (Int best) ∧
    (∀ path' c, route env s g path' → path_cost env path' = Return c →
                num_leb (Int best) c = true) ∧
    ∀ fuel, (fuel0 ≤ fuel)%nat →
      uniform_cost_search fuel env s g = Some (Return (Some path, Int best, n)).
Proof.
  intros [Hrect Hnn] Hs Hex.
  destruct (bf_search_least (λ _, 0) env s g Hrect Hnn Hs)
    as (best & path & n & fuel0 & Hr & Hc & Hmin & Hres);
    [by apply zero_admissible|lia|done|].
  exists best, path, n, fuel0. split; [done|]. split; [done|]. split.
  - intros path' c Hr' Hc'. destruct (route_cost _ _ _ _ Hr') as [z Hz].
    rewrite Hz in Hc'. simplify_eq. apply num_leb_Int. by eapply Hmin.
  - intros fuel Hle. rewrite uniform_cost_search_bf. by apply Hres.
Qed.

Lemma env_zero_wf : wf_env env_zero.
Proof.
  split; [split; [reflexivity|repeat constructor]|].
  repeat constructor; intros z Hz; injection Hz as <-; lia.
Qed.

Lemma env_zero_route : route env_zero (0, 0) (0, 2) [(0, 0); (0, 1); (0, 2)].
Proof.
  apply route_move with (0, 1);
    [exists (0, 1); split; [repeat constructor|reflexivity]|by split|].
  apply route_move with (0, 2);
    [exists (0, 1); split; [repeat constructor|reflexivity]|by split|].
  apply route_end.
Qed.

(** X10 on the row with a cell of cost 0. *)
Lemma uniform_cost_search_least_cost_witness :
  ∃ best path n fuel0,
    route env_zero (0, 0) (0, 2) path ∧
    path_cost env_zero path = Return (Int best) ∧
    (∀ path' c, route env_zero (0, 0) (0, 2) path' →
                path_cost env_zero path' = Return c →
                num_leb (Int best) c = true) ∧
    ∀ fuel, (fuel0 ≤ fuel)%nat →
      uniform_cost_search fuel env_zero (0, 0) (0, 2) =
      Some (Return (Some path, Int best, n)).
Proof.
  apply (uniform_cost_search_least_cost env_zero (0, 0) (0, 2)).
  - exact env_zero_wf.
  - reflexivity.
  - exists [(0, 0); (0, 1); (0, 2)]. exact env_zero_route.
Defined.

(** ** Returned paths are simple *)

Lemma sum_costs_app env l1 l2 :
  sum_costs env (l1 ++ l2) =
  a ← sum_costs env l1; b ← sum_costs env l2; Return (num_add a b).
Proof.
  induction l1 as [|p l1 IH]; simpl.
  - destruct (sum_costs env l2) as [[b|]|]; simpl; [|done..].
    f_equal.
  - destruct (get_cost env p) as [c|]; simpl; [|done]. rewrite IH.
    destruct (sum_costs env l1) as [a|]; simpl; [|done].
    destruct (sum_costs env l2) as [b|]; simpl; [|done].
    by rewrite num_add_assoc.
Qed.

Lemma sum_costs_take_le env l k a b :
  nonneg_costs env → Forall (passable_cell env) l →
  sum_costs env (take k l) = Return (Int a) → sum_costs env l = Return (Int b) →
  a ≤ b.
Proof.
  intros Hnn Hl Ha Hb. rewrite <- (take_drop k l), sum_costs_app, Ha in Hb.
  simpl in Hb.
  destruct (sum_costs_passable env (drop k l)) as [d Hd]; [by apply Forall_drop|].
  rewrite Hd in Hb. simpl in Hb. simplify_eq.
  assert (0 ≤ d); [|lia].
  eapply sum_costs_nonneg; [done| |exact Hd]. by apply Forall_drop.
Qed.

Lemma prefix_cost_le env s p path i c z :
  nonneg_costs env → route env s p path →
  path_cost env (take (S i) path) = Return (Int c) →
  path_cost env path = Return (Int z) → c ≤ z.
Proof.
  intros Hnn Hr Hc Hz. pose proof (route_tail_passable _ _ _ _ Hr) as Htl.
  destruct (route_nonempty _ _ _ _ Hr) as [rest ->].
  unfold path_cost in *. simpl in *. by eapply sum_costs_take_le.
Qed.

Lemma entry_simple_lower env vis vis' path :
  visited_lowers vis vis' → entry_simple env vis path → entry_simple env vis' path.
Proof.
  intros Hlow [Hnd Hpre]. split; [done|]. intros i q Hq.
  destruct (Hpre i q Hq) as (w & c & Hw & Hc & Hle).
  destruct (Hlow q w Hw) as (w' & Hw' & Hle').
  exists w', c. split; [done|]. split; [done|lia].
Qed.

Lemma visited_lowers_insert env vis q z :
  visited_ok env vis → improves vis q (Int z) = true →
  visited_lowers vis (<[q := Int z]> vis).
Proof.
  intros Hok Himp p w Hp. destruct (decide (p = q)) as [->|Hne].
  - exists z. rewrite lookup_insert_eq. split; [done|].
    unfold improves in Himp. rewrite Hp in Himp. apply num_ltb_Int in Himp. lia.
  - exists w. rewrite lookup_insert_ne by done. split; [done|lia].
Qed.

Lemma entry_simple_snoc env s p vis path x z cx :
  nonneg_costs env → route env s p path →
  path_cost env path = Return (Int z) → get_cost env x = Return (Int cx) →
  0 ≤ cx → visited_ok env vis →
  improves vis x (Int (z + cx)) = true →
  entry_simple env vis path →
  entry_simple env (<[x := Int (z + cx)]> vis) (path ++ [x]).
Proof.
  intros Hnn Hr Hz Hcx Hcx0 Hok Himp [Hnd Hpre].
  assert (x ∉ path) as Hnotin.
  { intros [i Hi]%list_elem_of_lookup.
    destruct (Hpre i x Hi) as (w & c & Hw & Hc & Hle).
    pose proof (prefix_cost_le env s p path i c z Hnn Hr Hc Hz).
    unfold improves in Himp. rewrite Hw in Himp. apply num_ltb_Int in Himp. lia. }
  split.
  - apply NoDup_app. split; [done|]. split; [|apply NoDup_singleton].
    intros y Hy ->%list_elem_of_singleton. done.
  - intros i q Hq. destruct (decide (i < length path)%nat) as [Hlt|Hge].
    + rewrite lookup_app_l in Hq by done.
      destruct (Hpre i q Hq) as (w & c & Hw & Hc & Hle).
      exists w, c. split; [|split; [|done]].
      * rewrite lookup_insert_ne; [done|]. intros ->. apply Hnotin.
        apply list_elem_of_lookup. eauto.
      * rewrite take_app_le by lia. done.
    + assert (i = length path) as ->.
      { apply lookup_lt_Some in Hq. rewrite length_app in Hq. simpl in Hq. lia. }
      rewrite lookup_app_r, Nat.sub_diag in Hq by lia. simpl in Hq. simplify_eq.
      exists (z + cx), (z + cx). rewrite lookup_insert_eq. split; [done|].
      split; [|lia].
      rewrite take_ge by (rewrite length_app; simpl; lia).
      by rewrite (path_cost_snoc env s p path q (Int z) (Int cx)).
Qed.

Lemma bf_expand_simple h env s p z path ns fr vis fr' vis' :
  nonneg_costs env → route env s p path → path_cost env path = Return (Int z) →
  Forall (passable_cell env) ns → visited_ok env vis →
  entry_simple env vis path →
  Forall (λ e : astar_entry, entry_simple env vis e.2) fr →
  bf_expand h env (Int z) path ns fr vis = Return (fr', vis') →
  Forall (λ e : astar_entry, entry_simple env vis' e.2) fr'.
Proof.
  intros Hnn Hr Hz Hns. revert fr vis.
  induction Hns as [|[qy qx] ns Hq _ IH]; intros fr vis Hok Hpath Hfr; simpl.
  - intros; by simplify_eq.
  - destruct (passable_cell_cost _ _ Hq) as [mc Hc]. rewrite Hc. simpl.
    pose proof Hq as [Hqv _]. pose proof Hqv as [? ?]%is_valid_spec.
    assert (0 ≤ mc) by (apply (nonneg_cost env qy qx); [done|lia|lia|done]).
    destruct (improves vis (qy, qx) (Int (z + mc))) eqn:Himp; [|by apply IH].
    pose proof (visited_lowers_insert env vis _ _ Hok Himp) as Hlow.
    apply IH.
    + intros p' v. destruct (decide (p' = (qy, qx))) as [->|Hne].
      * rewrite lookup_insert_eq. intros; simplify_eq.
        split; [done|]. exists (z + mc). split; [done|].
        assert (0 ≤ z) by (by eapply route_cost_nonneg). lia.
      * rewrite lookup_insert_ne by done. apply Hok.
    + by eapply entry_simple_lower.
    + constructor.
      * simpl. by eapply entry_simple_snoc.
      * eapply Forall_impl; [exact Hfr|]. intros e. by apply entry_simple_lower.
Qed.

Lemma simple_inv_step h env s goal st st' :
  nonneg_costs env →
  simple_inv h env s st → bf_step h env goal st st' → simple_inv h env s st'.
Proof.
  intros Hnn [Hok Hsimple] Hstep. pose proof Hstep as Hstep'.
  destruct Hstep as [fr vis f g p path fr1 ns [fr' vis'] Hpop Hne Hns Hex].
  simpl in *. destruct Hok as [Hfr Hvis]. simpl in *.
  assert ((f, g, p, path) ∈ fr) as Hin
    by (apply (heappop_elem_of _ _ _ _ _ Hpop); by left).
  pose proof (proj1 (Forall_forall _ _) Hfr _ Hin) as He.
  pose proof (proj1 (Forall_forall _ _) Hsimple _ Hin) as Hs. simpl in Hs.
  destruct (entry_cost_nonneg h env s Hnn _ _ _ _ He) as (z & -> & Hz).
  destruct He as (Hr & Hg & _).
  assert (Forall (passable_cell env) ns) as Hpass.
  { apply Forall_forall. intros q Hq.
    by apply (get_neighbors_spec _ _ _ Hns) in Hq as [_ ?]. }
  assert (Forall (λ e : astar_entry, entry_simple env vis e.2) fr1) as Hfr1.
  { apply Forall_forall. intros e Hin'.
    apply (proj1 (Forall_forall _ _) Hsimple).
    apply (heappop_elem_of _ _ _ _ _ Hpop). by right. }
  split.
  - split; simpl.
    + by apply (entry_sound_step h env s goal (fr, vis) (fr', vis')).
    + destruct (bf_expand_relaxes h env Hnn z path ns fr1 vis fr' vis'
                  Hz Hpass Hvis Hex) as (? & _). done.
  - simpl. by eapply bf_expand_simple.
Qed.

(** X11: without negative costs and from an in-bounds start, a path
    returned by [uniform_cost_search] or [a_star_search] visits no
    position twice. *)
Theorem returned_path_is_simple fuel env s g path c n :
  nonneg_costs env → is_valid env s = true →
  uniform_cost_search fuel env s g = Some (Return (Some path, c, n)) ∨
  a_star_search fuel env s g = Some (Return (Some path, c, n)) →
  NoDup path.
Proof.
  intros Hnn Hs H.
  assert (∃ h, bf_search h fuel env s g = Some (Return (Some path, c, n)))
    as [h Hbf].
  { destruct H as [H|H].
    - exists (λ _, 0). by rewrite <- uniform_cost_search_bf.
    - exists (λ p, manhattan_distance p g). by rewrite <- a_star_search_bf. }
  apply (bf_loop_inv h env g (simple_inv h env s))
    in Hbf as (fr0 & vis0 & n0 & [_ Hsimple] & _ & Hres).
  - destruct Hres as [[_ ?]|(f & g' & path' & fr1 & Hpop & ?)]; simplify_eq.
    simpl in Hsimple.
    assert ((f, g', g, path') ∈ fr0) as Hin
      by (apply (heappop_elem_of _ _ _ _ _ Hpop); by left).
    by apply (proj1 (Forall_forall _ _) Hsimple _ Hin).
  - intros st st'. by apply simple_inv_step.
  - split; [by apply initial_loop_ok|]. simpl.
    constructor; [|constructor]. simpl. split; [apply NoDup_singleton|].
    intros [|i] q Hq; [|done]. simpl in Hq. injection Hq as <-. exists 0, 0.
    rewrite lookup_singleton_eq. split; [done|]. split; [done|lia].
Qed.

(** X11 on the 3 by 3 grid. *)
Lemma returned_path_is_simple_witness :
  NoDup [(0, 0); (0, 1); (0, 2); (1, 2); (2, 2)].
Proof.
  apply (returned_path_is_simple 20 env_3x3 (0, 0) (2, 2) _ (Int 4) 9%nat).
  - exact (costs_ge1_nonneg _ env_3x3_costs_ge1).
  - reflexivity.
  - right. vm_compute. reflexivity.
Defined.

(** ** Blocking a cell *)

Lemma env_restricts_refl env : env_restricts env env.
Proof. repeat split. intros q _. by left. Qed.

Lemma env_restricts_valid env0 env q :
  env_restricts env0 env → is_valid env q = is_valid env0 q.
Proof. intros (Hh & Hw & _). destruct q. unfold is_valid. by rewrite Hh, Hw. Qed.

Lemma env_restricts_trans env0 env1 env2 :
  env_restricts env0 env1 → env_restricts env1 env2 → env_restricts env0 env2.
Proof.
  intros H01 H12. pose proof H01 as (Hh1 & Hw1 & Hd1 & Hc1).
  pose proof H12 as (Hh2 & Hw2 & Hd2 & Hc2).
  split; [congruence|]. split; [congruence|]. split; [congruence|].
  intros q Hq. destruct (Hc2 q) as [Heq|[Hreg Hinf]].
  - by rewrite (env_restricts_valid env0 env1).
  - rewrite Heq. apply Hc1. done.
  - right. split; [|done]. by rewrite <- Hd1.
Qed.

Lemma env_restricts_passable env0 env q :
  env_restricts env0 env → passable_cell env q → passable_cell env0 q.
Proof.
  intros Hres [Hv Hp]. rewrite (env_restricts_valid env0 env q Hres) in Hv.
  split; [done|]. apply is_passable_true in Hp as [z Hz].
  apply is_passable_true. exists z.
  destruct Hres as (_ & _ & _ & Hc). destruct (Hc q Hv) as [Heq|[_ Hinf]]; congruence.
Qed.

Lemma env_restricts_route env0 env s g path :
  env_restricts env0 env → route env s g path → route env0 s g path.
Proof.
  intros Hres. induction 1 as [p|p q g path Ha Hq Hr IH]; [constructor|].
  apply route_move with q; [done| |done]. by eapply env_restricts_passable.
Qed.

Lemma update_restricts env p env' :
  rectangular env → is_valid env p = true →
  update_grid_with_obstacle env p = Return env' →
  env_restricts env env' ∧
  (is_Some (dynamic_obstacles env !! p) → get_cost env' p = Return Inf).
Proof.
  intros Hr Hv Hu. destruct p as [y x].
  destruct (dynamic_obstacles env !! (y, x)) as [b|] eqn:Hd.
  - destruct (update_registered env y x Hr Hv) as (row & Hrow & Hu'); [by eexists|].
    rewrite Hu' in Hu. simplify_eq.
    destruct (valid_cell _ _ _ Hr Hv) as (row' & c & Hrow' & Hc & Hlen & _).
    assert (row' = row) as -> by congruence.
    pose proof Hv as [Hy Hx]%is_valid_spec.
    pose proof (lookup_lt_Some _ _ _ Hrow) as Hylt.
    pose proof (lookup_lt_Some _ _ _ Hc) as Hxlt.
    assert (get_cost (set_grid env (<[Z.to_nat y:=<[Z.to_nat x:=Inf]> row]> (grid env)))
              (y, x) = Return Inf) as Hinf.
    { apply get_cost_lookup; [lia..|]. eexists. simpl.
      split; [by apply list_lookup_insert_eq|]. by apply list_lookup_insert_eq. }
    split; [|done]. split; [done|]. split; [done|]. split; [done|].
    intros [y' x'] Hq. destruct (decide ((y', x') = (y, x))) as [Heq|Hne].
    + simplify_eq. right. split; [by eexists|done].
    + left. pose proof Hq as [Hy' Hx']%is_valid_spec.
      destruct (valid_cell _ _ _ Hr Hq) as (rq & cq & Hrq & Hcq & _ & Hcost).
      rewrite Hcost. apply get_cost_lookup; [lia..|]. simpl.
      destruct (decide (y' = y)) as [->|Hny].
      * eexists. split; [by apply list_lookup_insert_eq|].
        assert (rq = row) as -> by congruence.
        rewrite list_lookup_insert_ne; [done|].
        intros Heq. apply Hne. f_equal. lia.
      * exists rq. split; [|done]. rewrite list_lookup_insert_ne; [done|]. lia.
  - rewrite update_unregistered in Hu by done. simplify_eq.
    split; [apply env_restricts_refl|]. by intros [? ?].
Qed.

Lemma update_nonneg env p env' :
  nonneg_costs env → update_grid_with_obstacle env p = Return env' →
  nonneg_costs env'.
Proof.
  intros Hnn. unfold update_grid_with_obstacle.
  destruct (bool_decide _); [|by intros; simplify_eq].
  unfold getitem, setitem.
  destruct (py_index (length (grid env)) p.1) as [ky|]; simpl; [|done].
  destruct (grid env !! ky) as [row|] eqn:Hrow; simpl; [|done].
  destruct (py_index (length row) p.2) as [kx|]; simpl; [|done].
  intros; simplify_eq. unfold nonneg_costs. simpl.
  apply Forall_insert; [done|]. apply Forall_insert; [|done].
  by apply (Forall_lookup_1 _ _ _ _ Hnn Hrow).
Qed.

(** X12: marking an in-bounds cell of a well-formed environment
    (rectangular, no negative cost) leaves it well formed, keeps the
    bounds and the registry, and can only take passable cells away: every
    cell passable afterwards was passable before, and every route of the
    new environment is a route of the old one. *)
Theorem update_grid_with_obstacle_only_blocks env p env' :
  wf_env env → is_valid env p = true →
  update_grid_with_obstacle env p = Return env' →
  wf_env env' ∧
  (∀ q, is_valid env' q = is_valid env q) ∧
  dynamic_obstacles env' = dynamic_obstacles env ∧
  (∀ q, is_valid env' q = true → is_passable env' q = Return true →
        is_passable env q = Return true) ∧
  (∀ s g path, route env' s g path → route env s g path).
Proof.
  intros [Hr Hnn] Hv Hu.
  destruct (update_restricts env p env' Hr Hv Hu) as [Hres _].
  split; [split|].
  - by eapply update_rectangular.
  - by eapply update_nonneg.
  - split; [intros q; by apply env_restricts_valid|].
    split; [apply Hres|]. split.
    + intros q Hq Hp. by apply (env_restricts_passable env env' q Hres).
    + intros s g path. by apply env_restricts_route.
Qed.

(** X12 at the registered cell of the two-cell grid. *)
Lemma update_grid_with_obstacle_only_blocks_witness :
  ∃ env',
    update_grid_with_obstacle env_1x2_reg (0, 1) = Return env' ∧
    wf_env env' ∧
    (∀ q, is_valid env' q = is_valid env_1x2_reg q) ∧
    dynamic_obstacles env' = dynamic_obstacles env_1x2_reg ∧
    (∀ q, is_valid env' q = true → is_passable env' q = Return true →
          is_passable env_1x2_reg q = Return true) ∧
    (∀ s g path, route env' s g path → route env_1x2_reg s g path).
Proof.
  eexists. split; [reflexivity|].
  apply (update_grid_with_obstacle_only_blocks env_1x2_reg (0, 1)).
  - split; [split; [reflexivity|repeat constructor]|].
    repeat constructor; intros z Hz; injection Hz as <-; lia.
  - reflexivity.
  - reflexivity.
Defined.

(** ** The replanning walk *)

Lemma walk_no_trigger fuel env goal path n m k acc i0 rest :
  (∀ j q, (5 ≤ j)%nat → path !! j = Some q → dynamic_obstacles env !! q = None) →
  (k + m + 1 = length path)%nat →
  sum_costs env (drop (S k) path) = Return rest →
  walk fuel goal (Z.of_nat <$> seq k m)
    {| w_env := env; w_path := path; w_total_path_cost := acc;
       w_total_nodes_expanded := n; w_i := i0 |} =
  Some (Return ((Some path, num_add acc rest, n), env)).
Proof.
  intros Hfree. revert k acc i0 rest.
  induction m as [|m IH]; intros k acc i0 rest Hlen Hsum; simpl.
  - rewrite drop_ge in Hsum by lia. simpl in Hsum. simplify_eq.
    by rewrite num_add_0_r.
  - unfold walk_body. simpl.
    destruct (getitem_in_range path (Z.of_nat k)) as (cur & -> & Hcur); [lia|].
    destruct (getitem_in_range path (Z.of_nat k + 1)) as (q & -> & Hq); [lia|].
    replace (Z.to_nat (Z.of_nat k + 1)) with (S k) in Hq by lia.
    assert (is_dynamic_obstacle_at env q (Z.of_nat k + 1) = false) as ->.
    { unfold is_dynamic_obstacle_at. apply andb_false_iff.
      destruct (decide (5 ≤ S k)%nat) as [Hge|Hlt].
      - left. rewrite (Hfree (S k) q Hge Hq).
        apply bool_decide_eq_false_2. by intros [? ?].
      - right. apply bool_decide_eq_false_2. lia. }
    rewrite (drop_S _ _ _ Hq) in Hsum. simpl in Hsum.
    destruct (get_cost env q) as [cq|]; simpl in Hsum; [|done].
    destruct (sum_costs env (drop (S (S k)) path)) as [rest'|] eqn:Hrest;
      simpl in Hsum; [|done].
    simplify_eq. rewrite (IH (S k) _ _ rest') by (done || lia).
    by rewrite num_add_assoc.
Qed.

(** X13: an obstacle can only trigger at a position the agent enters at
    time step 5 or later.  If no position of the path found by
    [a_star_search] at index 5 or beyond is registered (in particular
    when that path has at most five positions), then
    [local_search_replanning] returns that same path, cost and expansion
    count, and leaves the environment as it was, whatever else is
    registered. *)
Theorem replanning_without_trigger fuel env s g path c n :
  a_star_search fuel env s g = Some (Return (Some path, c, n)) →
  (∀ j q, (5 ≤ j)%nat → path !! j = Some q → dynamic_obstacles env !! q = None) →
  local_search_replanning fuel env s g = Some (Return ((Some path, c, n), env)).
Proof.
  intros Hs Hfree. unfold local_search_replanning. rewrite Hs.
  apply a_star_search_sound in Hs as (Hr & Hc & _).
  destruct (route_nonempty _ _ _ _ Hr) as [rest ->]. simpl.
  unfold py_range.
  replace (Z.to_nat (Z.of_nat (S (length rest)) - 1)) with (length rest) by lia.
  rewrite (walk_no_trigger fuel env g (s :: rest) n (length rest) 0 (Int 0) 0 c);
    [|done|simpl; lia|done].
  destruct c; done.
Qed.

(** X13 on the corridor whose registered cell is entered at time step 2,
    before it can trigger. *)
Lemma replanning_without_trigger_witness :
  local_search_replanning 20 env_corridor (0, 3) (0, 6) =
  Some (Return ((Some [(0, 3); (0, 4); (0, 5); (0, 6)], Int 3, 4%nat), env_corridor)).
Proof.
  apply (replanning_without_trigger 20 env_corridor (0, 3) (0, 6)).
  - vm_compute. reflexivity.
  - intros j q Hj Hq. apply lookup_lt_Some in Hq as Hlt. simpl in Hlt. lia.
Defined.

Lemma route_splice env s g g' path k p new :
  route env s g path → path !! k = Some p → route env p g' new →
  route env s g' (take k path ++ new).
Proof.
  intros Hr. revert k. induction Hr as [s|s q g path Ha Hq Hr IH]; intros k Hk Hnew.
  - destruct k as [|k]; simpl in Hk; [|done]. injection Hk as ->. done.
  - destruct k as [|k]; simpl in *; [by simplify_eq|].
    apply route_move with q; [done..|]. by apply IH.
Qed.

Lemma route_valid env s g path :
  is_valid env s = true → route env s g path →
  Forall (λ p, is_valid env p = true) path.
Proof.
  intros Hs Hr. destruct (route_nonempty _ _ _ _ Hr) as [rest ->].
  constructor; [done|]. pose proof (route_tail_passable _ _ _ _ Hr) as Ht.
  simpl in Ht. eapply Forall_impl; [exact Ht|]. by intros p [? _].
Qed.

Lemma truthy_Some (x : option (list pos)) :
  truthy x = true → ∃ p rest, x = Some (p :: rest).
Proof. destruct x as [[|p rest]|]; simpl; try done. eauto. Qed.

(** One pass of the walk keeps [walk_ok]; if it stops the run, the
    environment it leaves is still a restriction of the original one. *)
Lemma walk_body_ok env0 s g fuel st fl :
  is_valid env0 s = true → 0 ≤ w_i st →
  walk_ok env0 s g st →
  walk_body fuel g st = Some (Return fl) →
  match fl with
  | Continue st' => walk_ok env0 s g st'
  | Stuck r env' =>
      rectangular env' ∧ env_restricts env0 env' ∧
      r = (None, Int (-1), w_total_nodes_expanded st)
  end.
Proof.
  intros Hs Hi (Hrect & Hres & Hroute). unfold walk_body.
  destruct (getitem (w_path st) (w_i st)) as [cur|] eqn:Hcur; [|done].
  destruct (getitem (w_path st) (w_i st + 1)) as [nxt|] eqn:Hnxt; [|done].
  apply getitem_nonneg in Hcur; [|lia]. apply getitem_nonneg in Hnxt; [|lia].
  replace (Z.to_nat (w_i st + 1)) with (S (Z.to_nat (w_i st))) in Hnxt by lia.
  destruct (is_dynamic_obstacle_at (w_env st) nxt (w_i st + 1)).
  - destruct (route_lookup _ _ _ _ _ _ _ Hroute Hcur Hnxt) as [_ [Hnv _]].
    rewrite <- (env_restricts_valid env0 (w_env st) nxt Hres) in Hnv.
    destruct (update_grid_with_obstacle (w_env st) nxt) as [env1|] eqn:Hu; [|done].
    destruct (update_restricts _ _ _ Hrect Hnv Hu) as [Hres1 _].
    pose proof (update_rectangular _ _ _ Hrect Hnv Hu) as Hrect1.
    pose proof (env_restricts_trans _ _ _ Hres Hres1) as Hres01.
    destruct (a_star_search fuel env1 cur g) as [[[[new_path new_cost] new_n]|]|]
      eqn:Hsearch; [|done..].
    destruct (truthy new_path) eqn:Ht.
    + apply truthy_Some in Ht as (p0 & rest & ->).
      destruct (get_cost env1 nxt) as [c|]; [|done].
      intros; simplify_eq. split; [done|]. split; [done|]. simpl.
      apply a_star_search_sound in Hsearch as (Hnew & _).
      eapply route_splice; [exact Hroute|exact Hcur|].
      by eapply env_restricts_route.
    + intros; simplify_eq. done.
  - destruct (get_cost (w_env st) nxt) as [c|]; [|done].
    intros; simplify_eq. done.
Qed.

Lemma walk_ok_result env0 s g fuel indices st r env' :
  is_valid env0 s = true → Forall (λ i, 0 ≤ i) indices →
  walk_ok env0 s g st →
  walk fuel g indices st = Some (Return (r, env')) →
  rectangular env' ∧ env_restricts env0 env' ∧
  match r.1.1 with
  | Some path => route env0 s g path
  | None => r.1.2 = Int (-1)
  end.
Proof.
  intros Hs Hidx. revert st. induction Hidx as [|i indices Hi _ IH]; intros st Hok; simpl.
  - intros; simplify_eq. destruct Hok as (? & ? & ?). done.
  - set (st0 := {| w_env := w_env st; w_path := w_path st;
                   w_total_path_cost := w_total_path_cost st;
                   w_total_nodes_expanded := w_total_nodes_expanded st;
                   w_i := i |}).
    assert (walk_ok env0 s g st0) as Hok0 by exact Hok.
    destruct (walk_body fuel g st0) as [[[st'|r0 env0']|]|] eqn:Hbody; [| |done..].
    + apply (walk_body_ok env0 s g) in Hbody; [|done..]. by apply IH.
    + apply (walk_body_ok env0 s g) in Hbody as (? & ? & ->); [|done..].
      intros; simplify_eq. done.
Qed.

Lemma py_range_nonneg n : Forall (λ i, 0 ≤ i) (py_range n).
Proof. unfold py_range. apply Forall_fmap, Forall_forall. intros; simpl. lia. Qed.

Lemma replanning_ok env s g fuel r env' :
  rectangular env → is_valid env s = true →
  local_search_replanning fuel env s g = Some (Return (r, env')) →
  rectangular env' ∧ env_restricts env env' ∧
  match r.1.1 with
  | Some path => route env s g path
  | None => r.1.2 = Int (-1)
  end.
Proof.
  intros Hrect Hs. unfold local_search_replanning.
  destruct (a_star_search fuel env s g) as [[[[path c] n]|]|] eqn:Hsearch; [|done..].
  destruct (truthy path) eqn:Ht; simpl.
  - apply truthy_Some in Ht as (p0 & rest & ->).
    apply a_star_search_sound in Hsearch as (Hr & _).
    apply (walk_ok_result env s g); [done|apply py_range_nonneg|].
    split; [done|]. split; [apply env_restricts_refl|done].
  - intros; simplify_eq. split; [done|]. split; [apply env_restricts_refl|done].
Qed.

(** X14: whatever happens during a run of [local_search_replanning] on a
    rectangular grid from an in-bounds start, the environment it leaves
    is the original one with some registered cells blocked: still
    rectangular, same bounds and registry, and every in-bounds cell
    either costs what it did or is a registered cell that now costs
    [float('inf')].  Cells that are not registered are never touched. *)
Theorem replanning_only_blocks_registered env s g fuel r env' :
  rectangular env → is_valid env s = true →
  local_search_replanning fuel env s g = Some (Return (r, env')) →
  rectangular env' ∧
  height env' = height env ∧ width env' = width env ∧
  dynamic_obstacles env' = dynamic_obstacles env ∧
  (∀ q, is_valid env q = true →
        get_cost env' q = get_cost env q ∨
        (is_Some (dynamic_obstacles env !! q) ∧ get_cost env' q = Return Inf)) ∧
  (∀ q, is_valid env q = true → dynamic_obstacles env !! q = None →
        get_cost env' q = get_cost env q).
Proof.
  intros Hrect Hs Hrun.
  destruct (replanning_ok env s g fuel r env' Hrect Hs Hrun)
    as (Hrect' & (Hh & Hw & Hd & Hc) & _).
  split; [done|]. split; [done|]. split; [done|]. split; [done|].
  split; [done|]. intros q Hq Hnone.
  destruct (Hc q Hq) as [?|[[b Hb] _]]; [done|congruence].
Qed.

(** X15: a path returned by [local_search_replanning] on a rectangular
    grid from an in-bounds start, spliced or not, leads from the start to
    the goal by 4-connected moves, each onto a cell that is in bounds
    and was passable in the environment the run started with; and a run
    that returns no path returns the cost -1. *)
Theorem replanning_path_is_route env s g fuel path c n env' :
  rectangular env → is_valid env s = true →
  local_search_replanning fuel env s g = Some (Return ((path, c, n), env')) →
  match path with
  | Some path =>
      head path = Some s ∧ last path = Some g ∧
      ∀ i p q, path !! i = Some p → path !! S i = Some q →
               adjacent p q ∧ is_valid env q = true ∧
               is_passable env q = Return true
  | None => c = Int (-1)
  end.
Proof.
  intros Hrect Hs Hrun.
  destruct (replanning_ok env s g fuel _ env' Hrect Hs Hrun) as (_ & _ & Hres).
  simpl in Hres. destruct path as [path|]; [|done].
  split; [by eapply route_head|]. split; [by eapply route_last|].
  intros i p q Hp Hq. by apply (route_lookup env s g path i).
Qed.

Lemma env_detour_rectangular : rectangular env_detour.
Proof. split; [reflexivity|repeat constructor]. Qed.

Lemma env_detour_run :
  local_search_replanning 40 env_detour (0, 0) (0, 6) =
  Some (Return ((Some [(0, 0); (0, 1); (0, 2); (0, 3); (0, 4);
                       (1, 4); (1, 5); (1, 6); (0, 6)], Inf, 13%nat),
                env_detour_blocked)).
Proof. vm_compute. reflexivity. Qed.

(** X14 on the run over [env_detour] that replans once. *)
Lemma replanning_only_blocks_registered_witness :
  rectangular env_detour_blocked ∧
  height env_detour_blocked = height env_detour ∧
  width env_detour_blocked = width env_detour ∧
  dynamic_obstacles env_detour_blocked = dynamic_obstacles env_detour ∧
  (∀ q, is_valid env_detour q = true →
        get_cost env_detour_blocked q = get_cost env_detour q ∨
        (is_Some (dynamic_obstacles env_detour !! q) ∧
         get_cost env_detour_blocked q = Return Inf)) ∧
  (∀ q, is_valid env_detour q = true → dynamic_obstacles env_detour !! q = None →
        get_cost env_detour_blocked q = get_cost env_detour q).
Proof.
  apply (replanning_only_blocks_registered env_detour (0, 0) (0, 6) 40
           (Some [(0, 0); (0, 1); (0, 2); (0, 3); (0, 4);
                  (1, 4); (1, 5); (1, 6); (0, 6)], Inf, 13%nat)).
  - exact env_detour_rectangular.
  - reflexivity.
  - exact env_detour_run.
Defined.

(** X15 on the run over [env_detour] that replans once. *)
Lemma replanning_path_is_route_witness :
  let path := [(0, 0); (0, 1); (0, 2); (0, 3); (0, 4);
               (1, 4); (1, 5); (1, 6); (0, 6)] in
  head path = Some (0, 0) ∧ last path = Some (0, 6) ∧
  ∀ i p q, path !! i = Some p → path !! S i = Some q →
           adjacent p q ∧ is_valid env_detour q = true ∧
           is_passable env_detour q = Return true.
Proof.
  apply (replanning_path_is_route env_detour (0, 0) (0, 6) 40
           (Some [(0, 0); (0, 1); (0, 2); (0, 3); (0, 4);
                  (1, 4); (1, 5); (1, 6); (0, 6)]) Inf 13%nat env_detour_blocked).
  - exact env_detour_rectangular.
  - reflexivity.
  - exact env_detour_run.
Defined.

(** ** The replanning run ends *)

Lemma a_star_search_returns env s g :
  wf_env env → is_valid env s = true →
  ∃ r fuel0, ∀ fuel, (fuel0 ≤ fuel)%nat →
    a_star_search fuel env s g = Some (Return r).
Proof.
  intros [Hrect Hnn] Hs.
  destruct (bf_search_terminates (λ p, manhattan_distance p g) env s g Hrect Hnn Hs)
    as (fuel0 & r & Hr).
  exists r, fuel0. intros fuel Hle. rewrite a_star_search_bf.
  by apply (bf_loop_fuel_mono _ env g fuel0 fuel).
Qed.

Lemma walk_body_nonneg fuel g st st' :
  nonneg_costs (w_env st) →
  walk_body fuel g st = Some (Return (Continue st')) → nonneg_costs (w_env st').
Proof.
  intros Hnn. unfold walk_body.
  destruct (getitem (w_path st) (w_i st)) as [cur|]; [|done].
  destruct (getitem (w_path st) (w_i st + 1)) as [nxt|]; [|done].
  destruct (is_dynamic_obstacle_at (w_env st) nxt (w_i st + 1)).
  - destruct (update_grid_with_obstacle (w_env st) nxt) as [env1|] eqn:Hu; [|done].
    destruct (a_star_search fuel env1 cur g) as [[[[new_path new_cost] new_n]|]|];
      [|done..].
    destruct (truthy new_path); [|done].
    destruct (get_cost env1 nxt) as [c|]; [|done].
    intros; simplify_eq. simpl. by eapply update_nonneg.
  - destruct (get_cost (w_env st) nxt) as [c|]; [|done].
    intros; simplify_eq. done.
Qed.

(** One pass of the walk ends, and how it ends does not depend on the
    fuel once there is enough of it. *)
Lemma walk_body_ends env0 s g st :
  is_valid env0 s = true → 0 ≤ w_i st →
  walk_ok env0 s g st → nonneg_costs (w_env st) →
  ∃ o fuel0, ∀ fuel, (fuel0 ≤ fuel)%nat → walk_body fuel g st = Some o.
Proof.
  intros Hs Hi (Hrect & Hres & Hroute) Hnn. unfold walk_body.
  destruct (getitem (w_path st) (w_i st)) as [cur|] eqn:Hcur;
    [|by exists IndexError, 0%nat].
  destruct (getitem (w_path st) (w_i st + 1)) as [nxt|] eqn:Hnxt;
    [|by exists IndexError, 0%nat].
  apply getitem_nonneg in Hcur; [|lia]. apply getitem_nonneg in Hnxt; [|lia].
  replace (Z.to_nat (w_i st + 1)) with (S (Z.to_nat (w_i st))) in Hnxt by lia.
  destruct (is_dynamic_obstacle_at (w_env st) nxt (w_i st + 1)).
  - destruct (route_lookup _ _ _ _ _ _ _ Hroute Hcur Hnxt) as [_ [Hnv _]].
    rewrite <- (env_restricts_valid env0 (w_env st) nxt Hres) in Hnv.
    destruct (update_grid_with_obstacle (w_env st) nxt) as [env1|] eqn:Hu;
      [|by exists IndexError, 0%nat].
    destruct (update_restricts _ _ _ Hrect Hnv Hu) as [Hres1 _].
    pose proof (update_rectangular _ _ _ Hrect Hnv Hu) as Hrect1.
    pose proof (update_nonneg _ _ _ Hnn Hu) as Hnn1.
    assert (is_valid env1 cur = true) as Hcv.
    { rewrite (env_restricts_valid _ _ cur Hres1),
        (env_restricts_valid _ _ cur Hres).
      pose proof (route_valid env0 s g _ Hs Hroute) as Hall.
      by apply (Forall_lookup_1 _ _ _ _ Hall Hcur). }
    destruct (a_star_search_returns env1 cur g (conj Hrect1 Hnn1) Hcv)
      as ([[new_path new_cost] new_n] & fuel0 & Hsearch).
    destruct (truthy new_path) eqn:Ht.
    + destruct (get_cost env1 nxt) as [c|] eqn:Hc;
        eexists _, fuel0; intros fuel Hle; rewrite (Hsearch fuel Hle), Ht;
        reflexivity.
    + eexists _, fuel0. intros fuel Hle. rewrite (Hsearch fuel Hle), Ht. reflexivity.
  - destruct (get_cost (w_env st) nxt) as [c|]; by eexists _, 0%nat.
Qed.

Lemma walk_ends env0 s g indices :
  is_valid env0 s = true → Forall (λ i, 0 ≤ i) indices →
  ∀ st, walk_ok env0 s g st → nonneg_costs (w_env st) →
  ∃ r fuel0, ∀ fuel, (fuel0 ≤ fuel)%nat → walk fuel g indices st = Some r.
Proof.
  intros Hs Hidx. induction Hidx as [|i indices Hi _ IH]; intros st Hok Hnn; simpl.
  - by eexists _, 0%nat.
  - set (st0 := {| w_env := w_env st; w_path := w_path st;
                   w_total_path_cost := w_total_path_cost st;
                   w_total_nodes_expanded := w_total_nodes_expanded st;
                   w_i := i |}).
    assert (walk_ok env0 s g st0) as Hok0 by exact Hok.
    destruct (walk_body_ends env0 s g st0 Hs Hi Hok0 Hnn) as (o & fuel0 & Hbody).
    destruct o as [[st'|r0 env1]|].
    + pose proof (Hbody fuel0 (Nat.le_refl _)) as Hb0.
      pose proof (walk_body_ok env0 s g fuel0 st0 _ Hs Hi Hok0 Hb0) as Hok'.
      pose proof (walk_body_nonneg fuel0 g st0 st' Hnn Hb0) as Hnn'.
      destruct (IH st' Hok' Hnn') as (r & fuel1 & Hrest).
      exists r, (fuel0 `max` fuel1)%nat. intros fuel Hle.
      rewrite Hbody by lia. apply Hrest. lia.
    + eexists _, fuel0. intros fuel Hle. by rewrite Hbody.
    + eexists _, fuel0. intros fuel Hle. by rewrite Hbody.
Qed.

(** X16: on a well-formed environment, from an in-bounds start, a run of
    [local_search_replanning] always ends: there is a number of loop
    passes after which every search it starts has returned, and the run
    gives one and the same outcome, a result or [IndexError].  It never
    searches or replans forever. *)
Theorem replanning_ends env s g :
  wf_env env → is_valid env s = true →
  ∃ r fuel0, ∀ fuel, (fuel0 ≤ fuel)%nat →
    local_search_replanning fuel env s g = Some r.
Proof.
  intros Hwf Hs. pose proof Hwf as [Hrect Hnn].
  destruct (a_star_search_returns env s g Hwf Hs)
    as ([[path c] n] & fuel0 & Hsearch).
  unfold local_search_replanning.
  destruct (truthy path) eqn:Ht.
  - apply truthy_Some in Ht as (p0 & rest & ->).
    pose proof (Hsearch fuel0 (Nat.le_refl _)) as Hs0.
    apply a_star_search_sound in Hs0 as (Hr & _).
    destruct (walk_ends env s g
                (py_range (Z.of_nat (length (default [] (Some (p0 :: rest)))) - 1))
                Hs (py_range_nonneg _)
                {| w_env := env; w_path := default [] (Some (p0 :: rest));
                   w_total_path_cost := Int 0; w_total_nodes_expanded := n;
                   w_i := 0 |})
      as (r & fuel1 & Hwalk).
    + split; [done|]. split; [apply env_restricts_refl|done].
    + done.
    + exists r, (fuel0 `max` fuel1)%nat. intros fuel Hle.
      rewrite Hsearch by lia. simpl. apply Hwalk. lia.
  - eexists _, fuel0. intros fuel Hle. rewrite (Hsearch fuel Hle), Ht. reflexivity.
Qed.

(** X16 on [env_detour]. *)
Lemma replanning_ends_witness :
  ∃ r fuel0, ∀ fuel, (fuel0 ≤ fuel)%nat →
    local_search_replanning fuel env_detour (0, 0) (0, 6) = Some r.
Proof.
  apply (replanning_ends env_detour (0, 0) (0, 6)).
  - split; [exact env_detour_rectangular|].
    repeat constructor; intros z Hz; injection Hz as <-; lia.
  - reflexivity.
Defined.

(** ** The constructor *)

Lemma parse_row_id self r c row : parse_row self r c row = Value self.
Proof. revert c. induction row as [|cell row IH]; intros c; simpl; [done|]. apply IH. Qed.

Lemma parse_rows_id self r rows : parse_rows self r rows = Value self.
Proof.
  revert r. induction rows as [|row rows IH]; intros r; simpl; [done|].
  rewrite parse_row_id. apply IH.
Qed.

Lemma parse_special_cells_id self g :
  a_grid self = Some g → parse_special_cells self = Value self.
Proof. intros Hg. unfold parse_special_cells. rewrite Hg. apply parse_rows_id. Qed.

Section LoaderFacts.
Context (isdigit : N → bool) (int_of_char : N → option Z)
      (strip : list N → list N).


(** A row loads exactly when all its characters are (loadable_char isdigit int_of_char); then every
  character has its cell, and [dynamic_obstacles] is still unassigned. *)
Lemma load_row_cases self y x chars row :
a_dynamic_obstacles self = None →
(Forall (loadable_char isdigit int_of_char) chars ∧
 ∃ cells self',
   load_row isdigit int_of_char self y x chars row = Value (row ++ cells, self') ∧
   a_dynamic_obstacles self' = None ∧ Forall2 (cell_rel isdigit int_of_char) chars cells) ∨
(¬ Forall (loadable_char isdigit int_of_char) chars ∧
 ∃ e, load_row isdigit int_of_char self y x chars row = Raises e ∧
      (e = AttributeError ∨ e = ValueError)).
Proof.
revert self x row. induction chars as [|c chars IH]; intros self x row Hd.
- left. split; [constructor|]. exists [], self. simpl. rewrite app_nil_r.
  split; [done|]. split; [done|constructor].
- assert (∀ self' cell,
    a_dynamic_obstacles self' = None → (loadable_char isdigit int_of_char) c →
    cell_of isdigit int_of_char c = Some cell →
    (Forall (loadable_char isdigit int_of_char) (c :: chars) ∧
     ∃ cells self'',
       load_row isdigit int_of_char self' y (x + 1) chars (row ++ [cell]) =
         Value (row ++ cells, self'') ∧
       a_dynamic_obstacles self'' = None ∧ Forall2 (cell_rel isdigit int_of_char) (c :: chars) cells) ∨
    (¬ Forall (loadable_char isdigit int_of_char) (c :: chars) ∧
     ∃ e, load_row isdigit int_of_char self' y (x + 1) chars (row ++ [cell]) =
            Raises e ∧ (e = AttributeError ∨ e = ValueError))) as Hnext.
  { intros self' cell Hd' Hc Hcell.
    destruct (IH self' (x + 1) (row ++ [cell]) Hd')
      as [(Hall & cells & self'' & Hl & Hd'' & Hrel)|(Hnot & e & Hl & He)].
    - left. split; [by constructor|]. exists (cell :: cells), self''.
      rewrite Hl, <- app_assoc. split; [done|]. split; [done|]. by constructor.
    - right. split; [|by exists e]. intros Hall. apply Hnot.
      by apply Forall_cons in Hall as [_ ?]. }
  simpl. unfold loadable_char, cell_of in Hnext.
  destruct (isdigit c) eqn:Hdig.
  + destruct (int_of_char c) as [n|] eqn:Hint.
    * apply (Hnext self (Int n)); [done|by eexists|done].
    * right. split.
      -- intros [Hc _]%Forall_cons. unfold loadable_char in Hc.
         rewrite Hdig, Hint in Hc. by destruct Hc.
      -- exists ValueError. auto.
  + destruct (c =? chr_S)%N eqn:HS; [apply Hnext|].
    { done. } { by apply N.eqb_eq in HS as ->. }
    { destruct (c =? chr_hash)%N eqn:Hh; [|done].
      apply N.eqb_eq in HS, Hh. subst. done. }
    destruct (c =? chr_G)%N eqn:HG; [apply Hnext|].
    { done. } { by apply N.eqb_eq in HG as ->. }
    { destruct (c =? chr_hash)%N eqn:Hh; [|done].
      apply N.eqb_eq in HG, Hh. subst. done. }
    destruct (c =? chr_hash)%N eqn:Hh; [apply Hnext|].
    { done. } { by apply N.eqb_eq in Hh as ->. } { done. }
    destruct (c =? chr_D)%N eqn:HD.
    * rewrite Hd. right. split.
      -- intros [Hc _]%Forall_cons. unfold loadable_char in Hc.
         rewrite Hdig in Hc. by apply N.eqb_eq in HD.
      -- exists AttributeError. auto.
    * apply Hnext; [done| |done]. by apply N.eqb_neq in HD.
Qed.

Lemma load_lines_cases self y lines grid :
a_dynamic_obstacles self = None →
(Forall (λ line, Forall (loadable_char isdigit int_of_char) (strip line)) lines ∧
 ∃ rows self',
   load_lines isdigit int_of_char strip self y lines grid =
     Value (grid ++ rows, self') ∧
   a_dynamic_obstacles self' = None ∧
   Forall2 (λ line row, Forall2 (cell_rel isdigit int_of_char) (strip line) row) lines rows) ∨
(¬ Forall (λ line, Forall (loadable_char isdigit int_of_char) (strip line)) lines ∧
 ∃ e, load_lines isdigit int_of_char strip self y lines grid = Raises e ∧
      (e = AttributeError ∨ e = ValueError)).
Proof.
revert self y grid. induction lines as [|line lines IH]; intros self y grid Hd.
- left. split; [constructor|]. exists [], self. simpl. rewrite app_nil_r.
  split; [done|]. split; [done|constructor].
- simpl.
  destruct (load_row_cases self y 0 (strip line) [] Hd)
    as [(Hall & cells & self1 & -> & Hd1 & Hrel)|(Hnot & e & -> & He)].
  + simpl.
    destruct (IH self1 (y + 1) (grid ++ [cells]) Hd1)
      as [(Halls & rows & self2 & Hl & Hd2 & Hrels)|(Hnots & e & Hl & He)].
    * left. split; [by constructor|]. exists (cells :: rows), self2.
      rewrite Hl, <- app_assoc. split; [done|]. split; [done|]. by constructor.
    * right. split; [|by exists e]. intros Halls. apply Hnots.
      by apply Forall_cons in Halls as [_ ?].
  + right. split; [|by exists e]. intros [? _]%Forall_cons. done.
Qed.

(** What [__init__] returns when it returns. *)
Lemma init_env lines self :
init isdigit int_of_char strip lines = Value self →
∃ g line0 rest,
  lines = line0 :: rest ∧
  self = {| a_grid := Some g; a_height := Some (Z.of_nat (length lines));
            a_width := Some (Z.of_nat (length (strip line0)));
            a_start_pos := Some None; a_goal_pos := Some None;
            a_dynamic_obstacles := Some ∅ |} ∧
  Forall2 (λ line row, Forall2 (cell_rel isdigit int_of_char) (strip line) row)
    lines g.
Proof.
unfold init, load_grid.
destruct (load_lines_cases new_instance 0 lines [] eq_refl)
  as [(Hall & rows & self1 & -> & _ & Hrel)|(Hnot & e & -> & He)]; [|done].
simpl. destruct rows as [|row0 rows]; [done|].
rewrite (parse_special_cells_id _ (row0 :: rows)) by reflexivity.
intros; simplify_eq.
destruct lines as [|line0 rest]; [by apply Forall2_nil_inv_l in Hrel|].
exists (row0 :: rows), line0, rest. split; [done|]. split; [|done].
pose proof (Forall2_length _ _ _ Hrel) as Hlen.
apply Forall2_cons in Hrel as Hrel'. destruct Hrel' as [Hrow0 _].
apply Forall2_length in Hrow0. simpl in *.
unfold set_dynamic_obstacles, set_goal_pos, set_start_pos, set_grid_attrs. simpl.
f_equal; f_equal; lia.
Qed.

(** X17: an instance built by [__init__] has no start, no goal and no
  registered obstacle, whatever the map contains: the positions
  [load_grid] records for ['S'] and ['G'] are overwritten with [None]
  after the grid is loaded, and [parse_special_cells], looking for
  strings in a grid of numbers, finds nothing.  So
  [get_start_position] and [get_goal_position] return [None], and the
  registry the replanning walk consults is empty. *)
Theorem init_forgets_positions lines self :
init isdigit int_of_char strip lines = Value self →
get_start_position self = Value None ∧
get_goal_position self = Value None ∧
a_dynamic_obstacles self = Some ∅ ∧
∃ env, env_of self = Some env ∧ dynamic_obstacles env = ∅.
Proof.
intros (g & line0 & rest & _ & -> & _)%init_env.
repeat split. eexists. split; [reflexivity|done].
Qed.

(** X18: [__init__] returns an instance exactly when the map has at
  least one line and every character of every stripped line is
  (loadable_char isdigit int_of_char): a digit character that [int] accepts, or any other
  character but ['D'].  An empty file raises [IndexError]
  ([len(self.grid[0])]), and a ['D'] anywhere makes the constructor
  raise, because [load_grid] writes to [self.dynamic_obstacles] before
  [__init__] has assigned it. *)
Theorem init_succeeds_iff lines :
((∃ self, init isdigit int_of_char strip lines = Value self) ↔
 lines ≠ [] ∧ Forall (λ line, Forall (loadable_char isdigit int_of_char) (strip line)) lines) ∧
init isdigit int_of_char strip [] = Raises IndexError_ ∧
(∀ line, line ∈ lines → chr_D ∈ strip line → isdigit chr_D = false →
         ∃ e, init isdigit int_of_char strip lines = Raises e ∧
              (e = AttributeError ∨ e = ValueError)).
Proof.
assert (∀ lines,
  (Forall (λ line, Forall (loadable_char isdigit int_of_char) (strip line)) lines →
   lines ≠ [] → ∃ self, init isdigit int_of_char strip lines = Value self) ∧
  (¬ Forall (λ line, Forall (loadable_char isdigit int_of_char) (strip line)) lines →
   ∃ e, init isdigit int_of_char strip lines = Raises e ∧
        (e = AttributeError ∨ e = ValueError))) as Hcases.
{ intros ls. unfold init, load_grid.
  destruct (load_lines_cases new_instance 0 ls [] eq_refl)
    as [(Hall & rows & self1 & -> & _ & Hrel)|(Hnot & e & -> & He)].
  - split; [|done]. intros _ Hne. simpl.
    destruct rows as [|row0 rows]; [by apply Forall2_nil_inv_r in Hrel|].
    rewrite (parse_special_cells_id _ (row0 :: rows)) by reflexivity. eauto.
  - split; [done|]. intros _. by exists e. }
split; [|split].
- split.
  + intros [self Hinit]. split.
    * intros ->. done.
    * destruct (load_lines_cases new_instance 0 lines [] eq_refl)
        as [(Hall & _)|(Hnot & _)]; [done|].
      destruct (proj2 (Hcases lines) Hnot) as (e & He & _). congruence.
  + intros [Hne Hall]. by apply (proj1 (Hcases lines)).
- done.
- intros line Hin HD Hdig. apply (proj2 (Hcases lines)).
  intros Hall. rewrite Forall_forall in Hall. specialize (Hall line Hin).
  rewrite Forall_forall in Hall. specialize (Hall chr_D HD).
  unfold loadable_char in Hall. rewrite Hdig in Hall. done.
Qed.

(** X19: the grid [__init__] builds has one row per line of the map and,
  in each row, one cell per character of the stripped line: the value
  of [int] for a digit character, [float('inf')] for ['#'], and 1 for
  anything else (['S'], ['G'], blanks inside the line, letters).
  [height] is the number of lines and [width] the length of the first
  stripped line; a blank line gives an empty row. *)
Theorem init_grid lines self :
init isdigit int_of_char strip lines = Value self →
∃ env line0 rest,
  env_of self = Some env ∧ lines = line0 :: rest ∧
  height env = Z.of_nat (length lines) ∧
  width env = Z.of_nat (length (strip line0)) ∧
  Forall2 (λ line row, Forall2 (cell_rel isdigit int_of_char) (strip line) row)
    lines (grid env).
Proof.
intros (g & line0 & rest & Hl & -> & Hrel)%init_env.
eexists _, line0, rest. split; [reflexivity|]. done.
Qed.

Lemma cell_rel_nonneg c cell z :
(∀ c z, int_of_char c = Some z → 0 ≤ z) →
cell_rel isdigit int_of_char c cell → cell = Int z → 0 ≤ z.
Proof.
intros Hint. unfold cell_rel, cell_of. destruct (isdigit c).
- destruct (int_of_char c) as [n|] eqn:Hn; simpl; intros; simplify_eq.
  by eapply Hint.
- destruct (c =? chr_hash)%N; intros; simplify_eq. lia.
Qed.

(** X20: when [int] never returns a negative number (Python's [int] of a
  digit character is between 0 and 9), the environment [__init__]
  builds has no negative cost, and it is rectangular exactly when all
  stripped lines of the map are as long as the first: a shorter or
  blank line leaves in-bounds positions that have no cell. *)
Theorem init_well_formed lines self env :
(∀ c z, int_of_char c = Some z → 0 ≤ z) →
init isdigit int_of_char strip lines = Value self →
env_of self = Some env →
nonneg_costs env ∧
(rectangular env ↔
 ∀ line, line ∈ lines → Z.of_nat (length (strip line)) = width env) ∧
(wf_env env ↔
 ∀ line, line ∈ lines → Z.of_nat (length (strip line)) = width env).
Proof.
intros Hint (g & line0 & rest & Hl & -> & Hrel)%init_env Henv.
unfold env_of in Henv. simpl in Henv. injection Henv as <-. subst lines.
assert (nonneg_costs
          {| grid := g; height := Z.of_nat (length (line0 :: rest));
             width := Z.of_nat (length (strip line0));
             dynamic_obstacles := ∅ |}) as Hnn.
{ unfold nonneg_costs. simpl. apply Forall_forall. intros row Hrow.
  apply list_elem_of_lookup in Hrow as [y Hy].
  destruct (Forall2_lookup_r _ _ _ _ _ Hrel Hy) as (line & _ & Hcells).
  apply Forall_forall. intros cell Hcell z ->.
  apply list_elem_of_lookup in Hcell as [x Hx].
  destruct (Forall2_lookup_r _ _ _ _ _ Hcells Hx) as (c & _ & Hc).
  by eapply cell_rel_nonneg. }
assert (rectangular
          {| grid := g; height := Z.of_nat (length (line0 :: rest));
             width := Z.of_nat (length (strip line0));
             dynamic_obstacles := ∅ |} ↔
        ∀ line, line ∈ line0 :: rest →
                Z.of_nat (length (strip line)) = Z.of_nat (length (strip line0)))
  as Hrect.
{ unfold rectangular. simpl. split.
  - intros [_ Hrows] line [y Hy]%list_elem_of_lookup.
    destruct (Forall2_lookup_l _ _ _ _ _ Hrel Hy) as (row & Hrow & Hcells).
    pose proof (Forall_lookup_1 _ _ _ _ Hrows Hrow) as Hlen. simpl in Hlen.
    apply Forall2_length in Hcells. lia.
  - intros Hlines. split.
    + apply Forall2_length in Hrel. simpl in Hrel. lia.
    + apply Forall_forall. intros row [y Hy]%list_elem_of_lookup.
      destruct (Forall2_lookup_r _ _ _ _ _ Hrel Hy) as (line & Hline & Hcells).
      apply Forall2_length in Hcells. rewrite <- Hcells. apply Hlines.
      apply list_elem_of_lookup. eauto. }
split; [exact Hnn|]. split; [exact Hrect|]. split.
- intros [Hr _]. by apply Hrect.
- intros Hlines. split; [by apply Hrect|exact Hnn].
Qed.

(** X21: on an environment built by [__init__] no obstacle ever
  triggers, so [local_search_replanning] returns exactly what
  [a_star_search] returns there, and leaves the environment as it was. *)
Theorem replanning_on_built_environment lines self env fuel s g :
init isdigit int_of_char strip lines = Value self →
env_of self = Some env →
local_search_replanning fuel env s g =
match a_star_search fuel env s g with
| Some (Return r) => Some (Return (r, env))
| Some IndexError => Some IndexError
| None => None
end.
Proof.
intros (gr & line0 & rest & Hl & -> & Hrel)%init_env Henv.
unfold env_of in Henv. simpl in Henv. injection Henv as <-. subst lines.
set (env := {| grid := gr; height := Z.of_nat (length (line0 :: rest));
               width := Z.of_nat (length (strip line0));
               dynamic_obstacles := ∅ |}).
unfold local_search_replanning.
destruct (a_star_search fuel env s g) as [[[[[path|] c] n]|]|] eqn:Hs; [|..|done|done].
- apply a_star_search_sound in Hs as (Hr & Hc & _).
  destruct (route_nonempty _ _ _ _ Hr) as [tl ->]. simpl.
  unfold py_range.
  replace (Z.to_nat (Z.of_nat (S (length tl)) - 1)) with (length tl) by lia.
  rewrite (walk_no_obstacles fuel env g (s :: tl) n (length tl) 0 (Int 0) 0 c);
    [|done|simpl; lia|done].
  destruct c; done.
- simpl. rewrite a_star_search_bf in Hs. apply bf_search_none in Hs as ->. done.
Qed.
End LoaderFacts.

Lemma sample_map_init :
  init ascii_isdigit ascii_int ascii_strip sample_map = Value sample_instance.
Proof. vm_compute. reflexivity. Qed.

Lemma ascii_int_nonneg c z : ascii_int c = Some z → 0 ≤ z.
Proof.
  unfold ascii_int, ascii_isdigit.
  destruct (48 <=? c)%N eqn:H1; simpl; [|done].
  destruct (c <=? 57)%N; [|done]. apply N.leb_le in H1. intros; simplify_eq. lia.
Qed.

(** X17 on the sample map, which has an ['S'] and a ['G']. *)
Lemma init_forgets_positions_witness :
  get_start_position sample_instance = Value None ∧
  get_goal_position sample_instance = Value None ∧
  a_dynamic_obstacles sample_instance = Some ∅ ∧
  ∃ env, env_of sample_instance = Some env ∧ dynamic_obstacles env = ∅.
Proof.
  apply (init_forgets_positions ascii_isdigit ascii_int ascii_strip sample_map).
  exact sample_map_init.
Defined.

(** X18 on the sample map: it has lines and only loadable characters. *)
Lemma init_succeeds_iff_witness :
  ∃ self, init ascii_isdigit ascii_int ascii_strip sample_map = Value self.
Proof.
  apply (proj1 (init_succeeds_iff ascii_isdigit ascii_int ascii_strip sample_map)).
  split; [discriminate|].
  repeat constructor; unfold loadable_char; simpl; (by eexists) || discriminate.
Defined.

(** X19 on the sample map. *)
Lemma init_grid_witness :
  ∃ env line0 rest,
    env_of sample_instance = Some env ∧ sample_map = line0 :: rest ∧
    height env = Z.of_nat (length sample_map) ∧
    width env = Z.of_nat (length (ascii_strip line0)) ∧
    Forall2 (λ line row,
               Forall2 (cell_rel ascii_isdigit ascii_int) (ascii_strip line) row)
      sample_map (grid env).
Proof.
  apply (init_grid ascii_isdigit ascii_int ascii_strip sample_map).
  exact sample_map_init.
Defined.

(** X20 on the sample map. *)
Lemma init_well_formed_witness :
  nonneg_costs sample_env ∧
  (rectangular sample_env ↔
   ∀ line, line ∈ sample_map →
           Z.of_nat (length (ascii_strip line)) = width sample_env) ∧
  (wf_env sample_env ↔
   ∀ line, line ∈ sample_map →
           Z.of_nat (length (ascii_strip line)) = width sample_env).
Proof.
  apply (init_well_formed ascii_isdigit ascii_int ascii_strip sample_map
           sample_instance).
  - exact ascii_int_nonneg.
  - exact sample_map_init.
  - reflexivity.
Defined.

(** X21 on the sample map. *)
Lemma replanning_on_built_environment_witness :
  local_search_replanning 20 sample_env (0, 0) (1, 2) =
  match a_star_search 20 sample_env (0, 0) (1, 2) with
  | Some (Return r) => Some (Return (r, sample_env))
  | Some IndexError => Some IndexError
  | None => None
  end.
Proof.
  apply (replanning_on_built_environment ascii_isdigit ascii_int ascii_strip
           sample_map sample_instance).
  - exact sample_map_init.
  - reflexivity.
Defined.

(** ** Triggers and unreachable goals *)

(** X22: once a registered position triggers it triggers at every later
    time step, and blocking a cell with [update_grid_with_obstacle] does
    not take anything out of the registry: a position that triggered
    before the update, the blocked one included, still triggers after
    it. *)
Theorem trigger_persists env p t t' q env' :
  is_dynamic_obstacle_at env p t = true → t ≤ t' →
  update_grid_with_obstacle env q = Return env' →
  is_dynamic_obstacle_at env p t' = true ∧
  is_dynamic_obstacle_at env' p t' = true.
Proof.
  unfold is_dynamic_obstacle_at.
  intros [Hreg Ht]%andb_true_iff Hle Hu.
  apply bool_decide_eq_true in Ht.
  assert (dynamic_obstacles env' = dynamic_obstacles env) as ->.
  { unfold update_grid_with_obstacle in Hu.
    destruct (bool_decide (is_Some (dynamic_obstacles env !! q))); [|by simplify_eq].
    destruct (getitem (grid env) q.1) as [row|]; simpl in Hu; [|done].
    destruct (setitem row q.2 Inf) as [row'|]; simpl in Hu; [|done].
    destruct (setitem (grid env) q.1 row') as [g'|]; simpl in Hu; [|done].
    by simplify_eq. }
  rewrite Hreg. simpl. split; apply bool_decide_eq_true; lia.
Qed.

(** X22 on the registered cell of [env_detour], blocked at step 5 and
    asked again at step 9. *)
Lemma trigger_persists_witness :
  is_dynamic_obstacle_at env_detour (0, 5) 9 = true ∧
  is_dynamic_obstacle_at env_detour_blocked (0, 5) 9 = true.
Proof.
  apply (trigger_persists env_detour (0, 5) 5 9 (0, 5) env_detour_blocked).
  - reflexivity.
  - lia.
  - vm_compute. reflexivity.
Defined.

Lemma route_goal_passable env s g path :
  route env s g path → s ≠ g → passable_cell env g.
Proof.
  induction 1 as [p|p q g path Ha Hq Hr IH]; intros Hne; [done|].
  destruct (decide (q = g)) as [->|Hqg]; [done|]. by apply IH.
Qed.

(** X23: a goal that is out of bounds or impassable, and is not the start
    itself, is reported as unreachable: on a well-formed environment,
    from an in-bounds start, both searches return [(None, -1, n)] with
    [n >= 1]; they neither raise nor run forever, and never return a path
    ending on such a cell. *)
Theorem search_to_blocked_goal env s g :
  wf_env env → is_valid env s = true → s ≠ g →
  is_valid env g = false ∨ is_passable env g ≠ Return true →
  (∃ n fuel0, (1 ≤ n)%nat ∧
     ∀ fuel, (fuel0 ≤ fuel)%nat →
       uniform_cost_search fuel env s g = Some (Return (None, Int (-1), n))) ∧
  (∃ n fuel0, (1 ≤ n)%nat ∧
     ∀ fuel, (fuel0 ≤ fuel)%nat →
       a_star_search fuel env s g = Some (Return (None, Int (-1), n))).
Proof.
  intros [Hrect Hnn] Hs Hne Hg.
  assert (∀ path, ¬ route env s g path) as Hno.
  { intros path Hr. destruct (route_goal_passable env s g path Hr Hne) as [Hv Hp].
    destruct Hg as [Hg|Hg]; congruence. }
  split.
  - destruct (bf_search_no_route (λ _, 0) env s g Hrect Hnn Hs Hno)
      as (n & fuel0 & Hn & Hres).
    exists n, fuel0. split; [done|]. intros fuel Hle.
    rewrite uniform_cost_search_bf. by apply Hres.
  - destruct (bf_search_no_route (λ p, manhattan_distance p g) env s g
                Hrect Hnn Hs Hno) as (n & fuel0 & Hn & Hres).
    exists n, fuel0. split; [done|]. intros fuel Hle.
    rewrite a_star_search_bf. by apply Hres.
Qed.

(** X23 on the row with an obstacle in the middle, towards the obstacle
    itself. *)
Lemma search_to_blocked_goal_witness :
  (∃ n fuel0, (1 ≤ n)%nat ∧
     ∀ fuel, (fuel0 ≤ fuel)%nat →
       uniform_cost_search fuel env_gap (0, 0) (0, 1) =
       Some (Return (None, Int (-1), n))) ∧
  (∃ n fuel0, (1 ≤ n)%nat ∧
     ∀ fuel, (fuel0 ≤ fuel)%nat →
       a_star_search fuel env_gap (0, 0) (0, 1) =
       Some (Return (None, Int (-1), n))).
Proof.
  apply (search_to_blocked_goal env_gap (0, 0) (0, 1)).
  - exact env_gap_wf.
  - reflexivity.
  - discriminate.
  - right. vm_compute. discriminate.
Defined.

(** The [IndexError] of X16 does occur: on [env_shortcut] the path found
    first has 9 positions, the path spliced in at index 4 leaves 7, and
    the walk, still running over the indices of the first path, reads
    past its end. *)
Lemma replanning_can_raise :
  wf_env env_shortcut ∧
  a_star_search 60 env_shortcut (0, 0) (2, 4) =
    Some (Return (Some [(0, 0); (0, 1); (0, 2); (0, 3); (0, 4);
                        (0, 5); (1, 5); (2, 5); (2, 4)], Int 8, 9%nat)) ∧
  local_search_replanning 60 env_shortcut (0, 0) (2, 4) = Some IndexError.
Proof.
  split; [|split; vm_compute; reflexivity].
  split; [split; [reflexivity|repeat constructor]|].
  repeat constructor; intros z Hz; try discriminate Hz; injection Hz as <-; lia.
Qed.
